(** * peg: a shallow embedding of the grammar-to-recognizer compiler

    The development follows peg.go: the 256-bit character class, the
    builder API over the node stack, the analysis passes (left recursion,
    alternate optimization) and the label/jump emitter with its dry and
    real passes.  Bytes are integers in [0, 256); Go strings that the code
    indexes byte by byte are lists of such bytes. *)

From stdpp Require Import gmap strings list fin_maps pretty.
From Stdlib Require Import ZArith Lia Bool Ascii.

Local Open Scope Z_scope.

(** ** Results of code that can panic or fail to terminate *)

Inductive panic : Type :=
| StackIndex           (* t.stack indexed out of range *)
| IndexOutOfRange      (* a string or slice indexed out of range *)
| NilDereference       (* method call or field access through nil *)
| TypeAssertion.       (* failed interface conversion *)

Inductive result (A : Type) : Type :=
| Ok (a : A)
| Panic (p : panic)    (* run-time panic *)
| Diverge.             (* the Go loop never terminates *)
Arguments Ok {A} a.
Arguments Panic {A} p.
Arguments Diverge {A}.

#[global] Instance result_ret : MRet result := fun A a => Ok a.

#[global] Instance result_bind : MBind result := fun A B f r =>
  match r with
  | Ok a => f a
  | Panic p => Panic p
  | Diverge => Diverge
  end.

(** ** Bytes and byte strings *)

Definition byte_of_ascii (a : ascii) : Z := Z.of_N (N_of_ascii a).

Fixpoint bytes_of_string (s : string) : list Z :=
  match s with
  | EmptyString => []
  | String a s' => byte_of_ascii a :: bytes_of_string s'
  end.

Definition ascii_of_byte (b : Z) : ascii := ascii_of_N (Z.to_N b).

Fixpoint string_of_bytes (l : list Z) : string :=
  match l with
  | [] => EmptyString
  | b :: l' => String (ascii_of_byte b) (string_of_bytes l')
  end.

(** Character codes used by the class syntax. *)
Definition ch_bel : Z := 7.        (* \a, bel *)
Definition ch_bs : Z := 8.         (* \b, bs *)
Definition ch_ht : Z := 9.         (* \t, ht *)
Definition ch_nl : Z := 10.        (* \n, nl *)
Definition ch_vt : Z := 11.        (* \v, vt *)
Definition ch_ff : Z := 12.        (* \f, ff *)
Definition ch_cr : Z := 13.        (* \r, cr *)
Definition ch_dquote : Z := 34.    (* double quote *)
Definition ch_quote : Z := 39.     (* single quote *)
Definition ch_minus : Z := 45.     (* minus *)
Definition ch_lbrack : Z := 91.    (* opening bracket *)
Definition ch_bslash : Z := 92.    (* backslash *)
Definition ch_rbrack : Z := 93.    (* closing bracket *)
Definition ch_caret : Z := 94.     (* caret *)

(** ** characterClass: [32]uint8 *)

Module Class.

Abbreviation t := (list Z).

(** new(characterClass): 32 zero bytes. *)
Definition new : t := replicate 32 0.

(** Well-formed arrays: 32 entries, each a uint8. *)
Definition wf (c : t) : Prop :=
  length c = 32%nat /\ Forall (fun b => 0 <= b < 256) c.

Definition wfb (c : t) : bool :=
  Nat.eqb (length c) 32 && forallb (fun b => (0 <=? b) && (b <? 256)) c.

(** c[character>>3] |= (1 << (character & 7)) *)
Definition add (c : t) (character : Z) : t :=
  let i := Z.to_nat (Z.shiftr character 3) in
  match c !! i with
  | Some b => <[i := Z.lor b (Z.shiftl 1 (Z.land character 7))]> c
  | None => c
  end.

(** c[character>>3]&(1<<(character&7)) != 0 *)
Definition has (c : t) (character : Z) : bool :=
  match c !! Z.to_nat (Z.shiftr character 3) with
  | Some b => negb (Z.land b (Z.shiftl 1 (Z.land character 7)) =? 0)
  | None => false
  end.

(** c[i] = ^c[i] on uint8. *)
Definition complement (c : t) : t := map (fun b => Z.lxor b 255) c.

(** c[index] |= value, for every index of the argument. *)
Definition union (c class : t) : t := zip_with Z.lor c class.

(** c[index] &= value. *)
Definition intersection (c class : t) : t := zip_with Z.land c class.

(** Population count over the 256 characters. *)
Definition len (c : t) : nat :=
  length (filter (fun ch => has c ch = true) (seqZ 0 256)).

(** The escape closure of String.  The default case is
    fmt.Sprintf with the verb %c: the UTF-8 encoding of the code point c, which
    is two bytes from 128 on. *)
Definition escape (c : Z) : list Z :=
  if c =? ch_bel then [ch_bslash; 97]          (* \a *)
  else if c =? ch_bs then [ch_bslash; 98]      (* \b *)
  else if c =? ch_ff then [ch_bslash; 102]     (* \f *)
  else if c =? ch_nl then [ch_bslash; 110]     (* \n *)
  else if c =? ch_cr then [ch_bslash; 114]     (* \r *)
  else if c =? ch_ht then [ch_bslash; 116]     (* \t *)
  else if c =? ch_vt then [ch_bslash; 118]     (* \v *)
  else if c =? ch_quote then [ch_bslash; ch_quote]
  else if c =? ch_dquote then [ch_bslash; ch_dquote]
  else if c =? ch_lbrack then [ch_bslash; ch_lbrack]
  else if c =? ch_rbrack then [ch_bslash; ch_rbrack]
  else if c =? ch_bslash then [ch_bslash; ch_bslash]
  else if c =? ch_minus then [ch_bslash; ch_minus]
  else if c <? 128 then [c]
  else [Z.lor 192 (Z.shiftr c 6); Z.lor 128 (Z.land c 63)].

(** One iteration of the loop of String over [character]; the state is
    the text built so far and the length [l] of the current run. *)
Definition String_step (c : t) (st : list Z * Z) (character : Z) : list Z * Z :=
  let '(class, l) := st in
  if has c character then
    ((if l =? 0 then class ++ escape character else class), l + 1)
  else
    ((if l =? 2 then class ++ escape (character - 1)
      else if 2 <? l then class ++ ch_minus :: escape (character - 1)
      else class), 0).

Definition String (c : t) : list Z :=
  let '(class, l) := foldl (String_step c) ([], 0) (seqZ 0 256) in
  if 2 <=? l then class ++ ch_minus :: escape 255 else class.

End Class.

(** ** The class literal parser of Tree.AddClass *)

(** The inner loop [for j := last; j <= text[i]; j++ { c.add(j) }] with j a
    uint8: j++ wraps from 255 to 0.  [None] when the fuel runs out. *)
Fixpoint range_loop (fuel : nat) (j hi : Z) (c : Class.t) : option Class.t :=
  match fuel with
  | O => None
  | S fuel' =>
      if j <=? hi then range_loop fuel' ((j + 1) mod 256) hi (Class.add c j)
      else Some c
  end.

(** The switch on the escaped character. *)
Definition decode_escape (last : Z) : Z :=
  if last =? 97 then ch_bel
  else if last =? 98 then ch_bs
  else if last =? 102 then ch_ff
  else if last =? 110 then ch_nl
  else if last =? 114 then ch_cr
  else if last =? 116 then ch_ht
  else if last =? 118 then ch_vt
  else last.

(** The loop [for i := 0; i < len(text)-1; i++]; [rest] is text[i:], so the
    loop runs while [rest] has at least two bytes.  [None]: the range loop
    does not terminate. *)
Fixpoint AddClass_loop (rest : list Z) (c : Class.t) (last : Z) (hasLast : bool)
  : option Class.t :=
  match rest with
  | x :: ((y :: rest') as tl) =>
      if (x =? ch_minus) && hasLast then
        match range_loop 257 last y c with
        | Some c' => AddClass_loop rest' c' last false
        | None => None
        end
      else if x =? ch_bslash then
        let last' := decode_escape y in
        AddClass_loop rest' (Class.add c last') last' true
      else AddClass_loop tl (Class.add c x) x true
  | _ => Some c
  end.

(** The body of [if c, ok := t.classes[text]; !ok]: the class a literal
    resolves to. *)
Definition parse_class (text : list Z) : result Class.t :=
  match text with
  | [] => Panic IndexOutOfRange                  (* text[0] *)
  | t0 :: tl =>
      let inverse := t0 =? ch_caret in
      let text' := if inverse then tl else text in
      match AddClass_loop text' Class.new 0 false with
      | None => Diverge
      | Some c =>
          match last text' with
          | None => Panic IndexOutOfRange        (* text[len(text)-1] *)
          | Some z =>
              let c' := Class.add c z in
              Ok (if inverse then Class.complement c' else c')
          end
      end
  end.

(** ** Facts on the bitmap *)

Section ClassFacts.

Lemma land_bit_testbit (a n : Z) :
  0 <= n -> negb (Z.land a (Z.shiftl 1 n) =? 0) = Z.testbit a n.
Proof.
  intros Hn. rewrite Z.shiftl_1_l.
  destruct (Z.testbit a n) eqn:Hb.
  - apply negb_true_iff, Z.eqb_neq. intros H0.
    assert (Ht : Z.testbit (Z.land a (2 ^ n)) n = true).
    { rewrite Z.land_spec, Hb, Z.pow2_bits_true by lia. reflexivity. }
    rewrite H0, Z.bits_0 in Ht. discriminate.
  - apply negb_false_iff, Z.eqb_eq, Z.bits_inj'. intros m Hm.
    rewrite Z.land_spec, Z.bits_0, Z.pow2_bits_eqb by lia.
    destruct (Z.eqb_spec n m); subst; rewrite ?Hb, ?andb_false_r; reflexivity.
Qed.

Lemma byte_index (x : Z) :
  0 <= x < 256 ->
  0 <= Z.shiftr x 3 < 32 /\ 0 <= Z.land x 7 < 8 /\
  x = 8 * Z.shiftr x 3 + Z.land x 7.
Proof.
  intros Hx. rewrite Z.shiftr_div_pow2 by lia.
  change 7 with (Z.ones 3). rewrite Z.land_ones by lia.
  change (2 ^ 3) with 8.
  pose proof (Z.div_mod x 8 ltac:(lia)).
  pose proof (Z.mod_pos_bound x 8 ltac:(lia)).
  assert (x / 8 < 32) by (apply Z.div_lt_upper_bound; lia).
  assert (0 <= x / 8) by (apply Z.div_pos; lia).
  lia.
Qed.

Lemma byte_testbit_high (b j : Z) :
  0 <= b < 256 -> 8 <= j -> Z.testbit b j = false.
Proof.
  intros Hb Hj. rewrite <- (Z.mod_small b (2 ^ 8)) by (change (2 ^ 8) with 256; lia).
  apply Z.mod_pow2_bits_high. lia.
Qed.

Lemma wf_lookup (c : Class.t) (x : Z) :
  Class.wf c -> 0 <= x < 256 ->
  exists b, c !! Z.to_nat (Z.shiftr x 3) = Some b /\ 0 <= b < 256.
Proof.
  intros [Hlen Hall] Hx. destruct (byte_index x Hx) as (Hi & _ & _).
  destruct (lookup_lt_is_Some_2 c (Z.to_nat (Z.shiftr x 3))) as [b Hb]; [lia|].
  exists b. split; [exact Hb|].
  eapply (proj1 (Forall_lookup _ _) Hall); eauto.
Qed.

Lemma has_testbit (c : Class.t) (x b : Z) :
  0 <= x < 256 -> c !! Z.to_nat (Z.shiftr x 3) = Some b ->
  Class.has c x = Z.testbit b (Z.land x 7).
Proof.
  intros Hx Hb. unfold Class.has. rewrite Hb.
  apply land_bit_testbit. destruct (byte_index x Hx); lia.
Qed.

Lemma wf_new : Class.wf Class.new.
Proof. split; [reflexivity|]. apply Forall_replicate. lia. Qed.

Lemma has_new (x : Z) : Class.has Class.new x = false.
Proof.
  unfold Class.has. destruct (Class.new !! _) as [b|] eqn:Hb; [|reflexivity].
  apply lookup_replicate in Hb as [-> _]. reflexivity.
Qed.

Lemma wf_add (c : Class.t) (ch : Z) :
  Class.wf c -> 0 <= ch < 256 -> Class.wf (Class.add c ch).
Proof.
  intros Hwf Hch. destruct (wf_lookup c ch Hwf Hch) as (b & Hb & Hrange).
  unfold Class.add. rewrite Hb. destruct Hwf as [Hlen Hall].
  split; [rewrite length_insert; exact Hlen|].
  apply Forall_insert; [exact Hall|].
  destruct (byte_index ch Hch) as (_ & Hbit & _).
  rewrite Z.shiftl_1_l. split.
  - apply Z.lor_nonneg. split; [lia|apply Z.pow_nonneg; lia].
  - assert (Hlt : Z.lor b (2 ^ Z.land ch 7) < 2 ^ 8); [|exact Hlt].
    destruct (Z.eq_dec (Z.lor b (2 ^ Z.land ch 7)) 0) as [->|Hne]; [reflexivity|].
    apply Z.log2_lt_pow2.
    { assert (0 <= Z.lor b (2 ^ Z.land ch 7)); [|lia].
      apply Z.lor_nonneg. split; [lia|apply Z.pow_nonneg; lia]. }
    rewrite Z.log2_lor by (try apply Z.pow_nonneg; lia).
    rewrite Z.log2_pow2 by lia.
    destruct (Z.eq_dec b 0) as [->|Hb0]; [simpl; lia|].
    assert (Z.log2 b < 8) by (apply Z.log2_lt_pow2; change (2 ^ 8) with 256; lia).
    lia.
Qed.

Lemma has_add (c : Class.t) (ch x : Z) :
  Class.wf c -> 0 <= ch < 256 -> 0 <= x < 256 ->
  Class.has (Class.add c ch) x = (x =? ch) || Class.has c x.
Proof.
  intros Hwf Hch Hx.
  destruct (wf_lookup c ch Hwf Hch) as (b & Hb & Hrange).
  destruct (wf_lookup c x Hwf Hx) as (bx & Hbx & Hrangex).
  destruct (byte_index ch Hch) as (Hi & Hbit & Heq).
  destruct (byte_index x Hx) as (Hix & Hbitx & Heqx).
  rewrite (has_testbit c x bx Hx Hbx).
  unfold Class.add. rewrite Hb.
  destruct (Z.eq_dec (Z.shiftr x 3) (Z.shiftr ch 3)) as [Hsame|Hdiff].
  - assert (bx = b) by (rewrite Hsame in Hbx; congruence). subst bx.
    erewrite has_testbit; [|exact Hx|].
    2:{ rewrite Hsame. apply list_lookup_insert_eq. eapply lookup_lt_Some; eauto. }
    rewrite Z.lor_spec, Z.shiftl_1_l, Z.pow2_bits_eqb by lia.
    destruct (Z.eqb_spec (Z.land ch 7) (Z.land x 7)) as [Hb7|Hb7];
      destruct (Z.eqb_spec x ch) as [Hxc|Hxc]; try subst x;
      rewrite ?orb_true_r, ?orb_true_l, ?orb_false_r, ?orb_false_l;
      try reflexivity; lia.
  - erewrite has_testbit; [|exact Hx|].
    2:{ rewrite list_lookup_insert_ne; [exact Hbx|]. intros Heqi. apply Hdiff.
        apply Z2Nat.inj in Heqi; lia. }
    destruct (Z.eqb_spec x ch) as [->|_]; [contradiction|]. reflexivity.
Qed.

(** Two well-formed bitmaps with the same members are the same array. *)
Lemma class_ext (c1 c2 : Class.t) :
  Class.wf c1 -> Class.wf c2 ->
  (forall x, 0 <= x < 256 -> Class.has c1 x = Class.has c2 x) ->
  c1 = c2.
Proof.
  intros Hwf1 Hwf2 Hhas. apply list_eq. intros i.
  destruct (decide (i < 32)%nat) as [Hi|Hi].
  2:{ destruct Hwf1 as [Hl1 _], Hwf2 as [Hl2 _].
      rewrite !lookup_ge_None_2 by lia. reflexivity. }
  assert (Hshift : forall j, 0 <= j < 8 ->
             Z.shiftr (8 * Z.of_nat i + j) 3 = Z.of_nat i /\
             Z.land (8 * Z.of_nat i + j) 7 = j /\
             0 <= 8 * Z.of_nat i + j < 256).
  { intros j Hj. assert (Hr : 0 <= 8 * Z.of_nat i + j < 256) by lia.
    destruct (byte_index _ Hr) as (H1 & H2 & H3). lia. }
  destruct (Hshift 0 ltac:(lia)) as (Hs0 & _ & Hr0).
  destruct (wf_lookup c1 _ Hwf1 Hr0) as (b1 & Hb1 & Hrange1).
  destruct (wf_lookup c2 _ Hwf2 Hr0) as (b2 & Hb2 & Hrange2).
  rewrite Hs0, Nat2Z.id in Hb1, Hb2. rewrite Hb1, Hb2. f_equal.
  apply Z.bits_inj'. intros j Hj.
  destruct (Z_lt_dec j 8) as [Hj8|Hj8].
  - destruct (Hshift j ltac:(lia)) as (Hs & Hl & Hr).
    specialize (Hhas _ Hr).
    erewrite (has_testbit c1), (has_testbit c2) in Hhas; try exact Hr.
    2:{ rewrite Hs, Nat2Z.id. exact Hb2. }
    2:{ rewrite Hs, Nat2Z.id. exact Hb1. }
    rewrite Hl in Hhas. exact Hhas.
  - rewrite !byte_testbit_high by lia. reflexivity.
Qed.

End ClassFacts.

(** ** Printing a class and reading it back *)

(** The characters that [escape] prints with a backslash. *)
Definition escaped (x : Z) : bool :=
  (x =? ch_bel) || (x =? ch_bs) || (x =? ch_ff) || (x =? ch_nl) ||
  (x =? ch_cr) || (x =? ch_ht) || (x =? ch_vt) || (x =? ch_quote) ||
  (x =? ch_dquote) || (x =? ch_lbrack) || (x =? ch_rbrack) ||
  (x =? ch_bslash) || (x =? ch_minus).

(** The control characters, printed as a backslash and a letter. *)
Definition control (x : Z) : bool := (ch_bel <=? x) && (x <=? ch_cr).

(** The classes whose printed form the literal parser reads back:
    - there is a member, and every member is below 128;
    - the least member is not the caret;
    - the greatest member is not a control character;
    - no run of three or more members ends at an escaped character. *)
Definition reads_back (c : Class.t) : bool :=
  existsb (Class.has c) (seqZ 0 256) &&
  forallb (fun x => negb (Class.has c x)) (seqZ 128 128) &&
  (negb (Class.has c ch_caret) || existsb (Class.has c) (seqZ 0 ch_caret)) &&
  forallb (fun x => negb (control x && Class.has c x) ||
                    existsb (Class.has c) (seqZ (x + 1) (255 - x)))
          (seqZ 0 256) &&
  forallb (fun x => negb (escaped x && Class.has c (x - 2) && Class.has c (x - 1)
                          && Class.has c x) || Class.has c (x + 1))
          (seqZ 0 256).

(** What String appends from [character = k] on, when the current run has
    length [l]; [n] counts the characters left. *)
Definition closing (l prev : Z) : list Z :=
  if l =? 2 then Class.escape prev
  else if 2 <? l then ch_minus :: Class.escape prev
  else [].

Fixpoint suffix (c : Class.t) (n : nat) (k l : Z) : list Z :=
  match n with
  | O => if 2 <=? l then ch_minus :: Class.escape 255 else []
  | S n' =>
      if Class.has c k then
        (if l =? 0 then Class.escape k else []) ++ suffix c n' (k + 1) (l + 1)
      else closing l (k - 1) ++ suffix c n' (k + 1) 0
  end.

Lemma String_loop_suffix (c : Class.t) (n : nat) (k l : Z) (out : list Z) :
  (let '(class, l') := foldl (Class.String_step c) (out, l) (seqZ k (Z.of_nat n)) in
   if 2 <=? l' then class ++ ch_minus :: Class.escape 255 else class)
  = out ++ suffix c n k l.
Proof.
  revert k l out. induction n as [|n IH]; intros k l out.
  - simpl. destruct (2 <=? l); [reflexivity|]. rewrite app_nil_r. reflexivity.
  - rewrite seqZ_cons by lia.
    replace (Z.pred (Z.of_nat (S n))) with (Z.of_nat n) by lia.
    replace (Z.succ k) with (k + 1) by lia.
    cbn [foldl suffix]. unfold Class.String_step at 2.
    destruct (Class.has c k).
    + rewrite IH. destruct (l =? 0); rewrite <- ?app_assoc; reflexivity.
    + rewrite IH. unfold closing.
      destruct (l =? 2); [rewrite <- app_assoc; reflexivity|].
      destruct (2 <? l); [rewrite <- app_assoc; reflexivity|reflexivity].
Qed.

Lemma String_suffix (c : Class.t) : Class.String c = suffix c 256 0 0.
Proof.
  pose proof (String_loop_suffix c 256 0 0 []) as H.
  change (Z.of_nat 256) with 256 in H.
  unfold Class.String. rewrite H. apply app_nil_l.
Qed.

(** The parser's result on a text: the loop, then the last byte. *)
Definition finish (text : list Z) (c : Class.t) (lst : Z) (hasLast : bool)
  : option Class.t :=
  match AddClass_loop text c lst hasLast, last text with
  | Some c', Some z => Some (Class.add c' z)
  | _, _ => None
  end.

Section Roundtrip.

Lemma escape_shape (x : Z) :
  0 <= x < 128 ->
  (escaped x = false /\ Class.escape x = [x]) \/
  (escaped x = true /\ exists y, Class.escape x = [ch_bslash; y] /\
     decode_escape y = x /\ 0 <= y < 128 /\ (control x = false -> y = x)).
Proof.
  intros Hx. unfold Class.escape, escaped.
  repeat (match goal with
          | |- context [?a =? ?b] =>
              destruct (Z.eqb_spec a b) as [->|?];
              [right; split; [reflexivity|eexists; split; [reflexivity|];
                 vm_compute; repeat split; try discriminate; congruence]|]
          end).
  destruct (Z.ltb_spec x 128); [|lia]. left. split; reflexivity.
Qed.

Lemma escaped_not_plain (x : Z) :
  escaped x = false -> x <> ch_minus /\ x <> ch_bslash.
Proof.
  unfold escaped. intros H. split; intros ->; vm_compute in H; discriminate.
Qed.

Lemma escape_nonempty (x : Z) : Class.escape x <> [].
Proof.
  unfold Class.escape. repeat (case_match; try discriminate).
Qed.

(** Reading one printed character that is followed by more text. *)
Lemma loop_escape (x : Z) (rest : list Z) (c : Class.t) (lst : Z) (hl : bool) :
  0 <= x < 128 -> rest <> [] ->
  AddClass_loop (Class.escape x ++ rest) c lst hl
  = AddClass_loop rest (Class.add c x) x true.
Proof.
  intros Hx Hrest.
  destruct (escape_shape x Hx) as [[Hesc ->]|[Hesc (y & -> & Hdec & _)]].
  - destruct (escaped_not_plain x Hesc) as [Hm Hb].
    destruct rest as [|r rest]; [contradiction|].
    cbn [app AddClass_loop].
    destruct (Z.eqb_spec x ch_minus); [contradiction|].
    destruct (Z.eqb_spec x ch_bslash); [contradiction|].
    reflexivity.
  - cbn [app AddClass_loop]. change (ch_bslash =? ch_minus) with false.
    change (ch_bslash =? ch_bslash) with true. cbn [andb].
    rewrite Hdec. reflexivity.
Qed.

(** The range loop below 255 terminates and adds the interval. *)
Lemma range_loop_spec (fuel : nat) (j hi : Z) (c : Class.t) :
  Class.wf c -> 0 <= j -> hi < 255 -> j <= hi + 1 ->
  (Z.to_nat (hi + 1 - j) < fuel)%nat ->
  exists c', range_loop fuel j hi c = Some c' /\ Class.wf c' /\
    forall x, 0 <= x < 256 ->
      Class.has c' x = Class.has c x || ((j <=? x) && (x <=? hi)).
Proof.
  revert j c. induction fuel as [|fuel IH]; intros j c Hwf Hj Hhi Hle Hfuel; [lia|].
  cbn [range_loop]. destruct (Z.leb_spec j hi) as [Hjh|Hjh].
  - rewrite Z.mod_small by lia.
    destruct (IH (j + 1) (Class.add c j)) as (c' & Hc' & Hwf' & Hspec);
      try lia; [apply wf_add; [exact Hwf|lia]|].
    exists c'. split; [exact Hc'|]. split; [exact Hwf'|].
    intros x Hx. rewrite Hspec, has_add by (try exact Hwf; lia).
    destruct (Z.eqb_spec x j), (Z.leb_spec (j + 1) x), (Z.leb_spec j x),
      (Z.leb_spec x hi), (Class.has c x); try reflexivity; lia.
  - exists c. split; [reflexivity|]. split; [exact Hwf|].
    intros x Hx.
    destruct (Z.leb_spec j x), (Z.leb_spec x hi), (Class.has c x);
      try reflexivity; lia.
Qed.

(** With 255 as its upper end the range loop never leaves: whatever the
    fuel, it is used up. *)
Lemma range_loop_255 (fuel : nat) (j : Z) (c : Class.t) :
  0 <= j < 256 -> range_loop fuel j 255 c = None.
Proof.
  revert j c. induction fuel as [|fuel IH]; intros j c Hj; [reflexivity|].
  cbn [range_loop]. destruct (Z.leb_spec j 255); [|lia].
  apply IH. apply Z.mod_pos_bound. lia.
Qed.

End Roundtrip.

Section ReadBack.

Variable c : Class.t.
Hypothesis Hwf : Class.wf c.
Hypothesis Hascii : forall x, 0 <= x < 256 -> Class.has c x = true -> x < 128.
Hypothesis Hlast : forall x, 0 <= x < 256 -> Class.has c x = true ->
  control x = true -> exists y, x < y < 256 /\ Class.has c y = true.
Hypothesis Hrun : forall x, 0 <= x < 256 -> escaped x = true ->
  Class.has c (x - 2) = true -> Class.has c (x - 1) = true ->
  Class.has c x = true -> Class.has c (x + 1) = true.

Lemma suffix_nil (n : nat) (k : Z) :
  k + Z.of_nat n = 256 -> 0 <= k -> suffix c n k 0 = [] ->
  forall y, k <= y < 256 -> Class.has c y = false.
Proof.
  revert k. induction n as [|n IH]; intros k Hk Hk0 Hnil y Hy; [lia|].
  cbn [suffix] in Hnil. destruct (Class.has c k) eqn:Hhas.
  - apply app_eq_nil in Hnil as [Hnil _]. cbn in Hnil.
    exfalso. exact (escape_nonempty k Hnil).
  - apply app_eq_nil in Hnil as [_ Hnil].
    destruct (Z.eq_dec y k) as [->|Hne]; [exact Hhas|].
    apply (IH (k + 1)); [lia|lia|exact Hnil|lia].
Qed.

Lemma finish_more (item rest : list Z) (c0 c1 : Class.t) (l0 l1 : Z) (h0 h1 : bool) :
  rest <> [] ->
  AddClass_loop (item ++ rest) c0 l0 h0 = AddClass_loop rest c1 l1 h1 ->
  finish (item ++ rest) c0 l0 h0 = finish rest c1 l1 h1.
Proof.
  intros Hrest Hloop. unfold finish. rewrite Hloop, last_app.
  destruct (last rest) eqn:Hl; [reflexivity|].
  apply last_None in Hl. contradiction.
Qed.

(** A printed character at the very end of the text. *)
Lemma finish_escape_last (x : Z) (c0 : Class.t) (lst : Z) (hl : bool) :
  0 <= x < 128 -> control x = false -> Class.wf c0 ->
  exists c1, finish (Class.escape x) c0 lst hl = Some c1 /\ Class.wf c1 /\
    forall z, 0 <= z < 256 -> Class.has c1 z = Class.has c0 z || (z =? x).
Proof.
  intros Hx Hctl Hwf0.
  destruct (escape_shape x Hx) as [[Hesc ->]|[Hesc (y & -> & Hdec & Hy & Hsame)]].
  - exists (Class.add c0 x). split; [reflexivity|].
    split; [apply wf_add; [exact Hwf0|lia]|].
    intros z Hz. rewrite has_add by (try exact Hwf0; lia). apply orb_comm.
  - specialize (Hsame Hctl). subst y.
    exists (Class.add (Class.add c0 x) x). split.
    { unfold finish. cbn [AddClass_loop last].
      change (ch_bslash =? ch_minus) with false.
      change (ch_bslash =? ch_bslash) with true. cbn [andb].
      rewrite Hdec. reflexivity. }
    assert (Class.wf (Class.add c0 x)) by (apply wf_add; [exact Hwf0|lia]).
    split; [apply wf_add; [assumption|lia]|].
    intros z Hz. rewrite !has_add by (try assumption; lia).
    destruct (z =? x), (Class.has c0 z); reflexivity.
Qed.

(** The printed form of one run [s .. e] of length [l]. *)
Definition item (l s e : Z) : list Z := Class.escape s ++ closing l e.

Definition in_run (s e x : Z) : bool := (s <=? x) && (x <=? e).

Lemma plain_run_end (l s e : Z) :
  3 <= l -> l = e - s + 1 -> 0 <= s -> e < 128 ->
  (forall y, s <= y <= e -> Class.has c y = true) ->
  Class.has c (e + 1) = false ->
  Class.escape e = [e].
Proof.
  intros Hl Hlen Hs He Hmem Hnext.
  destruct (escape_shape e ltac:(lia)) as [[_ Heq]|[Hesc _]]; [exact Heq|].
  rewrite (Hrun e) in Hnext; try discriminate; try lia; try exact Hesc;
    apply Hmem; lia.
Qed.

Lemma item_more (l s e : Z) (rest : list Z) (c0 : Class.t) (lst : Z) (hl : bool) :
  1 <= l -> l = e - s + 1 -> 0 <= s -> e < 128 ->
  (forall y, s <= y <= e -> Class.has c y = true) ->
  Class.has c (e + 1) = false ->
  Class.wf c0 -> rest <> [] ->
  exists c1 lst1 hl1,
    AddClass_loop (item l s e ++ rest) c0 lst hl = AddClass_loop rest c1 lst1 hl1 /\
    Class.wf c1 /\
    forall x, 0 <= x < 256 -> Class.has c1 x = Class.has c0 x || in_run s e x.
Proof.
  intros Hl Hlen Hs He Hmem Hnext Hwf0 Hrest.
  assert (Hwfs : Class.wf (Class.add c0 s)) by (apply wf_add; [exact Hwf0|lia]).
  unfold item, closing, in_run. rewrite <- app_assoc.
  destruct (Z.eqb_spec l 2) as [Hl2|Hl2]; [|destruct (Z.ltb_spec 2 l) as [Hl3|Hl3]].
  - rewrite loop_escape; [|lia|].
    2:{ intros Hnil. apply app_eq_nil in Hnil as [Hnil _]. exact (escape_nonempty e Hnil). }
    rewrite loop_escape by (try exact Hrest; lia).
    eexists _, _, _. split; [reflexivity|].
    split; [apply wf_add; [exact Hwfs|lia]|].
    intros x Hx. rewrite !has_add by (try assumption; lia).
    destruct (Z.eqb_spec x e), (Z.eqb_spec x s), (Z.leb_spec s x), (Z.leb_spec x e),
      (Class.has c0 x); try reflexivity; lia.
  - rewrite (plain_run_end l s e) by (assumption || lia).
    rewrite loop_escape by (try discriminate; lia).
    cbn [app AddClass_loop]. change (ch_minus =? ch_minus) with true. cbn [andb].
    destruct (range_loop_spec 257 s e (Class.add c0 s)) as (c1 & -> & Hwf1 & Hspec);
      try assumption; try lia.
    eexists _, _, _. split; [reflexivity|]. split; [exact Hwf1|].
    intros x Hx. rewrite Hspec, has_add by (try assumption; lia).
    destruct (Z.eqb_spec x s), (Z.leb_spec s x), (Z.leb_spec x e),
      (Class.has c0 x); try reflexivity; lia.
  - assert (l = 1) by lia. cbn [app].
    rewrite loop_escape by (try exact Hrest; lia).
    eexists _, _, _. split; [reflexivity|]. split; [exact Hwfs|].
    intros x Hx. rewrite has_add by (try assumption; lia).
    destruct (Z.eqb_spec x s), (Z.leb_spec s x), (Z.leb_spec x e),
      (Class.has c0 x); try reflexivity; lia.
Qed.

Lemma item_final (l s e : Z) (c0 : Class.t) (lst : Z) (hl : bool) :
  1 <= l -> l = e - s + 1 -> 0 <= s -> e < 128 ->
  (forall y, s <= y <= e -> Class.has c y = true) ->
  Class.has c (e + 1) = false -> control e = false ->
  Class.wf c0 ->
  exists c1, finish (item l s e) c0 lst hl = Some c1 /\ Class.wf c1 /\
    forall x, 0 <= x < 256 -> Class.has c1 x = Class.has c0 x || in_run s e x.
Proof.
  intros Hl Hlen Hs He Hmem Hnext Hctl Hwf0.
  assert (Hwfs : Class.wf (Class.add c0 s)) by (apply wf_add; [exact Hwf0|lia]).
  unfold item, closing, in_run.
  destruct (Z.eqb_spec l 2) as [Hl2|Hl2]; [|destruct (Z.ltb_spec 2 l) as [Hl3|Hl3]].
  - rewrite (finish_more _ _ _ (Class.add c0 s) _ s _ true);
      [|apply escape_nonempty|apply loop_escape; [lia|apply escape_nonempty]].
    destruct (finish_escape_last e (Class.add c0 s) s true) as (c1 & -> & Hwf1 & Hspec);
      try assumption; try lia.
    exists c1. split; [reflexivity|]. split; [exact Hwf1|].
    intros x Hx. rewrite Hspec, has_add by (try assumption; lia).
    destruct (Z.eqb_spec x e), (Z.eqb_spec x s), (Z.leb_spec s x), (Z.leb_spec x e),
      (Class.has c0 x); try reflexivity; lia.
  - rewrite (plain_run_end l s e) by (assumption || lia).
    rewrite (finish_more _ _ _ (Class.add c0 s) _ s _ true);
      [|discriminate|apply loop_escape; [lia|discriminate]].
    unfold finish. cbn [AddClass_loop last].
    change (ch_minus =? ch_minus) with true. cbn [andb].
    destruct (range_loop_spec 257 s e (Class.add c0 s)) as (c1 & -> & Hwf1 & Hspec);
      try assumption; try lia.
    eexists. split; [reflexivity|]. split; [apply wf_add; [exact Hwf1|lia]|].
    intros x Hx. rewrite has_add, Hspec, has_add by (try assumption; lia).
    destruct (Z.eqb_spec x e), (Z.eqb_spec x s), (Z.leb_spec s x), (Z.leb_spec x e),
      (Class.has c0 x); try reflexivity; lia.
  - assert (l = 1) by lia. assert (e = s) by lia. subst e. rewrite app_nil_r.
    destruct (finish_escape_last s c0 lst hl) as (c1 & -> & Hwf1 & Hspec);
      try assumption; try lia.
    exists c1. split; [reflexivity|]. split; [exact Hwf1|].
    intros x Hx. rewrite Hspec by lia.
    destruct (Z.eqb_spec x s), (Z.leb_spec s x), (Z.leb_spec x s),
      (Class.has c0 x); try reflexivity; lia.
Qed.

(** The text still to be read when String is at character [k] with a run
    of length [l] open: the first character of the run, then whatever
    String appends from [k] on. *)
Definition pending (n : nat) (k l : Z) : list Z :=
  (if l =? 0 then [] else Class.escape (k - l)) ++ suffix c n k l.

Lemma pending_reads (n : nat) :
  forall (k l : Z) (c0 : Class.t) (lst : Z) (hl : bool),
    k + Z.of_nat n = 256 -> 0 <= l <= k ->
    (forall y, k - l <= y < k -> Class.has c y = true) ->
    Class.wf c0 -> pending n k l <> [] ->
    exists c1, finish (pending n k l) c0 lst hl = Some c1 /\ Class.wf c1 /\
      forall x, 0 <= x < 256 ->
        Class.has c1 x = Class.has c0 x || ((k - l <=? x) && Class.has c x).
Proof.
  induction n as [|n IH]; intros k l c0 lst hl Hk Hl Hmem Hwf0 Hne.
  - exfalso. destruct (Z.eq_dec l 0) as [->|Hl0].
    + apply Hne. reflexivity.
    + assert (Class.has c 255 = true) by (apply Hmem; lia).
      assert (255 < 128) by (apply Hascii; [lia|assumption]). lia.
  - unfold pending in *. cbn [suffix] in *.
    destruct (Class.has c k) eqn:Hhas.
    + (* k joins the run *)
      assert (Heq : (if l =? 0 then [] else Class.escape (k - l)) ++
                    (if l =? 0 then Class.escape k else []) ++ suffix c n (k + 1) (l + 1)
                    = (if l + 1 =? 0 then [] else Class.escape (k + 1 - (l + 1))) ++
                      suffix c n (k + 1) (l + 1)).
      { destruct (Z.eqb_spec (l + 1) 0); [lia|].
        replace (k + 1 - (l + 1)) with (k - l) by lia.
        destruct (Z.eqb_spec l 0) as [->|_]; [|reflexivity].
        replace (k - 0) with k by lia. reflexivity. }
      rewrite Heq in *.
      destruct (IH (k + 1) (l + 1) c0 lst hl) as (c1 & Hfin & Hwf1 & Hspec);
        try assumption; try lia.
      { intros y Hy. destruct (Z.eq_dec y k) as [->|?]; [exact Hhas|apply Hmem; lia]. }
      exists c1. split; [exact Hfin|]. split; [exact Hwf1|].
      intros x Hx. rewrite Hspec by lia.
      replace (k + 1 - (l + 1)) with (k - l) by lia. reflexivity.
    + destruct (Z.eq_dec l 0) as [->|Hl0].
      * (* no run is open *)
        change (closing 0 (k - 1)) with (@nil Z) in *. cbn [app Z.eqb] in *.
        destruct (IH (k + 1) 0 c0 lst hl) as (c1 & Hfin & Hwf1 & Hspec);
          try assumption; try lia.
        exists c1. split; [exact Hfin|]. split; [exact Hwf1|].
        intros x Hx. rewrite Hspec by lia.
        destruct (Z.leb_spec (k + 1 - 0) x), (Z.leb_spec (k - 0) x);
          try reflexivity; try lia.
        assert (x = k) by lia. subst x. rewrite Hhas. reflexivity.
      * (* the run [k-l .. k-1] closes *)
        destruct (Z.eqb_spec l 0); [contradiction|].
        assert (He : k - 1 < 128).
        { apply Hascii; [lia|apply Hmem; lia]. }
        assert (Hrun' : forall y, k - l <= y <= k - 1 -> Class.has c y = true).
        { intros y Hy. apply Hmem. lia. }
        assert (Hnext : Class.has c (k - 1 + 1) = false).
        { replace (k - 1 + 1) with k by lia. exact Hhas. }
        rewrite app_assoc. fold (item l (k - l) (k - 1)).
        destruct (suffix c n (k + 1) 0) as [|r rest] eqn:Hrest.
        -- rewrite app_nil_r.
           pose proof (suffix_nil n (k + 1) ltac:(lia) ltac:(lia) Hrest) as Hnone.
           destruct (item_final l (k - l) (k - 1) c0 lst hl) as (c1 & Hfin & Hwf1 & Hspec);
             try assumption; try lia.
           { destruct (control (k - 1)) eqn:Hctl; [|reflexivity].
             destruct (Hlast (k - 1)) as (y & Hy & Hhy); try assumption; try lia.
             { apply Hmem. lia. }
             destruct (Z.eq_dec y k) as [->|?]; [congruence|].
             rewrite Hnone in Hhy by lia. discriminate. }
           exists c1. split; [exact Hfin|]. split; [exact Hwf1|].
           intros x Hx. rewrite Hspec by lia. unfold in_run.
           destruct (Z.leb_spec (k - l) x), (Z.leb_spec x (k - 1));
             cbn [andb]; try reflexivity; try lia.
           ++ rewrite Hrun' by lia. reflexivity.
           ++ destruct (Z.eq_dec x k) as [->|?]; [rewrite Hhas; reflexivity|].
              rewrite Hnone by lia. reflexivity.
        -- destruct (item_more l (k - l) (k - 1) (r :: rest) c0 lst hl)
             as (c1 & lst1 & hl1 & Hloop & Hwf1 & Hspec1);
             try assumption; try lia; try discriminate.
           rewrite (finish_more (item l (k - l) (k - 1)) (r :: rest) c0 c1 lst lst1
                      hl hl1 ltac:(discriminate) Hloop).
           destruct (IH (k + 1) 0 c1 lst1 hl1) as (c2 & Hfin & Hwf2 & Hspec2);
             try assumption; try lia.
           { unfold pending. cbn [Z.eqb app]. rewrite Hrest. discriminate. }
           unfold pending in Hfin. cbn [Z.eqb app] in Hfin. rewrite Hrest in Hfin.
           exists c2. split; [exact Hfin|]. split; [exact Hwf2|].
           intros x Hx. rewrite Hspec2, Hspec1 by lia. unfold in_run.
           destruct (Z.leb_spec (k - l) x), (Z.leb_spec x (k - 1)),
             (Z.leb_spec (k + 1 - 0) x); cbn [andb];
             rewrite ?orb_false_r, ?orb_true_r; try reflexivity; try lia.
           ++ rewrite Hrun' by lia. rewrite orb_true_r. reflexivity.
           ++ assert (x = k) by lia. subst x. rewrite Hhas, orb_false_r. reflexivity.
Qed.

End ReadBack.

Section ReadBackTop.

Variable c : Class.t.
Hypothesis Hwf : Class.wf c.

Lemma suffix_head (n : nat) (k : Z) :
  (forall x, 0 <= x < 256 -> Class.has c x = true -> x < 128) ->
  (Class.has c ch_caret = true ->
   exists y, 0 <= y < ch_caret /\ Class.has c y = true) ->
  k + Z.of_nat n = 256 -> 0 <= k ->
  (forall y, 0 <= y < k -> Class.has c y = false) ->
  head (suffix c n k 0) <> Some ch_caret.
Proof.
  intros Hascii Hcaret. revert k.
  induction n as [|n IH]; intros k Hk Hk0 Hbelow; [discriminate|].
  cbn [suffix]. destruct (Class.has c k) eqn:Hhas.
  - cbn [Z.eqb]. assert (Hk128 : k < 128) by (apply Hascii; [lia|exact Hhas]).
    destruct (escape_shape k ltac:(lia)) as [[_ ->]|[_ (y & -> & _)]].
    + cbn. intros [= ->]. destruct (Hcaret Hhas) as (y & Hy & Hhy).
      rewrite Hbelow in Hhy by exact Hy. discriminate.
    + cbn. discriminate.
  - change (closing 0 (k - 1)) with (@nil Z). cbn [app].
    apply IH; [lia|lia|].
    intros y Hy. destruct (Z.eq_dec y k) as [->|?]; [exact Hhas|apply Hbelow; lia].
Qed.

Lemma existsb_seqZ (f : Z -> bool) (m len : Z) :
  existsb f (seqZ m len) = true <-> exists y, m <= y < m + len /\ f y = true.
Proof.
  rewrite existsb_exists. split; intros (y & Hy & Hf); exists y; split;
    try exact Hf; [apply list_elem_of_In, elem_of_seqZ in Hy|
                   apply list_elem_of_In, elem_of_seqZ]; lia.
Qed.

Lemma forallb_seqZ (f : Z -> bool) (m len : Z) :
  forallb f (seqZ m len) = true <-> forall y, m <= y < m + len -> f y = true.
Proof.
  rewrite forallb_forall. split; intros H y Hy.
  - apply H, list_elem_of_In, elem_of_seqZ. lia.
  - apply H. apply list_elem_of_In, elem_of_seqZ in Hy. lia.
Qed.

Lemma reads_back_suffix (n : nat) :
  0 + Z.of_nat n = 256 ->
  reads_back c = true -> parse_class (suffix c n 0 0) = Ok c.
Proof.
  intros Hn. unfold reads_back. rewrite !andb_true_iff.
  intros ((((Hmem & Hascii) & Hcaret) & Hlast) & Hrun).
  apply existsb_seqZ in Hmem as (m & Hm & Hhm).
  assert (Hascii' : forall x, 0 <= x < 256 -> Class.has c x = true -> x < 128).
  { intros x Hx Hhx. destruct (Z_lt_dec x 128) as [?|Hge]; [assumption|].
    pose proof (proj1 (forallb_seqZ _ _ _) Hascii x ltac:(lia)) as Hx'.
    cbn beta in Hx'. rewrite Hhx in Hx'. discriminate. }
  assert (Hcaret' : Class.has c ch_caret = true ->
                    exists y, 0 <= y < ch_caret /\ Class.has c y = true).
  { intros Hh. rewrite Hh in Hcaret. cbn [negb orb] in Hcaret.
    apply existsb_seqZ in Hcaret as (y & Hy & Hhy). exists y. split; [lia|exact Hhy]. }
  assert (Hlast' : forall x, 0 <= x < 256 -> Class.has c x = true ->
            control x = true -> exists y, x < y < 256 /\ Class.has c y = true).
  { intros x Hx Hhx Hctl.
    pose proof (proj1 (forallb_seqZ _ _ _) Hlast x ltac:(lia)) as Hx'.
    cbn beta in Hx'. rewrite Hhx, Hctl in Hx'. cbn [andb negb orb] in Hx'.
    apply existsb_seqZ in Hx' as (y & Hy & Hhy). exists y. split; [lia|exact Hhy]. }
  assert (Hrun' : forall x, 0 <= x < 256 -> escaped x = true ->
            Class.has c (x - 2) = true -> Class.has c (x - 1) = true ->
            Class.has c x = true -> Class.has c (x + 1) = true).
  { intros x Hx Hesc H2 H1 H0.
    pose proof (proj1 (forallb_seqZ _ _ _) Hrun x ltac:(lia)) as Hx'.
    cbn beta in Hx'. rewrite Hesc, H2, H1, H0 in Hx'. exact Hx'. }
  assert (Hpend : pending c n 0 0 = suffix c n 0 0) by reflexivity.
  assert (Hne : suffix c n 0 0 <> []).
  { intros Hnil.
    rewrite (suffix_nil c n 0 Hn ltac:(lia) Hnil m) in Hhm by lia.
    discriminate. }
  destruct (pending_reads c Hascii' Hlast' Hrun' n 0 0 Class.new 0 false)
    as (c1 & Hfin & Hwf1 & Hspec); try lia;
    [apply wf_new|rewrite Hpend; exact Hne|].
  rewrite Hpend in Hfin.
  pose proof (suffix_head n 0 Hascii' Hcaret' Hn ltac:(lia) ltac:(lia)) as Hhead.
  revert Hne Hfin Hhead. generalize (suffix c n 0 0) as text.
  intros text Hne Hfin Hhead.
  unfold parse_class. destruct text as [|t0 tl]; [contradiction|].
  cbn [head] in Hhead. destruct (Z.eqb_spec t0 ch_caret) as [->|_]; [congruence|].
  unfold finish in Hfin.
  destruct (AddClass_loop (t0 :: tl) Class.new 0 false) as [c'|]; [|discriminate].
  destruct (last (t0 :: tl)) as [z|]; [|discriminate].
  injection Hfin as ->. f_equal.
  apply class_ext; [exact Hwf1|exact Hwf|].
  intros x Hx. rewrite Hspec, has_new by lia.
  destruct (Z.leb_spec (0 - 0) x); [reflexivity|lia].
Qed.

Lemma reads_back_parse :
  reads_back c = true -> parse_class (Class.String c) = Ok c.
Proof.
  intros H. rewrite String_suffix. apply (reads_back_suffix 256 eq_refl H).
Qed.

End ReadBackTop.

(** ** Grammar nodes *)

Inductive NodeType : Type :=
| TypeUnknown | TypeRule | TypeVariable | TypeName | TypeDot | TypeCharacter
| TypeString | TypeClass | TypePredicate | TypeCommit | TypeBegin | TypeEnd
| TypeAction | TypeAlternate | TypeUnorderedAlternate | TypeSequence
| TypePeekFor | TypePeekNot | TypeQuery | TypeStar | TypePlus | TypeNil
| TypeLast.

#[global] Instance NodeType_eq_dec : EqDecision NodeType.
Proof. solve_decision. Defined.

(** A [*characterClass]: nil, the shared [emptyString] marker (compared by
    identity in the optimizer), or any other array. *)
Inductive classRef : Type :=
| ClassNil
| ClassEmptyString
| ClassPtr (c : Class.t).

#[global] Instance classRef_eq_dec : EqDecision classRef.
Proof. solve_decision. Defined.

(** The array behind a class pointer; [emptyString] is all zero. *)
Definition deref_class (r : classRef) : result Class.t :=
  match r with
  | ClassNil => Panic NilDereference
  | ClassEmptyString => Ok Class.new
  | ClassPtr c => Ok c
  end.

(** A [*variable] is named by the id of the rule that owns it and its name;
    the record itself (name, offset) lives in the rule's [variables]. *)
Definition varRef : Type := Z * string.

(** struct rule; a nil [expression] is [GoNil]; [variables] lists the map
    entries (name, offset) in the order they were created. *)
Record rule_ (N : Type) : Type := mkRule {
  rule_name : string;
  rule_id : Z;
  rule_expression : N;
  rule_hasActions : bool;
  rule_variables : list (string * Z)
}.
Arguments mkRule {N}.
Arguments rule_name {N}.
Arguments rule_id {N}.
Arguments rule_expression {N}.
Arguments rule_hasActions {N}.
Arguments rule_variables {N}.

(** struct action; [act_rule] is the id of the rule pointed to. *)
Record action : Type := mkAction {
  act_text : string;
  act_id : Z;
  act_rule : Z
}.

(** The values of the interface Node. *)
#[warnings="-register-all"]
Inductive Node : Type :=
| GoNil                                                   (* nil *)
| Rule (r : rule_ Node)                                   (* *rule *)
| Name (text : string) (varp : option varRef)             (* *name *)
| Token (ty : NodeType) (text : string) (class : classRef) (* *token *)
| Action (a : action)                                     (* *action *)
| NodeList (ty : NodeType) (items : list Node).           (* *nodeList *)

Abbreviation rule := (rule_ Node).

(** &rule{...} with the remaining fields zero. *)
Definition new_rule (name : string) (id : Z) : rule := mkRule name id GoNil false [].

Definition nilNode : Node := Token TypeNil "<nil>" ClassNil.
Definition dot : Node := Token TypeDot "." ClassNil.
Definition commit : Node := Token TypeCommit "commit" ClassNil.
Definition begin_ : Node := Token TypeBegin "<" ClassNil.
Definition end_ : Node := Token TypeEnd ">" ClassNil.

(** node.GetType(); a method call on the nil interface panics. *)
Definition GetType (n : Node) : result NodeType :=
  match n with
  | GoNil => Panic NilDereference
  | Rule _ => Ok TypeRule
  | Name _ _ => Ok TypeName
  | Token ty _ _ => Ok ty
  | Action _ => Ok TypeAction
  | NodeList ty _ => Ok ty
  end.

(** rule.GetExpression() *)
Definition GetExpression (r : rule) : Node :=
  match rule_expression r with
  | GoNil => nilNode
  | e => e
  end.

Definition is_nilNode (n : Node) : bool :=
  match n with
  | Token TypeNil _ _ => true
  | _ => false
  end.

(** rule.goString(): every minus becomes an underscore. *)
Fixpoint goString_of (s : string) : string :=
  match s with
  | EmptyString => EmptyString
  | String a s' =>
      String (if Ascii.eqb a "-"%char then "_"%char else a) (goString_of s')
  end.

Definition goString (r : rule) : string := goString_of (rule_name r).

(** ** The tree *)

(** The values of [t.rules]: the anonymous [&rule{}] that AddName stores, or
    a pointer to a rule of the ordered list, named by its id. *)
Inductive ruleRef : Type :=
| RuleAnon
| RulePtr (id : Z).

Record Tree : Type := mkTree {
  rules : gmap string ruleRef;
  rulesCount : gmap string Z;
  ruleId : Z;
  varp : option varRef;
  headers : list string;
  trailers : list string;
  ruleList : list rule;              (* the embedded list.List *)
  Actions : list action;
  classes : gmap string Class.t;
  defines : gmap string string;
  switchExcl : gset string;
  stack : list Node;                 (* [1024]Node *)
  top : Z;
  inline : bool;
  _switch : bool
}.

Definition New (inline _switch : bool) : Tree :=
  {| rules := ∅;
     rulesCount := ∅;
     ruleId := 0;
     varp := None;
     headers := [];
     trailers := [];
     ruleList := [];
     Actions := [];
     classes := ∅;
     defines := <["package" := ""]> (<["Peg" := "yyParser"]>
                (<["userstate" := ""]> (<["yystype" := "yyStype"]> ∅)));
     switchExcl := ∅;
     stack := replicate 1024 GoNil;
     top := 0;
     inline := inline;
     _switch := _switch |}.

(** Functional field updates. *)
Definition set_stack (st : list Node) (tp : Z) (t : Tree) : Tree :=
  mkTree (rules t) (rulesCount t) (ruleId t) (varp t) (headers t) (trailers t)
         (ruleList t) (Actions t) (classes t) (defines t) (switchExcl t)
         st tp (inline t) (_switch t).
Definition set_top (tp : Z) (t : Tree) : Tree := set_stack (stack t) tp t.
Definition set_rules (m : gmap string ruleRef) (t : Tree) : Tree :=
  mkTree m (rulesCount t) (ruleId t) (varp t) (headers t) (trailers t)
         (ruleList t) (Actions t) (classes t) (defines t) (switchExcl t)
         (stack t) (top t) (inline t) (_switch t).
Definition set_rulesCount (m : gmap string Z) (t : Tree) : Tree :=
  mkTree (rules t) m (ruleId t) (varp t) (headers t) (trailers t)
         (ruleList t) (Actions t) (classes t) (defines t) (switchExcl t)
         (stack t) (top t) (inline t) (_switch t).
Definition set_ruleId (i : Z) (t : Tree) : Tree :=
  mkTree (rules t) (rulesCount t) i (varp t) (headers t) (trailers t)
         (ruleList t) (Actions t) (classes t) (defines t) (switchExcl t)
         (stack t) (top t) (inline t) (_switch t).
Definition set_varp (v : option varRef) (t : Tree) : Tree :=
  mkTree (rules t) (rulesCount t) (ruleId t) v (headers t) (trailers t)
         (ruleList t) (Actions t) (classes t) (defines t) (switchExcl t)
         (stack t) (top t) (inline t) (_switch t).
Definition set_headers (h : list string) (t : Tree) : Tree :=
  mkTree (rules t) (rulesCount t) (ruleId t) (varp t) h (trailers t)
         (ruleList t) (Actions t) (classes t) (defines t) (switchExcl t)
         (stack t) (top t) (inline t) (_switch t).
Definition set_trailers (h : list string) (t : Tree) : Tree :=
  mkTree (rules t) (rulesCount t) (ruleId t) (varp t) (headers t) h
         (ruleList t) (Actions t) (classes t) (defines t) (switchExcl t)
         (stack t) (top t) (inline t) (_switch t).
Definition set_ruleList (l : list rule) (t : Tree) : Tree :=
  mkTree (rules t) (rulesCount t) (ruleId t) (varp t) (headers t) (trailers t)
         l (Actions t) (classes t) (defines t) (switchExcl t)
         (stack t) (top t) (inline t) (_switch t).
Definition set_Actions (a : list action) (t : Tree) : Tree :=
  mkTree (rules t) (rulesCount t) (ruleId t) (varp t) (headers t) (trailers t)
         (ruleList t) a (classes t) (defines t) (switchExcl t)
         (stack t) (top t) (inline t) (_switch t).
Definition set_classes (m : gmap string Class.t) (t : Tree) : Tree :=
  mkTree (rules t) (rulesCount t) (ruleId t) (varp t) (headers t) (trailers t)
         (ruleList t) (Actions t) m (defines t) (switchExcl t)
         (stack t) (top t) (inline t) (_switch t).
Definition set_defines (m : gmap string string) (t : Tree) : Tree :=
  mkTree (rules t) (rulesCount t) (ruleId t) (varp t) (headers t) (trailers t)
         (ruleList t) (Actions t) (classes t) m (switchExcl t)
         (stack t) (top t) (inline t) (_switch t).
Definition set_switchExcl (m : gset string) (t : Tree) : Tree :=
  mkTree (rules t) (rulesCount t) (ruleId t) (varp t) (headers t) (trailers t)
         (ruleList t) (Actions t) (classes t) (defines t) m
         (stack t) (top t) (inline t) (_switch t).

(** ** The builder API *)

(** t.stack[i] with the bounds check of a Go array of 1024 slots. *)
Definition stack_get (t : Tree) (i : Z) : result Node :=
  if (0 <=? i) && (i <? 1024) then
    match stack t !! Z.to_nat i with
    | Some n => Ok n
    | None => Panic StackIndex
    end
  else Panic StackIndex.

Definition push (n : Node) (t : Tree) : result Tree :=
  let top' := top t + 1 in
  if (0 <=? top') && (top' <? 1024) then
    Ok (set_stack (<[Z.to_nat top' := n]> (stack t)) top' t)
  else Panic StackIndex.

Definition pop (t : Tree) : result (Node * Tree) :=
  n ← stack_get t (top t);
  Ok (n, set_top (top t - 1) t).

(** t.stack[1].( *rule ) *)
Definition currentRule (t : Tree) : result rule :=
  n ← stack_get t 1;
  match n with
  | Rule r => Ok r
  | _ => Panic TypeAssertion
  end.

(** Writing through the pointer returned by currentRule. *)
Definition set_currentRule (r : rule) (t : Tree) : Tree :=
  set_stack (<[1%nat := Rule r]> (stack t)) (top t) t.

Definition AddRule (name : string) (t : Tree) : result Tree :=
  t1 ← push (Rule (new_rule name (ruleId t))) t;
  Ok (set_ruleId (ruleId t1 + 1) t1).

(** The rule, with its expression, goes to the end of the list.  The list
    holds the rule as it is at this call.  In Go the slot of the stack
    still points to the same rule, so that an AddVariable or AddAction
    that came after this call and before the next AddRule would still
    change it; what is proved below about the variables and the actions
    of a rule does not cover such sequences of calls. *)
Definition AddExpression (t : Tree) : result Tree :=
  '(expression, t1) ← pop t;
  '(n, t2) ← pop t1;
  match n with
  | Rule r =>
      let r' := mkRule (rule_name r) (rule_id r) expression
                       (rule_hasActions r) (rule_variables r) in
      Ok (set_ruleList (ruleList t2 ++ [r']) t2)
  | _ => Panic TypeAssertion
  end.

Definition AddHeader (text : string) (t : Tree) : result Tree :=
  Ok (set_headers (headers t ++ [text]) t).

Definition AddTrailer (text : string) (t : Tree) : result Tree :=
  Ok (set_trailers (trailers t ++ [text]) t).

Definition lookup_var (vars : list (string * Z)) (text : string) : option Z :=
  snd <$> find (fun p => String.eqb (fst p) text) vars.

Definition AddVariable (text : string) (t : Tree) : result Tree :=
  r ← currentRule t;
  let vars :=
    match lookup_var (rule_variables r) text with
    | Some _ => rule_variables r
    | None => rule_variables r ++ [(text, 0)]
    end in
  let r' := mkRule (rule_name r) (rule_id r) (rule_expression r)
                   (rule_hasActions r) vars in
  Ok (set_varp (Some (rule_id r, text)) (set_currentRule r' t)).

Definition AddName (text : string) (t : Tree) : result Tree :=
  let t1 := set_rules (<[text := RuleAnon]> (rules t)) t in
  t2 ← push (Name text (varp t1)) t1;
  Ok (set_varp None t2).

Definition AddDot (t : Tree) : result Tree := push dot t.

Definition AddString (text : string) (t : Tree) : result Tree :=
  let length := String.length text in
  if Nat.eqb length 1 ||
     (Nat.eqb length 2 &&
      match text with String a _ => Ascii.eqb a "\"%char | _ => false end)
  then push (Token TypeCharacter text ClassNil) t
  else push (Token TypeString text ClassNil) t.

Definition AddClass (text : string) (t : Tree) : result Tree :=
  t1 ← push (Token TypeClass text ClassNil) t;
  match classes t1 !! text with
  | Some _ => Ok t1
  | None =>
      c ← parse_class (bytes_of_string text);
      Ok (set_classes (<[text := c]> (classes t1)) t1)
  end.

Definition AddPredicate (text : string) (t : Tree) : result Tree :=
  push (Token TypePredicate text ClassNil) t.
Definition AddCommit (t : Tree) : result Tree := push commit t.
Definition AddBegin (t : Tree) : result Tree := push begin_ t.
Definition AddEnd (t : Tree) : result Tree := push end_ t.
Definition AddNil (t : Tree) : result Tree := push nilNode t.

(** The loop of AddAction that overwrites each pair of dollars by yy; after
    a replacement at i the loop goes on at i+1, where it now finds a y. *)
Fixpoint rewrite_dollars (b : string) : string :=
  match b with
  | String a ((String a' rest) as tl) =>
      if Ascii.eqb a "$"%char && Ascii.eqb a' "$"%char
      then String "y"%char (String "y"%char (rewrite_dollars rest))
      else String a (rewrite_dollars tl)
  | _ => b
  end.

Definition AddAction (text : string) (t : Tree) : result Tree :=
  let b := rewrite_dollars text in
  r ← currentRule t;
  let a := mkAction b (Z.of_nat (length (Actions t))) (rule_id r) in
  let r' := mkRule (rule_name r) (rule_id r) (rule_expression r) true
                   (rule_variables r) in
  let t1 := set_currentRule r' t in
  push (Action a) (set_Actions (Actions t1 ++ [a]) t1).

Definition Define (name text : string) (t : Tree) : result Tree :=
  match defines t !! name with
  | Some _ => Ok (set_defines (<[name := text]> (defines t)) t)
  | None => Ok t
  end.

Definition SwitchExclude (rule : string) (t : Tree) : result Tree :=
  Ok (set_switchExcl ({[rule]} ∪ switchExcl t) t).

Definition addList (listType : NodeType) (t : Tree) : result Tree :=
  '(a, t1) ← pop t;
  '(b, t2) ← pop t1;
  ty ← GetType b;
  if decide (ty = listType) then
    match b with
    | NodeList _ items => push (NodeList listType (items ++ [a])) t2
    | _ => Panic TypeAssertion
    end
  else push (NodeList listType [b; a]) t2.

Definition AddAlternate : Tree -> result Tree := addList TypeAlternate.
Definition AddSequence : Tree -> result Tree := addList TypeSequence.

Definition addFix (fixType : NodeType) (t : Tree) : result Tree :=
  '(n, t1) ← pop t;
  push (NodeList fixType [n]) t1.

Definition AddPeekFor : Tree -> result Tree := addFix TypePeekFor.
Definition AddPeekNot : Tree -> result Tree := addFix TypePeekNot.
Definition AddQuery : Tree -> result Tree := addFix TypeQuery.
Definition AddStar : Tree -> result Tree := addFix TypeStar.
Definition AddPlus : Tree -> result Tree := addFix TypePlus.

(** The calls a front end can make, and their execution in sequence. *)
Inductive call : Type :=
| CAddRule (name : string) | CAddExpression
| CAddHeader (text : string) | CAddTrailer (text : string)
| CAddVariable (text : string) | CAddName (text : string)
| CAddDot | CAddString (text : string) | CAddClass (text : string)
| CAddPredicate (text : string) | CAddCommit | CAddBegin | CAddEnd | CAddNil
| CAddAction (text : string) | CDefine (name text : string)
| CSwitchExclude (rule : string)
| CAddAlternate | CAddSequence
| CAddPeekFor | CAddPeekNot | CAddQuery | CAddStar | CAddPlus.

Definition exec (c : call) (t : Tree) : result Tree :=
  match c with
  | CAddRule name => AddRule name t
  | CAddExpression => AddExpression t
  | CAddHeader text => AddHeader text t
  | CAddTrailer text => AddTrailer text t
  | CAddVariable text => AddVariable text t
  | CAddName text => AddName text t
  | CAddDot => AddDot t
  | CAddString text => AddString text t
  | CAddClass text => AddClass text t
  | CAddPredicate text => AddPredicate text t
  | CAddCommit => AddCommit t
  | CAddBegin => AddBegin t
  | CAddEnd => AddEnd t
  | CAddNil => AddNil t
  | CAddAction text => AddAction text t
  | CDefine name text => Define name text t
  | CSwitchExclude rule => SwitchExclude rule t
  | CAddAlternate => AddAlternate t
  | CAddSequence => AddSequence t
  | CAddPeekFor => AddPeekFor t
  | CAddPeekNot => AddPeekNot t
  | CAddQuery => AddQuery t
  | CAddStar => AddStar t
  | CAddPlus => AddPlus t
  end.

Fixpoint run (cs : list call) (t : Tree) : result Tree :=
  match cs with
  | [] => Ok t
  | c :: cs' => t' ← exec c t; run cs' t'
  end.

(** ** The width of the action field of a thunk *)

(** [for length := len(t.Actions); length != 0; length >>= 1 { bits++ }];
    a Go int has 64 bits, so 64 rounds are enough. *)
Fixpoint count_bits (fuel : nat) (length bits : Z) : Z :=
  match fuel with
  | O => bits
  | S fuel' =>
      if length =? 0 then bits
      else count_bits fuel' (Z.shiftr length 1) (bits + 1)
  end.

(** The switch that rounds [bits] up. *)
Definition round_bits (bits : Z) : Z :=
  if bits <? 8 then 8
  else if bits <? 16 then 16
  else if bits <? 32 then 32
  else if bits <? 64 then 64
  else bits.

Definition action_bits (nactions : Z) : Z := round_bits (count_bits 64 nactions 0).

(** The spec's words: the smallest of 8, 16, 32, 64 whose unsigned range
    holds the number. *)
Definition smallest_uint_width (n : Z) : Z :=
  if n <? 2 ^ 8 then 8
  else if n <? 2 ^ 16 then 16
  else if n <? 2 ^ 32 then 32
  else 64.

Lemma count_bits_zero (fuel : nat) (b : Z) : count_bits fuel 0 b = b.
Proof. destruct fuel; reflexivity. Qed.

Lemma count_bits_log2 (fuel : nat) (n b : Z) :
  0 < n < 2 ^ Z.of_nat fuel -> count_bits fuel n b = b + Z.log2 n + 1.
Proof.
  revert n b. induction fuel as [|fuel IH]; intros n b Hn.
  - change (2 ^ Z.of_nat 0) with 1 in Hn. lia.
  - cbn [count_bits]. destruct (Z.eqb_spec n 0) as [->|_]; [lia|].
    destruct (Z.eq_dec n 1) as [->|Hn1].
    + change (Z.shiftr 1 1) with 0. rewrite count_bits_zero.
      change (Z.log2 1) with 0. lia.
    + assert (Hlog : 1 <= Z.log2 n).
      { change 1 with (Z.log2 2). apply Z.log2_le_mono. lia. }
      assert (Hhalf : 0 < Z.shiftr n 1 < 2 ^ Z.of_nat fuel).
      { rewrite Z.shiftr_div_pow2 by lia. change (2 ^ 1) with 2.
        rewrite Nat2Z.inj_succ, Z.pow_succ_r in Hn by lia.
        split; [apply Z.div_str_pos; lia|apply Z.div_lt_upper_bound; lia]. }
      rewrite IH by exact Hhalf.
      rewrite Z.log2_shiftr by lia. lia.
Qed.

Lemma action_bits_cases (n : Z) :
  0 < n < 2 ^ 63 ->
  action_bits n =
    if n <? 2 ^ 7 then 8
    else if n <? 2 ^ 15 then 16
    else if n <? 2 ^ 31 then 32
    else 64.
Proof.
  intros Hn. unfold action_bits.
  rewrite count_bits_log2 by (change (2 ^ Z.of_nat 64) with (2 * 2 ^ 63); lia).
  unfold round_bits.
  pose proof (Z.log2_lt_pow2 n 7 ltac:(lia)) as H7.
  pose proof (Z.log2_lt_pow2 n 15 ltac:(lia)) as H15.
  pose proof (Z.log2_lt_pow2 n 31 ltac:(lia)) as H31.
  pose proof (Z.log2_lt_pow2 n 63 ltac:(lia)) as H63.
  repeat match goal with
         | |- context [?a <? ?b] => destruct (Z.ltb_spec a b)
         end; try reflexivity; lia.
Qed.

(** ** Directives *)

Definition default_defines : gmap string string :=
  <["package" := ""]> (<["Peg" := "yyParser"]>
  (<["userstate" := ""]> (<["yystype" := "yyStype"]> ∅))).

(** The directive names New registers. *)
Definition registered (name : string) : bool :=
  String.eqb name "package" || String.eqb name "Peg" ||
  String.eqb name "userstate" || String.eqb name "yystype".

Definition is_define (c : call) : bool :=
  match c with
  | CDefine _ _ => true
  | _ => false
  end.

(** Calls that leave the four registered directives alone. *)
Definition keeps_directives (c : call) : bool :=
  match c with
  | CDefine name _ => negb (registered name)
  | _ => true
  end.

Ltac unfold_calls :=
  unfold exec, AddRule, AddExpression, AddHeader, AddTrailer, AddVariable,
    AddName, AddDot, AddString, AddClass, AddPredicate, AddCommit, AddBegin,
    AddEnd, AddNil, AddAction, Define, SwitchExclude, AddAlternate,
    AddSequence, AddPeekFor, AddPeekNot, AddQuery, AddStar, AddPlus,
    addList, addFix, currentRule, set_currentRule, pop, push, stack_get in *;
  unfold mbind, result_bind in *.

Lemma defines_dom_registered (m : gmap string string) :
  dom m = dom default_defines ->
  forall name, is_Some (m !! name) <-> registered name = true.
Proof.
  intros Hdom name. rewrite <- elem_of_dom, Hdom. unfold default_defines, registered.
  rewrite !dom_insert_L, dom_empty_L.
  rewrite !orb_true_iff, !String.eqb_eq. set_solver.
Qed.

Lemma exec_defines (c : call) (t t' : Tree) :
  exec c t = Ok t' ->
  match c with
  | CDefine name text =>
      defines t' = if decide (is_Some (defines t !! name))
                   then <[name := text]> (defines t) else defines t
  | _ => defines t' = defines t
  end.
Proof.
  intros H. destruct c; unfold_calls; repeat case_match; simplify_eq;
    cbn in *; try done; exfalso; eauto.
Qed.

Lemma exec_defines_dom (c : call) (t t' : Tree) :
  exec c t = Ok t' -> dom (defines t') = dom (defines t).
Proof.
  intros H. pose proof (exec_defines c t t' H) as Hd.
  destruct c; try (rewrite Hd; reflexivity).
  rewrite Hd. case_decide as Hs; [|reflexivity].
  rewrite dom_insert_L. apply elem_of_dom in Hs. set_solver.
Qed.

Lemma run_defines_dom (cs : list call) (t t' : Tree) :
  run cs t = Ok t' -> dom (defines t') = dom (defines t).
Proof.
  revert t. induction cs as [|c cs IH]; intros t H; cbn in H.
  - by simplify_eq.
  - unfold mbind, result_bind in H. destruct (exec c t) as [t1| |] eqn:He; try done.
    rewrite (IH t1 H). by eapply exec_defines_dom.
Qed.

Lemma run_keeps_defines (cs : list call) (t t' : Tree) :
  dom (defines t) = dom default_defines ->
  forallb keeps_directives cs = true ->
  run cs t = Ok t' -> defines t' = defines t.
Proof.
  revert t. induction cs as [|c cs IH]; intros t Hdom Hk H; cbn in H.
  - by simplify_eq.
  - cbn in Hk. apply andb_true_iff in Hk as [Hc Hcs].
    unfold mbind, result_bind in H. destruct (exec c t) as [t1| |] eqn:He; try done.
    assert (Hsame : defines t1 = defines t).
    { pose proof (exec_defines c t t1 He) as Hd.
      destruct c; try exact Hd. rewrite Hd. case_decide as Hs; [|reflexivity].
      apply (defines_dom_registered _ Hdom) in Hs. cbn in Hc.
      rewrite Hs in Hc. discriminate. }
    rewrite (IH t1); [exact Hsame| rewrite Hsame; exact Hdom |exact Hcs|exact H].
Qed.

(** ** The node stack *)

(** The change of [t.top] a call makes when it returns. *)
Definition delta (c : call) : Z :=
  match c with
  | CAddRule _ | CAddName _ | CAddDot | CAddString _ | CAddClass _
  | CAddPredicate _ | CAddCommit | CAddBegin | CAddEnd | CAddNil
  | CAddAction _ => 1
  | CAddExpression => -2
  | CAddAlternate | CAddSequence => -1
  | _ => 0
  end.

(** The number of pending nodes stays within 0 .. 1023 after every call. *)
Fixpoint depths_ok (cs : list call) (d : Z) : bool :=
  match cs with
  | [] => true
  | c :: cs' =>
      let d' := d + delta c in
      (0 <=? d') && (d' <=? 1023) && depths_ok cs' d'
  end.

(** Calls whose first access to the stack is a push. *)
Definition pushes_first (c : call) : bool :=
  match c with
  | CAddRule _ | CAddName _ | CAddDot | CAddString _ | CAddClass _
  | CAddPredicate _ | CAddCommit | CAddBegin | CAddEnd | CAddNil => true
  | _ => false
  end.

Definition stack_ok (t : Tree) : Prop :=
  length (stack t) = 1024%nat /\ 0 <= top t <= 1023.

Ltac bool_to_Z :=
  repeat match goal with
    | H : _ && _ = true |- _ => apply andb_true_iff in H as [? ?]
    | H : _ && _ = false |- _ => apply andb_false_iff in H as [?|?]
    | H : (_ <=? _) = true |- _ => apply Z.leb_le in H
    | H : (_ <=? _) = false |- _ => apply Z.leb_gt in H
    | H : (_ <? _) = true |- _ => apply Z.ltb_lt in H
    | H : (_ <? _) = false |- _ => apply Z.ltb_ge in H
    | H : _ !! _ = None |- _ => apply lookup_ge_None in H
    end.

Lemma bind_Ok {A B : Type} (a : A) (f : A -> result B) : Ok a ≫= f = f a.
Proof. reflexivity. Qed.

Lemma pop_eq (t : Tree) :
  stack_ok t -> exists n, pop t = Ok (n, set_top (top t - 1) t).
Proof.
  intros [Hlen Htop]. unfold pop, stack_get.
  destruct (Z.leb_spec 0 (top t)); [|lia].
  destruct (Z.ltb_spec (top t) 1024); [|lia]. cbn [andb].
  destruct (lookup_lt_is_Some_2 (stack t) (Z.to_nat (top t))) as [n Hn]; [lia|].
  exists n. rewrite Hn. reflexivity.
Qed.

Lemma push_eq (n : Node) (t : Tree) :
  -1 <= top t <= 1022 ->
  push n t = Ok (set_stack (<[Z.to_nat (top t + 1) := n]> (stack t)) (top t + 1) t).
Proof.
  intros Htop. unfold push.
  destruct (Z.leb_spec 0 (top t + 1)); [|lia].
  destruct (Z.ltb_spec (top t + 1) 1024); [|lia]. reflexivity.
Qed.

Lemma currentRule_cases (t : Tree) :
  length (stack t) = 1024%nat ->
  (exists r, currentRule t = Ok r) \/ currentRule t = Panic TypeAssertion.
Proof.
  intros Hlen. unfold currentRule, stack_get. cbn [Z.leb Z.ltb Z.compare andb Pos.compare Pos.compare_cont].
  destruct (lookup_lt_is_Some_2 (stack t) (Z.to_nat 1)) as [n Hn]; [lia|].
  rewrite Hn, bind_Ok. destruct n; eauto.
Qed.

(** What a call leaves behind: the array keeps its size and [top] moves by
    [d]; a panic is not an index into the stack. *)
Definition stack_post (t : Tree) (d : Z) (r : result Tree) : Prop :=
  match r with
  | Ok t' => length (stack t') = 1024%nat /\ top t' = top t + d
  | Panic p => p <> StackIndex
  | Diverge => True
  end.

Lemma push_post (n : Node) (t0 t : Tree) (d : Z) :
  length (stack t0) = 1024%nat -> length (stack t) = 1024%nat ->
  -1 <= top t <= 1022 -> top t + 1 = top t0 + d ->
  stack_post t0 d (push n t).
Proof.
  intros Hlen0 Hlen Htop Hd. rewrite push_eq by exact Htop.
  cbn. rewrite length_insert. split; [exact Hlen|exact Hd].
Qed.

Lemma addList_post (ty : NodeType) (t : Tree) :
  stack_ok t -> 0 <= top t - 1 -> stack_post t (-1) (addList ty t).
Proof.
  intros Hok Hd. pose proof Hok as [Hlen Htop]. unfold addList.
  destruct (pop_eq t Hok) as [a ->]. rewrite bind_Ok.
  destruct (pop_eq (set_top (top t - 1) t)) as [b ->]; [split; cbn; [exact Hlen|lia]|].
  rewrite bind_Ok. destruct b; cbn [GetType]; rewrite ?bind_Ok; try (cbn; congruence);
    repeat case_match; try (cbn; congruence);
    apply push_post; cbn; lia.
Qed.

Lemma addFix_post (ty : NodeType) (t : Tree) :
  stack_ok t -> stack_post t 0 (addFix ty t).
Proof.
  intros Hok. pose proof Hok as [Hlen Htop]. unfold addFix.
  destruct (pop_eq t Hok) as [a ->]. rewrite bind_Ok.
  apply push_post; cbn; lia.
Qed.

Lemma exec_post (c : call) (t : Tree) :
  stack_ok t -> 0 <= top t + delta c <= 1023 ->
  stack_post t (delta c) (exec c t).
Proof.
  intros Hok Hd. pose proof Hok as [Hlen Htop].
  destruct c; cbn [exec delta] in *;
    try (apply addList_post; [exact Hok|lia]);
    try (apply addFix_post; exact Hok);
    try (apply push_post; cbn; lia).
  - (* AddRule *)
    unfold AddRule. rewrite push_eq, bind_Ok by lia.
    cbn. rewrite length_insert. lia.
  - (* AddExpression *)
    unfold AddExpression.
    destruct (pop_eq t Hok) as [e ->]. rewrite bind_Ok.
    destruct (pop_eq (set_top (top t - 1) t)) as [n ->]; [split; cbn; [exact Hlen|lia]|].
    rewrite bind_Ok. destruct n; cbn; try congruence. lia.
  - (* AddHeader *) cbn. lia.
  - (* AddTrailer *) cbn. lia.
  - (* AddVariable *)
    unfold AddVariable.
    destruct (currentRule_cases t Hlen) as [[r ->]| ->]; [|cbn; congruence].
    rewrite bind_Ok. cbn. rewrite length_insert. lia.
  - (* AddName *)
    unfold AddName. rewrite push_eq, bind_Ok by (cbn; lia).
    cbn. rewrite length_insert. lia.
  - (* AddString *)
    unfold AddString. case_match; apply push_post; cbn; lia.
  - (* AddClass *)
    unfold AddClass. rewrite push_eq, bind_Ok by lia.
    cbn [classes set_stack]. case_match.
    + cbn. rewrite length_insert. lia.
    + destruct (parse_class _) as [cl|p|] eqn:Hp; cbn; rewrite ?length_insert; try lia.
      unfold parse_class in Hp. repeat case_match; simplify_eq; congruence.
  - (* AddAction *)
    unfold AddAction.
    destruct (currentRule_cases t Hlen) as [[r ->]| ->]; [|cbn; congruence].
    rewrite bind_Ok. apply push_post; cbn; rewrite ?length_insert; lia.
  - (* Define *)
    unfold Define. case_match; cbn; lia.
  - (* SwitchExclude *) cbn. lia.
Qed.

Lemma run_in_bounds (cs : list call) (t : Tree) :
  stack_ok t -> depths_ok cs (top t) = true -> run cs t <> Panic StackIndex.
Proof.
  revert t. induction cs as [|c cs IH]; intros t Hok Hd; [done|].
  cbn in Hd. apply andb_true_iff in Hd as [Hd Hrest].
  apply andb_true_iff in Hd as [Hlo Hhi].
  apply Z.leb_le in Hlo. apply Z.leb_le in Hhi.
  pose proof (exec_post c t Hok ltac:(lia)) as Hpost.
  cbn [run]. unfold mbind, result_bind.
  destruct (exec c t) as [t1|p|]; [|congruence|done].
  destruct Hpost as [Hlen Htop]. apply IH.
  - split; [exact Hlen|lia].
  - rewrite Htop. exact Hrest.
Qed.

Lemma run_app (cs1 cs2 : list call) (t : Tree) :
  run (cs1 ++ cs2) t = run cs1 t ≫= run cs2.
Proof.
  revert t. induction cs1 as [|c cs1 IH]; intros t; [done|].
  cbn [app run]. unfold mbind, result_bind.
  destruct (exec c t) as [t1| |]; [|done|done]. apply IH.
Qed.

Lemma push_full (n : Node) (t : Tree) : top t = 1023 -> push n t = Panic StackIndex.
Proof. intros H. unfold push. rewrite H. reflexivity. Qed.

Lemma exec_overflow (c : call) (t : Tree) :
  top t = 1023 -> pushes_first c = true -> exec c t = Panic StackIndex.
Proof.
  intros Htop Hc. destruct c; try discriminate Hc; unfold exec, AddRule, AddName,
    AddDot, AddString, AddClass, AddPredicate, AddCommit, AddBegin, AddEnd, AddNil;
    repeat case_match; rewrite ?push_full; try done.
Qed.

(** ** Compile: registering the rules *)

Definition nl : string := String (ascii_of_nat 10) EmptyString.

Definition find_rule (l : list rule) (id : Z) : option rule :=
  find (fun r => rule_id r =? id) l.

(** The rule behind a value of [t.rules]. *)
Definition deref (t : Tree) (p : ruleRef) : option rule :=
  match p with
  | RuleAnon => Some (new_rule "" 0)
  | RulePtr id => find_rule (ruleList t) id
  end.

(** t.rules[name], dereferenced; a missing key gives a nil pointer. *)
Definition rule_named (t : Tree) (name : string) : option rule :=
  rules t !! name ≫= deref t.

(** The first loop of Compile: every rule of the list is entered in the
    map under its name. *)
Definition register_rules (t : Tree) : Tree :=
  foldl (fun t r => set_rules (<[rule_name r := RulePtr (rule_id r)]> (rules t)) t)
        t (ruleList t).

(** nvar: the variables of all rules of the list. *)
Definition count_nvar (t : Tree) : Z :=
  foldl (fun n r => n + Z.of_nat (length (rule_variables r))) 0 (ruleList t).

(** The second loop: a name whose entry has an empty name gets a rule of
    its own, with the next id and no expression, at the end of the list.
    Go visits the keys in an unspecified order; the model takes the order
    of [map_to_list]. *)
Definition add_placeholder (t : Tree) (entry : string * ruleRef) : Tree :=
  let '(name, p) := entry in
  match deref t p with
  | Some r =>
      if String.eqb (rule_name r) "" then
        let r' := new_rule name (ruleId t) in
        set_ruleList (ruleList t ++ [r'])
          (set_rules (<[name := RulePtr (ruleId t)]> (rules t))
             (set_ruleId (ruleId t + 1) t))
      else t
  | None => t
  end.

Definition add_placeholders (t : Tree) : Tree :=
  foldl add_placeholder t (map_to_list (rules t)).

Definition prepare (t : Tree) : Tree := add_placeholders (register_rules t).

(** ** The left-recursion pass *)

Record crState : Type := mkCr {
  ruleReached : list bool;
  stderr : list string
}.

Definition recursion_message (name : string) : string :=
  "possible infinite left recursion in rule '" +:+ name +:+ "'" +:+ nl.

(** checkRecursion.  The fuel pays for entering a rule and for following a
    name; the children of a list are visited by structural recursion.
    [None]: the fuel ran out. *)
Fixpoint checkRecursion (t : Tree) (fuel : nat) (node : Node) (st : crState)
  : option (result (bool * crState)) :=
  match fuel with
  | O => None
  | S fuel' =>
      (fix go (node : Node) (st : crState) {struct node}
         : option (result (bool * crState)) :=
         match node with
         | GoNil => Some (Panic NilDereference)
         | Rule r =>
             let id := rule_id r in
             if (0 <=? id) && (id <? Z.of_nat (length (ruleReached st))) then
               match ruleReached st !! Z.to_nat id with
               | Some true =>
                   Some (Ok (false,
                             mkCr (ruleReached st)
                                  (stderr st ++ [recursion_message (rule_name r)])))
               | _ =>
                   let st1 := mkCr (<[Z.to_nat id := true]> (ruleReached st)) (stderr st) in
                   match checkRecursion t fuel' (GetExpression r) st1 with
                   | Some (Ok (consumes, st2)) =>
                       Some (Ok (consumes,
                                 mkCr (<[Z.to_nat id := false]> (ruleReached st2))
                                      (stderr st2)))
                   | other => other
                   end
               end
             else Some (Panic IndexOutOfRange)
         | Name text _ =>
             match rule_named t text with
             | Some r => checkRecursion t fuel' (Rule r) st
             | None => Some (Panic NilDereference)
             end
         | Token ty text _ =>
             match ty with
             | TypeCharacter | TypeString =>
                 Some (Ok (Nat.ltb 0 (String.length text), st))
             | TypeDot | TypeClass => Some (Ok (true, st))
             | TypeRule | TypeName | TypeAlternate | TypeSequence | TypePlus =>
                 Some (Panic TypeAssertion)
             | _ => Some (Ok (false, st))
             end
         | Action _ => Some (Ok (false, st))
         | NodeList ty items =>
             match ty with
             | TypeAlternate =>
                 (fix alternate (items : list Node) (st : crState) {struct items} :=
                    match items with
                    | [] => Some (Ok (true, st))
                    | element :: rest =>
                        match go element st with
                        | Some (Ok (true, st')) => alternate rest st'
                        | other => other
                        end
                    end) items st
             | TypeSequence =>
                 (fix sequence (items : list Node) (st : crState) {struct items} :=
                    match items with
                    | [] => Some (Ok (false, st))
                    | element :: rest =>
                        match go element st with
                        | Some (Ok (false, st')) => sequence rest st'
                        | other => other
                        end
                    end) items st
             | TypePlus =>
                 match items with
                 | [] => Some (Panic NilDereference)
                 | element :: _ => go element st
                 end
             | TypeCharacter | TypeString =>
                 (* len(node.String()) > 0: the text of a list starts with
                    a parenthesis; Front() of an empty list is nil *)
                 match items with
                 | [] => Some (Panic NilDereference)
                 | _ => Some (Ok (true, st))
                 end
             | TypeDot | TypeClass => Some (Ok (true, st))
             | TypeRule | TypeName => Some (Panic TypeAssertion)
             | _ => Some (Ok (false, st))
             end
         end) node st
  end.

(** The loop over [t.rules] (in the order of [map_to_list]); the result is
    what the pass wrote to the error stream. *)
Fixpoint check_rules (t : Tree) (fuel : nat) (names : list (string * ruleRef))
  (st : crState) : option (result crState) :=
  match names with
  | [] => Some (Ok st)
  | (_, p) :: rest =>
      match deref t p with
      | None => Some (Panic NilDereference)
      | Some r =>
          match checkRecursion t fuel (Rule r) st with
          | Some (Ok (_, st')) => check_rules t fuel rest st'
          | Some (Panic e) => Some (Panic e)
          | Some Diverge => Some Diverge
          | None => None
          end
      end
  end.

Definition recursion_pass (t : Tree) (fuel : nat) : option (result (list string)) :=
  match check_rules t fuel (map_to_list (rules t))
          (mkCr (replicate (size (rules t)) false) []) with
  | Some (Ok st) => Some (Ok (stderr st))
  | Some (Panic e) => Some (Panic e)
  | Some Diverge => Some Diverge
  | None => None
  end.

(** ** Left recursion *)

(** A token that takes a character when it matches: a character or a
    string whose text is not empty, the dot, a class; not a predicate, the
    commit, the marks of a capture or nil. *)
Definition token_consumes (ty : NodeType) (text : string) : bool :=
  match ty with
  | TypeCharacter | TypeString => Nat.ltb 0 (String.length text)
  | TypeDot | TypeClass => true
  | _ => false
  end.

(** The operators the check does not look into: &, !, ? and *. *)
Definition never_consumes (ty : NodeType) : bool :=
  match ty with
  | TypePeekFor | TypePeekNot | TypeQuery | TypeStar => true
  | _ => false
  end.

(** The operators with one operand. *)
Definition unary (ty : NodeType) : bool :=
  match ty with
  | TypePeekFor | TypePeekNot | TypeQuery | TypeStar | TypePlus => true
  | _ => false
  end.

(** *** The rules the claim speaks of *)

(** An expression that can match without taking a character. *)
Inductive nullable (t : Tree) : Node -> Prop :=
| nullable_token ty text class :
    token_consumes ty text = false -> nullable t (Token ty text class)
| nullable_action a : nullable t (Action a)
| nullable_operator ty items :
    never_consumes ty = true -> nullable t (NodeList ty items)
| nullable_plus x rest :
    nullable t x -> nullable t (NodeList TypePlus (x :: rest))
| nullable_sequence_nil : nullable t (NodeList TypeSequence [])
| nullable_sequence_cons x rest :
    nullable t x -> nullable t (NodeList TypeSequence rest) ->
    nullable t (NodeList TypeSequence (x :: rest))
| nullable_alternate_here x rest :
    nullable t x -> nullable t (NodeList TypeAlternate (x :: rest))
| nullable_alternate_next x rest :
    nullable t (NodeList TypeAlternate rest) ->
    nullable t (NodeList TypeAlternate (x :: rest))
| nullable_name n v r :
    rule_named t n = Some r -> nullable t (GetExpression r) ->
    nullable t (Name n v).

(** The name [n] stands at the left of an expression: it is the
    expression, or stands at the left of the operand of an operator, of a
    branch of an alternation, or of an element of a sequence before which
    only elements stand that can match without taking a character. *)
Inductive at_left (t : Tree) : Node -> string -> Prop :=
| at_left_name n v : at_left t (Name n v) n
| at_left_operand ty x rest n :
    unary ty = true -> at_left t x n -> at_left t (NodeList ty (x :: rest)) n
| at_left_sequence_here x rest n :
    at_left t x n -> at_left t (NodeList TypeSequence (x :: rest)) n
| at_left_sequence_next x rest n :
    nullable t x -> at_left t (NodeList TypeSequence rest) n ->
    at_left t (NodeList TypeSequence (x :: rest)) n
| at_left_alternate_here x rest n :
    at_left t x n -> at_left t (NodeList TypeAlternate (x :: rest)) n
| at_left_alternate_next x rest n :
    at_left t (NodeList TypeAlternate rest) n ->
    at_left t (NodeList TypeAlternate (x :: rest)) n.

(** The definition of [a] has the name [b] at its left. *)
Definition refers_left (t : Tree) (a b : string) : Prop :=
  exists r, rule_named t a = Some r /\ at_left t (GetExpression r) b.

(** R = R α, directly or through names: from R, going from a rule to a
    name at the left of its definition, one comes back to R. *)
Definition left_recursive (t : Tree) (R : string) : Prop :=
  tc (refers_left t) R R.

(** *** The rules the check finds *)

(** What the check finds for an expression while the rules [entered] are
    being checked: whether it consumes.  A sequence consumes when one of
    its elements does and those before it do not; an alternation consumes
    when all its branches do; a plus is as its operand; the other operators
    do not consume; a name is as the definition of its rule, which must not
    be one of the rules entered. *)
Inductive consuming (t : Tree) : gset string -> Node -> bool -> Prop :=
| consuming_token entered ty text class :
    consuming t entered (Token ty text class) (token_consumes ty text)
| consuming_action entered a : consuming t entered (Action a) false
| consuming_operator entered ty items :
    never_consumes ty = true -> consuming t entered (NodeList ty items) false
| consuming_plus entered x rest b :
    consuming t entered x b -> consuming t entered (NodeList TypePlus (x :: rest)) b
| consuming_sequence_nil entered :
    consuming t entered (NodeList TypeSequence []) false
| consuming_sequence_here entered x rest :
    consuming t entered x true ->
    consuming t entered (NodeList TypeSequence (x :: rest)) true
| consuming_sequence_next entered x rest b :
    consuming t entered x false ->
    consuming t entered (NodeList TypeSequence rest) b ->
    consuming t entered (NodeList TypeSequence (x :: rest)) b
| consuming_alternate_nil entered :
    consuming t entered (NodeList TypeAlternate []) true
| consuming_alternate_here entered x rest :
    consuming t entered x false ->
    consuming t entered (NodeList TypeAlternate (x :: rest)) false
| consuming_alternate_next entered x rest b :
    consuming t entered x true ->
    consuming t entered (NodeList TypeAlternate rest) b ->
    consuming t entered (NodeList TypeAlternate (x :: rest)) b
| consuming_name entered n v r b :
    n ∉ entered -> rule_named t n = Some r ->
    consuming t ({[n]} ∪ entered) (GetExpression r) b ->
    consuming t entered (Name n v) b.

(** The name [n] stands where the check comes to: it is the expression,
    or stands so in the operand of a plus, in the first element of a
    sequence or in an element before which all elements are found not to
    consume, in the first branch of an alternation or in a branch before
    which all branches are found to consume. *)
Inductive leftmost (t : Tree) : gset string -> Node -> string -> Prop :=
| leftmost_name entered n v : leftmost t entered (Name n v) n
| leftmost_plus entered x rest n :
    leftmost t entered x n -> leftmost t entered (NodeList TypePlus (x :: rest)) n
| leftmost_sequence_here entered x rest n :
    leftmost t entered x n ->
    leftmost t entered (NodeList TypeSequence (x :: rest)) n
| leftmost_sequence_next entered x rest n :
    consuming t entered x false ->
    leftmost t entered (NodeList TypeSequence rest) n ->
    leftmost t entered (NodeList TypeSequence (x :: rest)) n
| leftmost_alternate_here entered x rest n :
    leftmost t entered x n ->
    leftmost t entered (NodeList TypeAlternate (x :: rest)) n
| leftmost_alternate_next entered x rest n :
    consuming t entered x true ->
    leftmost t entered (NodeList TypeAlternate rest) n ->
    leftmost t entered (NodeList TypeAlternate (x :: rest)) n.

(** From the rule [a], entering no rule twice, the check comes back to R:
    the definition of [a] has R where the check comes to, or has there the
    name of a rule not entered from which the check comes back to R. *)
Inductive returns_to (t : Tree) (R : string) : gset string -> string -> Prop :=
| returns_now entered a r :
    a ∉ entered -> rule_named t a = Some r ->
    leftmost t ({[a]} ∪ entered) (GetExpression r) R ->
    returns_to t R entered a
| returns_later entered a r b :
    a ∉ entered -> rule_named t a = Some r ->
    leftmost t ({[a]} ∪ entered) (GetExpression r) b ->
    returns_to t R ({[a]} ∪ entered) b ->
    returns_to t R entered a.

(** The left-recursive rules the check finds. *)
Definition left_recursive_checked (t : Tree) (R : string) : Prop :=
  returns_to t R ∅ R.

(** Expressions the passes can walk without a panic: no nil child, no rule
    as a child, every name in the map, lists that are lists. *)
Fixpoint wf_node (t : Tree) (e : Node) : bool :=
  match e with
  | GoNil => false
  | Rule _ => false
  | Name n _ => bool_decide (is_Some (rule_named t n))
  | Token ty _ _ =>
      match ty with
      | TypeRule | TypeName | TypeAlternate | TypeSequence | TypePlus
      | TypeUnorderedAlternate | TypePeekFor | TypePeekNot | TypeQuery
      | TypeStar => false
      | _ => true
      end
  | Action _ => true
  | NodeList ty items =>
      match ty with
      | TypeAlternate | TypeSequence | TypeUnorderedAlternate | TypePeekFor
      | TypePeekNot | TypeQuery | TypeStar | TypePlus =>
          negb (Nat.eqb (length items) 0) && forallb (wf_node t) items
      | _ => false
      end
  end.

(** The rule under a key carries that name, its id indexes [ruleReached],
    and its expression is well formed. *)
Definition wf_entry (t : Tree) (entry : string * ruleRef) : bool :=
  match deref t (snd entry) with
  | Some r =>
      String.eqb (rule_name r) (fst entry) &&
      (0 <=? rule_id r) && (rule_id r <? Z.of_nat (size (rules t))) &&
      wf_node t (GetExpression r)
  | None => false
  end.

Definition entry_id (t : Tree) (entry : string * ruleRef) : Z :=
  match deref t (snd entry) with
  | Some r => rule_id r
  | None => -1
  end.

Definition wf_grammar (t : Tree) : bool :=
  forallb (wf_entry t) (map_to_list (rules t)) &&
  bool_decide (NoDup (entry_id t <$> map_to_list (rules t))).

(** Induction over nodes, with the hypothesis for every child. *)
Lemma Node_ind' (P : Node -> Prop)
  (HNil : P GoNil)
  (HRule : forall r, P (rule_expression r) -> P (Rule r))
  (HName : forall text varp, P (Name text varp))
  (HToken : forall ty text class, P (Token ty text class))
  (HAction : forall a, P (Action a))
  (HList : forall ty items, Forall P items -> P (NodeList ty items)) :
  forall n, P n.
Proof.
  fix IH 1. intros [|r|text varp|ty text class|a|ty items].
  - exact HNil.
  - apply HRule. destruct r as [nm i e h v]. cbn. apply IH.
  - apply HName.
  - apply HToken.
  - apply HAction.
  - apply HList. induction items as [|x items IHitems].
    + constructor.
    + constructor; [apply IH|exact IHitems].
Qed.

(** ** The left-recursion pass terminates and leaves the marks as they were *)

Fixpoint unreached (l : list bool) : nat :=
  match l with
  | [] => 0
  | b :: l' => ((if b then 0 else 1) + unreached l')%nat
  end.

Lemma unreached_mark (l : list bool) (i : nat) :
  l !! i = Some false -> S (unreached (<[i := true]> l)) = unreached l.
Proof.
  revert i. induction l as [|b l IH]; intros i Hi; [done|].
  destruct i as [|i]; cbn in Hi.
  - by simplify_eq.
  - specialize (IH i Hi). destruct b; cbn in *.
    + exact IH.
    + f_equal. exact IH.
Qed.

(** The equations of checkRecursion. *)
Lemma cr_rule (t : Tree) (f : nat) (r : rule) (st : crState) :
  checkRecursion t (S f) (Rule r) st =
  let id := rule_id r in
  if (0 <=? id) && (id <? Z.of_nat (length (ruleReached st))) then
    match ruleReached st !! Z.to_nat id with
    | Some true =>
        Some (Ok (false, mkCr (ruleReached st)
                              (stderr st ++ [recursion_message (rule_name r)])))
    | _ =>
        let st1 := mkCr (<[Z.to_nat id := true]> (ruleReached st)) (stderr st) in
        match checkRecursion t f (GetExpression r) st1 with
        | Some (Ok (consumes, st2)) =>
            Some (Ok (consumes, mkCr (<[Z.to_nat id := false]> (ruleReached st2))
                                     (stderr st2)))
        | other => other
        end
    end
  else Some (Panic IndexOutOfRange).
Proof. reflexivity. Qed.

Lemma cr_name (t : Tree) (f : nat) (n : string) (v : option varRef) (st : crState) :
  checkRecursion t (S f) (Name n v) st =
  match rule_named t n with
  | Some r => checkRecursion t f (Rule r) st
  | None => Some (Panic NilDereference)
  end.
Proof. reflexivity. Qed.

Lemma cr_alternate_cons (t : Tree) (f : nat) (x : Node) (rest : list Node) (st : crState) :
  checkRecursion t (S f) (NodeList TypeAlternate (x :: rest)) st =
  match checkRecursion t (S f) x st with
  | Some (Ok (true, st')) => checkRecursion t (S f) (NodeList TypeAlternate rest) st'
  | other => other
  end.
Proof. reflexivity. Qed.

Lemma cr_sequence_cons (t : Tree) (f : nat) (x : Node) (rest : list Node) (st : crState) :
  checkRecursion t (S f) (NodeList TypeSequence (x :: rest)) st =
  match checkRecursion t (S f) x st with
  | Some (Ok (false, st')) => checkRecursion t (S f) (NodeList TypeSequence rest) st'
  | other => other
  end.
Proof. reflexivity. Qed.

Lemma cr_plus_cons (t : Tree) (f : nat) (x : Node) (rest : list Node) (st : crState) :
  checkRecursion t (S f) (NodeList TypePlus (x :: rest)) st =
  checkRecursion t (S f) x st.
Proof. reflexivity. Qed.

(** A call returned, restored the marks and only added to the stream. *)
Definition cr_ok (res : option (result (bool * crState))) (st : crState) : Prop :=
  exists b st', res = Some (Ok (b, st')) /\
    ruleReached st' = ruleReached st /\
    exists extra, stderr st' = stderr st ++ extra.

Lemma cr_ok_refl (b : bool) (st : crState) : cr_ok (Some (Ok (b, st))) st.
Proof. exists b, st. split; [done|]. split; [done|]. exists []. by rewrite app_nil_r. Qed.

Section RecursionPass.

Variable t : Tree.
Hypothesis Hg : wf_grammar t = true.

Lemma entry_wf (n : string) (p : ruleRef) :
  rules t !! n = Some p ->
  exists r, deref t p = Some r /\ rule_name r = n /\
    0 <= rule_id r < Z.of_nat (size (rules t)) /\
    wf_node t (GetExpression r) = true.
Proof.
  intros Hn. unfold wf_grammar in Hg. apply andb_true_iff in Hg as [Hall _].
  rewrite forallb_forall in Hall.
  specialize (Hall (n, p)). unfold wf_entry in Hall. cbn [fst snd] in Hall.
  destruct (deref t p) as [r|].
  2:{ exfalso. apply diff_false_true, Hall, list_elem_of_In, elem_of_map_to_list, Hn. }
  exists r. split; [done|].
  assert (Hin : In (n, p) (map_to_list (rules t)))
    by (apply list_elem_of_In, elem_of_map_to_list, Hn).
  specialize (Hall Hin). rewrite !andb_true_iff in Hall.
  destruct Hall as [[[Hname Hlo] Hhi] Hnode].
  apply String.eqb_eq in Hname. apply Z.leb_le in Hlo. apply Z.ltb_lt in Hhi.
  auto.
Qed.

Lemma named_wf (n : string) (r : rule) :
  rule_named t n = Some r ->
  rule_name r = n /\ 0 <= rule_id r < Z.of_nat (size (rules t)) /\
  wf_node t (GetExpression r) = true.
Proof.
  unfold rule_named. intros H.
  destruct (rules t !! n) as [p|] eqn:Hp; [|done]. cbn in H.
  destruct (entry_wf n p Hp) as (r' & Hr' & Hrest). by simplify_eq.
Qed.

Definition rule_ok (r : rule) : Prop :=
  0 <= rule_id r < Z.of_nat (size (rules t)) /\
  wf_node t (GetExpression r) = true.

Definition state_ok (st : crState) : Prop :=
  length (ruleReached st) = size (rules t).

Lemma cr_ok_trans (res : option (result (bool * crState))) (st st' : crState) :
  ruleReached st' = ruleReached st ->
  (exists extra, stderr st' = stderr st ++ extra) ->
  cr_ok res st' -> cr_ok res st.
Proof.
  intros Hr [e1 He1] (b & st2 & Hres & Hr2 & e2 & He2).
  exists b, st2. split; [done|]. split; [congruence|].
  exists (e1 ++ e2). rewrite He2, He1, app_assoc. done.
Qed.

Lemma cr_total (fuel : nat) :
  (forall st r, (2 * unreached (ruleReached st) + 1 <= fuel)%nat ->
     rule_ok r -> state_ok st ->
     cr_ok (checkRecursion t fuel (Rule r) st) st) /\
  (forall e st, (2 * unreached (ruleReached st) + 2 <= fuel)%nat ->
     wf_node t e = true -> state_ok st ->
     cr_ok (checkRecursion t fuel e st) st).
Proof.
  induction fuel as [|f [IHrule IHexpr]]; [split; intros; lia|].
  assert (Hrule : forall st r, (2 * unreached (ruleReached st) + 1 <= S f)%nat ->
     rule_ok r -> state_ok st ->
     cr_ok (checkRecursion t (S f) (Rule r) st) st).
  { intros st r Hfuel [Hid Hexpr] Hst. rewrite cr_rule. cbn zeta.
    unfold state_ok in Hst. rewrite Hst.
    destruct (Z.leb_spec 0 (rule_id r)); [|lia].
    destruct (Z.ltb_spec (rule_id r) (Z.of_nat (size (rules t)))); [|lia].
    cbn [andb].
    destruct (lookup_lt_is_Some_2 (ruleReached st) (Z.to_nat (rule_id r)))
      as [b Hb]; [lia|]. rewrite Hb. destruct b.
    - eexists _, _. split; [done|]. split; [done|]. eauto.
    - pose proof (unreached_mark _ _ Hb) as Hu.
      set (st1 := mkCr (<[Z.to_nat (rule_id r) := true]> (ruleReached st)) (stderr st)).
      destruct (IHexpr (GetExpression r) st1) as (c & st2 & -> & Hr2 & extra & He2).
      { cbn. lia. }
      { exact Hexpr. }
      { unfold state_ok. cbn. rewrite length_insert. exact Hst. }
      eexists _, _. split; [done|]. cbn. split; [|eauto].
      rewrite Hr2. cbn. rewrite list_insert_insert_eq. by apply list_insert_id. }
  split; [exact Hrule|].
  intros e. induction e as [|r _|n v|ty text cl|a|ty items IH] using Node_ind';
    intros st Hfuel Hwf Hst; try discriminate Hwf.
  - (* a name *)
    cbn in Hwf. apply bool_decide_eq_true in Hwf as [r Hr].
    rewrite cr_name, Hr. destruct (named_wf n r Hr) as (_ & Hid & Hexpr).
    apply IHrule; [lia|by split|exact Hst].
  - (* a token *)
    destruct ty; try discriminate Hwf; apply cr_ok_refl.
  - apply cr_ok_refl.
  - (* a list *)
    assert (Hitems : forallb (wf_node t) items = true).
    { destruct ty; try discriminate Hwf; cbn in Hwf;
        by apply andb_true_iff in Hwf as [_ ?]. }
    assert (Hne : items <> []).
    { destruct ty; try discriminate Hwf; cbn in Hwf;
        apply andb_true_iff in Hwf as [Hn _]; by destruct items. }
    destruct ty; try discriminate Hwf; try apply cr_ok_refl.
    + (* alternation *)
      clear Hne Hwf. revert st Hfuel Hst.
      induction items as [|x rest IHrest]; intros st Hfuel Hst; [apply cr_ok_refl|].
      cbn in Hitems. apply andb_true_iff in Hitems as [Hx Hrest].
      apply Forall_cons in IH as [IHx IHr].
      rewrite cr_alternate_cons.
      destruct (IHx st Hfuel Hx Hst) as (b & st' & -> & Hr' & He').
      destruct b; [|by eexists _, _].
      eapply cr_ok_trans; [exact Hr'|exact He'|].
      apply IHrest; [exact IHr|exact Hrest|by rewrite Hr'|].
      unfold state_ok. by rewrite Hr'.
    + (* sequence *)
      clear Hne Hwf. revert st Hfuel Hst.
      induction items as [|x rest IHrest]; intros st Hfuel Hst; [apply cr_ok_refl|].
      cbn in Hitems. apply andb_true_iff in Hitems as [Hx Hrest].
      apply Forall_cons in IH as [IHx IHr].
      rewrite cr_sequence_cons.
      destruct (IHx st Hfuel Hx Hst) as (b & st' & -> & Hr' & He').
      destruct b; [by eexists _, _|].
      eapply cr_ok_trans; [exact Hr'|exact He'|].
      apply IHrest; [exact IHr|exact Hrest|by rewrite Hr'|].
      unfold state_ok. by rewrite Hr'.
    + (* plus *)
      destruct items as [|x rest]; [done|]. rewrite cr_plus_cons.
      cbn in Hitems. apply andb_true_iff in Hitems as [Hx _].
      apply Forall_cons in IH as [IHx _]. by apply IHx.
Qed.

Lemma cr_total_items (ty : NodeType) (items : list Node) (st : crState) (fuel : nat) :
  ty = TypeAlternate \/ ty = TypeSequence ->
  (2 * unreached (ruleReached st) + 2 <= fuel)%nat ->
  forallb (wf_node t) items = true -> state_ok st ->
  cr_ok (checkRecursion t fuel (NodeList ty items) st) st.
Proof.
  intros Hty Hfuel. destruct fuel as [|f]; [lia|]. revert st Hfuel.
  induction items as [|x rest IH]; intros st Hfuel Hitems Hst.
  - destruct Hty as [-> | ->]; apply cr_ok_refl.
  - cbn in Hitems. apply andb_true_iff in Hitems as [Hx Hrest].
    destruct (proj2 (cr_total (S f)) x st Hfuel Hx Hst) as (b & st' & Hres & Hr' & He').
    destruct Hty as [-> | ->].
    + rewrite cr_alternate_cons, Hres. destruct b; [|by eexists _, _].
      eapply cr_ok_trans; [exact Hr'|exact He'|].
      apply IH; [by rewrite Hr'|exact Hrest|]. unfold state_ok. by rewrite Hr'.
    + rewrite cr_sequence_cons, Hres. destruct b; [by eexists _, _|].
      eapply cr_ok_trans; [exact Hr'|exact He'|].
      apply IH; [by rewrite Hr'|exact Hrest|]. unfold state_ok. by rewrite Hr'.
Qed.

(** A call returned with the message [X] on the error stream. *)
Definition emits (fuel : nat) (node : Node) (st : crState) (X : string) : Prop :=
  exists b st', checkRecursion t fuel node st = Some (Ok (b, st')) /\
    ruleReached st' = ruleReached st /\ X ∈ stderr st'.

Lemma emits_then (res : option (result (bool * crState))) (st st' : crState) (X : string) :
  ruleReached st' = ruleReached st -> X ∈ stderr st' -> cr_ok res st' ->
  exists b st'', res = Some (Ok (b, st'')) /\
    ruleReached st'' = ruleReached st /\ X ∈ stderr st''.
Proof.
  intros Hr HX (b & st2 & Hres & Hr2 & extra & He2).
  exists b, st2. split; [done|]. split; [congruence|].
  rewrite He2. apply elem_of_app. by left.
Qed.

Definition mark (r : rule) (st : crState) : crState :=
  mkCr (<[Z.to_nat (rule_id r) := true]> (ruleReached st)) (stderr st).

Lemma emits_rule_step (r : rule) (st : crState) (f : nat) (X : string) :
  rule_ok r -> state_ok st ->
  ruleReached st !! Z.to_nat (rule_id r) = Some false ->
  emits f (GetExpression r) (mark r st) X -> emits (S f) (Rule r) st X.
Proof.
  intros [Hid _] Hst Hb (b & st2 & Hres & Hr2 & HX).
  unfold emits. rewrite cr_rule. cbn zeta. unfold state_ok in Hst. rewrite Hst.
  destruct (Z.leb_spec 0 (rule_id r)); [|lia].
  destruct (Z.ltb_spec (rule_id r) (Z.of_nat (size (rules t)))); [|lia].
  cbn [andb]. rewrite Hb. unfold mark in Hres. rewrite Hres.
  eexists _, _. split; [done|]. cbn. split; [|exact HX].
  rewrite Hr2. cbn. rewrite list_insert_insert_eq. by apply list_insert_id.
Qed.

Lemma emits_reached (r : rule) (st : crState) (f : nat) :
  rule_ok r -> state_ok st ->
  ruleReached st !! Z.to_nat (rule_id r) = Some true ->
  emits (S f) (Rule r) st (recursion_message (rule_name r)).
Proof.
  intros [Hid _] Hst Hb. unfold emits. rewrite cr_rule. cbn zeta.
  unfold state_ok in Hst. rewrite Hst.
  destruct (Z.leb_spec 0 (rule_id r)); [|lia].
  destruct (Z.ltb_spec (rule_id r) (Z.of_nat (size (rules t)))); [|lia].
  cbn [andb]. rewrite Hb. eexists _, _. split; [done|]. cbn. split; [done|].
  apply elem_of_app. right. by apply list_elem_of_singleton.
Qed.

(** Two names of the map with the same id are the same name. *)
Lemma NoDup_fmap_inj {A B : Type} (f : A -> B) (l : list A) (x y : A) :
  NoDup (f <$> l) -> x ∈ l -> y ∈ l -> f x = f y -> x = y.
Proof.
  induction l as [|z l IH]; intros Hnd Hx Hy Hf; [by apply elem_of_nil in Hx|].
  cbn in Hnd. apply NoDup_cons in Hnd as [Hz Hnd].
  apply elem_of_cons in Hx as [->|Hx]; apply elem_of_cons in Hy as [->|Hy].
  - done.
  - exfalso. apply Hz. rewrite Hf. by apply list_elem_of_fmap_2.
  - exfalso. apply Hz. rewrite <- Hf. by apply list_elem_of_fmap_2.
  - by apply IH.
Qed.

Lemma named_id_inj (a b : string) (ra rb : rule) :
  rule_named t a = Some ra -> rule_named t b = Some rb ->
  rule_id ra = rule_id rb -> a = b.
Proof.
  unfold rule_named. intros Ha Hb Hid.
  destruct (rules t !! a) as [pa|] eqn:Hpa; [|done].
  destruct (rules t !! b) as [pb|] eqn:Hpb; [|done]. cbn in Ha, Hb.
  unfold wf_grammar in Hg. apply andb_true_iff in Hg as [_ Hnd].
  apply bool_decide_eq_true in Hnd.
  assert (Heq : (a, pa) = (b, pb)); [|by simplify_eq].
  apply (NoDup_fmap_inj (entry_id t) _ _ _ Hnd).
  - by apply elem_of_map_to_list.
  - by apply elem_of_map_to_list.
  - unfold entry_id. cbn. by rewrite Ha, Hb.
Qed.

(** The rules that are marked are among the rules [entered]. *)
Definition marks_in (st : crState) (entered : gset string) : Prop :=
  forall n r, rule_named t n = Some r ->
    ruleReached st !! Z.to_nat (rule_id r) = Some true -> n ∈ entered.

Lemma marks_in_same (st st' : crState) (entered : gset string) :
  ruleReached st' = ruleReached st -> marks_in st entered -> marks_in st' entered.
Proof. intros Hr Hm n r Hn. rewrite Hr. by apply Hm. Qed.

Lemma marks_in_mark (st : crState) (entered : gset string) (a : string) (r : rule) :
  rule_named t a = Some r -> marks_in st entered ->
  marks_in (mark r st) ({[a]} ∪ entered).
Proof.
  intros Ha Hm n rn Hn Hb. unfold mark in Hb. cbn in Hb.
  destruct (decide (Z.to_nat (rule_id r) = Z.to_nat (rule_id rn))) as [Heq|Hne].
  - destruct (named_wf a r Ha) as (_ & Hid & _).
    destruct (named_wf n rn Hn) as (_ & Hidn & _).
    assert (rule_id r = rule_id rn) by lia.
    assert (a = n) by (eapply named_id_inj; eauto). set_solver.
  - rewrite list_lookup_insert_ne in Hb by done. specialize (Hm n rn Hn Hb). set_solver.
Qed.

Lemma unmarked (st : crState) (entered : gset string) (a : string) (r : rule) :
  state_ok st -> marks_in st entered -> a ∉ entered -> rule_named t a = Some r ->
  ruleReached st !! Z.to_nat (rule_id r) = Some false.
Proof.
  intros Hst Hm Ha Hr. destruct (named_wf a r Hr) as (_ & Hid & _).
  destruct (lookup_lt_is_Some_2 (ruleReached st) (Z.to_nat (rule_id r))) as [b Hb].
  { unfold state_ok in Hst. lia. }
  destruct b; [|done]. exfalso. apply Ha. by eapply Hm.
Qed.

(** What is found for an expression is what the check of it returns, and
    the check leaves the marks as they were. *)
Lemma consuming_sound (entered : gset string) (e : Node) (b : bool) :
  consuming t entered e b ->
  forall (fuel : nat) (st : crState),
    (2 * unreached (ruleReached st) + 2 <= fuel)%nat ->
    wf_node t e = true -> state_ok st -> marks_in st entered ->
    exists st', checkRecursion t fuel e st = Some (Ok (b, st')) /\
      ruleReached st' = ruleReached st.
Proof.
  induction 1 as [entered ty text class|entered a|entered ty items Hty
                 |entered x rest b Hx IHx
                 |entered|entered x rest Hx IHx|entered x rest b Hx IHx Hrest IHrest
                 |entered|entered x rest Hx IHx|entered x rest b Hx IHx Hrest IHrest
                 |entered n v r b Hn Hr He IHe];
    intros fuel st Hfuel Hwf Hst Hm; (destruct fuel as [|f]; [lia|]).
  - destruct ty; try discriminate Hwf; by eexists.
  - by eexists.
  - destruct ty; try discriminate Hty; by eexists.
  - rewrite cr_plus_cons. cbn in Hwf. apply andb_true_iff in Hwf as [Hwx _].
    by apply IHx.
  - discriminate Hwf.
  - rewrite cr_sequence_cons. cbn in Hwf. apply andb_true_iff in Hwf as [Hwx _].
    destruct (IHx (S f) st Hfuel Hwx Hst Hm) as (st1 & -> & Hr1). by exists st1.
  - rewrite cr_sequence_cons. cbn in Hwf. apply andb_true_iff in Hwf as [Hwx Hwrest].
    destruct (IHx (S f) st Hfuel Hwx Hst Hm) as (st1 & -> & Hr1).
    destruct rest as [|y rest'].
    + inversion Hrest; subst; try discriminate. exists st1. split; [reflexivity|done].
    + destruct (IHrest (S f) st1) as (st2 & -> & Hr2).
      * by rewrite Hr1.
      * exact Hwrest.
      * unfold state_ok. by rewrite Hr1.
      * by eapply marks_in_same.
      * exists st2. split; [done|congruence].
  - discriminate Hwf.
  - rewrite cr_alternate_cons. cbn in Hwf. apply andb_true_iff in Hwf as [Hwx _].
    destruct (IHx (S f) st Hfuel Hwx Hst Hm) as (st1 & -> & Hr1). by exists st1.
  - rewrite cr_alternate_cons. cbn in Hwf. apply andb_true_iff in Hwf as [Hwx Hwrest].
    destruct (IHx (S f) st Hfuel Hwx Hst Hm) as (st1 & -> & Hr1).
    destruct rest as [|y rest'].
    + inversion Hrest; subst; try discriminate. exists st1. split; [reflexivity|done].
    + destruct (IHrest (S f) st1) as (st2 & -> & Hr2).
      * by rewrite Hr1.
      * exact Hwrest.
      * unfold state_ok. by rewrite Hr1.
      * by eapply marks_in_same.
      * exists st2. split; [done|congruence].
  - rewrite cr_name, Hr. destruct (named_wf n r Hr) as (_ & Hid & Hexpr).
    pose proof (unmarked st entered n r Hst Hm Hn Hr) as Hb.
    pose proof (unreached_mark _ _ Hb) as Hu.
    destruct f as [|f']; [lia|]. rewrite cr_rule. cbn zeta.
    unfold state_ok in Hst. rewrite Hst.
    destruct (Z.leb_spec 0 (rule_id r)); [|lia].
    destruct (Z.ltb_spec (rule_id r) (Z.of_nat (size (rules t)))); [|lia].
    cbn [andb]. rewrite Hb.
    destruct (IHe f' (mark r st)) as (st2 & Hres & Hr2).
    + unfold mark. cbn. lia.
    + exact Hexpr.
    + unfold state_ok, mark. cbn. rewrite length_insert. exact Hst.
    + by apply marks_in_mark.
    + unfold mark in Hres. rewrite Hres. eexists. split; [done|]. cbn.
      rewrite Hr2. unfold mark. cbn. rewrite list_insert_insert_eq.
      by apply list_insert_id.
Qed.

Lemma leftmost_named (entered : gset string) (e : Node) (n : string) :
  leftmost t entered e n -> wf_node t e = true -> is_Some (rule_named t n).
Proof.
  induction 1 as [entered n v|entered x rest n Hx IHx|entered x rest n Hx IHx
                 |entered x rest n Hc Hrest IHrest|entered x rest n Hx IHx
                 |entered x rest n Hc Hrest IHrest]; intros Hwf.
  - cbn in Hwf. by apply bool_decide_eq_true in Hwf.
  - cbn in Hwf. apply andb_true_iff in Hwf as [Hwx _]. by apply IHx.
  - cbn in Hwf. apply andb_true_iff in Hwf as [Hwx _]. by apply IHx.
  - cbn in Hwf. apply andb_true_iff in Hwf as [_ Hwrest].
    destruct rest; [inversion Hrest|]. by apply IHrest.
  - cbn in Hwf. apply andb_true_iff in Hwf as [Hwx _]. by apply IHx.
  - cbn in Hwf. apply andb_true_iff in Hwf as [_ Hwrest].
    destruct rest; [inversion Hrest|]. by apply IHrest.
Qed.

(** The check of an expression comes to the names that stand where it
    comes to: what the check of such a name writes, the check of the
    expression writes. *)
Lemma emits_leftmost (entered : gset string) (e : Node) (n : string) :
  leftmost t entered e n ->
  forall (st : crState) (f : nat) (r : rule) (X : string),
    (2 * unreached (ruleReached st) + 2 <= S f)%nat ->
    wf_node t e = true -> state_ok st -> marks_in st entered ->
    rule_named t n = Some r ->
    (forall st1, ruleReached st1 = ruleReached st -> emits f (Rule r) st1 X) ->
    emits (S f) e st X.
Proof.
  induction 1 as [entered n v|entered x rest n Hx IHx|entered x rest n Hx IHx
                 |entered x rest n Hc Hrest IHrest|entered x rest n Hx IHx
                 |entered x rest n Hc Hrest IHrest];
    intros st f r X Hfuel Hwf Hst Hm Hr Hem.
  - unfold emits. rewrite cr_name, Hr. by apply Hem.
  - cbn in Hwf. apply andb_true_iff in Hwf as [Hwx _].
    unfold emits. rewrite cr_plus_cons. by eapply IHx.
  - cbn in Hwf. apply andb_true_iff in Hwf as [Hwx Hwrest].
    destruct (IHx st f r X Hfuel Hwx Hst Hm Hr Hem) as (b & st' & Hres & Hr' & HX).
    unfold emits. rewrite cr_sequence_cons, Hres. destruct b; [by eexists _, _|].
    eapply emits_then; [exact Hr'|exact HX|].
    apply cr_total_items; [by right|by rewrite Hr'|exact Hwrest|].
    unfold state_ok. by rewrite Hr'.
  - cbn in Hwf. apply andb_true_iff in Hwf as [Hwx Hwrest].
    destruct (consuming_sound _ _ _ Hc (S f) st Hfuel Hwx Hst Hm) as (st1 & Hres & Hr1).
    destruct rest as [|y rest']; [inversion Hrest|].
    destruct (IHrest st1 f r X) as (b & st' & Hres' & Hr' & HX).
    + by rewrite Hr1.
    + exact Hwrest.
    + unfold state_ok. by rewrite Hr1.
    + by eapply marks_in_same.
    + exact Hr.
    + intros st2 Hst2. apply Hem. congruence.
    + unfold emits. rewrite cr_sequence_cons, Hres, Hres'.
      exists b, st'. split; [done|]. split; [congruence|done].
  - cbn in Hwf. apply andb_true_iff in Hwf as [Hwx Hwrest].
    destruct (IHx st f r X Hfuel Hwx Hst Hm Hr Hem) as (b & st' & Hres & Hr' & HX).
    unfold emits. rewrite cr_alternate_cons, Hres. destruct b; [|by eexists _, _].
    eapply emits_then; [exact Hr'|exact HX|].
    apply cr_total_items; [by left|by rewrite Hr'|exact Hwrest|].
    unfold state_ok. by rewrite Hr'.
  - cbn in Hwf. apply andb_true_iff in Hwf as [Hwx Hwrest].
    destruct (consuming_sound _ _ _ Hc (S f) st Hfuel Hwx Hst Hm) as (st1 & Hres & Hr1).
    destruct rest as [|y rest']; [inversion Hrest|].
    destruct (IHrest st1 f r X) as (b & st' & Hres' & Hr' & HX).
    + by rewrite Hr1.
    + exact Hwrest.
    + unfold state_ok. by rewrite Hr1.
    + by eapply marks_in_same.
    + exact Hr.
    + intros st2 Hst2. apply Hem. congruence.
    + unfold emits. rewrite cr_alternate_cons, Hres, Hres'.
      exists b, st'. split; [done|]. split; [congruence|done].
Qed.

(** While the rules [entered], and no other, are marked, the check of a
    rule from which it comes back to R reports R. *)
Lemma returns_emits (R : string) (entered : gset string) (a : string) :
  returns_to t R entered a ->
  forall (st : crState) (fuel : nat) (r : rule),
    R ∈ entered \/ a = R ->
    rule_named t a = Some r -> state_ok st -> marks_in st entered ->
    (forall n rn, n ∈ entered -> rule_named t n = Some rn ->
       ruleReached st !! Z.to_nat (rule_id rn) = Some true) ->
    (2 * unreached (ruleReached st) + 1 <= fuel)%nat ->
    emits fuel (Rule r) st (recursion_message R).
Proof.
  induction 1 as [entered a r0 Ha Hr0 Hl|entered a r0 b Ha Hr0 Hl Hb IH];
    intros st fuel r HR Hr Hst Hm Hall Hfuel;
    rewrite Hr0 in Hr; injection Hr as <-;
    destruct (named_wf a r0 Hr0) as (Hname & Hid & Hexpr);
    pose proof (unmarked st entered a r0 Hst Hm Ha Hr0) as Hb0;
    pose proof (unreached_mark _ _ Hb0) as Hu;
    (destruct fuel as [|f]; [lia|]);
    (apply emits_rule_step; [by split|exact Hst|exact Hb0|]);
    (destruct f as [|f']; [lia|]);
    assert (Hst1 : state_ok (mark r0 st))
      by (unfold state_ok, mark; cbn; rewrite length_insert; exact Hst);
    assert (Hall1 : forall n rn, n ∈ ({[a]} ∪ entered : gset string) ->
              rule_named t n = Some rn ->
              ruleReached (mark r0 st) !! Z.to_nat (rule_id rn) = Some true).
  1,3: intros n rn Hn Hrn; unfold mark; cbn;
      destruct (decide (Z.to_nat (rule_id r0) = Z.to_nat (rule_id rn))) as [Heq|Hne];
      [rewrite <- Heq; apply list_lookup_insert_eq; by eapply lookup_lt_Some
      |rewrite list_lookup_insert_ne by done;
       apply elem_of_union in Hn as [Hn|Hn];
       [apply elem_of_singleton in Hn; subst n; rewrite Hr0 in Hrn; by simplify_eq
       |by apply (Hall n)]].
  - destruct (leftmost_named _ _ _ Hl Hexpr) as [rR HrR].
    apply (emits_leftmost _ _ _ Hl (mark r0 st) f' rR); try done.
    + unfold mark. cbn. lia.
    + by apply marks_in_mark.
    + intros st1 Hst1'.
      destruct (named_wf R rR HrR) as (HnameR & HidR & HexprR).
      destruct f' as [|f'']; [unfold mark in Hu; cbn in *; lia|].
      rewrite <- HnameR. apply emits_reached; [by split| |].
      * unfold state_ok. rewrite Hst1'. exact Hst1.
      * rewrite Hst1'. apply (Hall1 R rR); [|exact HrR]. set_solver.
  - destruct (leftmost_named _ _ _ Hl Hexpr) as [rb Hrb].
    apply (emits_leftmost _ _ _ Hl (mark r0 st) f' rb); try done.
    + unfold mark. cbn. lia.
    + by apply marks_in_mark.
    + intros st1 Hst1'. apply IH.
      * set_solver.
      * exact Hrb.
      * unfold state_ok. rewrite Hst1'. exact Hst1.
      * eapply marks_in_same; [exact Hst1'|]. by apply marks_in_mark.
      * intros n rn Hn Hrn. rewrite Hst1'. by apply (Hall1 n).
      * rewrite Hst1'. unfold mark. cbn. lia.
Qed.

Lemma unreached_replicate (n : nat) : unreached (replicate n false) = n.
Proof. induction n as [|n IH]; [done|]. cbn. by rewrite IH. Qed.

(** The check of a left-recursive rule, started with no rule marked,
    reports that rule. *)
Lemma rule_emits (R : string) (st : crState) (fuel : nat) :
  left_recursive_checked t R ->
  ruleReached st = replicate (size (rules t)) false ->
  (2 * size (rules t) + 1 <= fuel)%nat ->
  exists r, rule_named t R = Some r /\
    emits fuel (Rule r) st (recursion_message R).
Proof.
  intros Hleft Hst Hfuel.
  assert (Hr : is_Some (rule_named t R)) by (inversion Hleft; eauto).
  destruct Hr as [r Hr]. exists r. split; [done|].
  apply (returns_emits R ∅ R Hleft); try done.
  - by right.
  - unfold state_ok. rewrite Hst. apply length_replicate.
  - intros n rn Hn Hb. rewrite Hst in Hb.
    apply lookup_replicate in Hb as [Hb _]. discriminate.
  - rewrite Hst, unreached_replicate. lia.
Qed.

Lemma check_rules_emits (entries : list (string * ruleRef)) :
  forall (st : crState) (fuel : nat),
    (forall e, e ∈ entries -> rules t !! fst e = Some (snd e)) ->
    ruleReached st = replicate (size (rules t)) false ->
    (2 * size (rules t) + 1 <= fuel)%nat ->
    exists st', check_rules t fuel entries st = Some (Ok st') /\
      ruleReached st' = ruleReached st /\
      (forall X, X ∈ stderr st -> X ∈ stderr st') /\
      (forall R p, (R, p) ∈ entries -> left_recursive_checked t R ->
         recursion_message R ∈ stderr st').
Proof.
  induction entries as [|[n p] rest IH]; intros st fuel Hin Hst Hfuel.
  - exists st. split; [done|]. split; [done|]. split; [done|].
    intros R p HRp. by apply elem_of_nil in HRp.
  - cbn [check_rules].
    assert (Hp : rules t !! n = Some p) by (apply (Hin (n, p)); apply elem_of_cons; by left).
    destruct (entry_wf n p Hp) as (r & Hr & Hname & Hid & Hexpr). rewrite Hr.
    assert (Hok : state_ok st) by (unfold state_ok; rewrite Hst; apply length_replicate).
    destruct (proj1 (cr_total fuel) st r) as (b & st1 & Hres & Hr1 & extra & He1).
    { rewrite Hst, unreached_replicate. lia. }
    { by split. }
    { exact Hok. }
    rewrite Hres.
    destruct (IH st1 fuel) as (st' & Hrest & Hr' & Hmono & Hdiag).
    { intros e He. apply Hin. apply elem_of_cons. by right. }
    { by rewrite Hr1. }
    { exact Hfuel. }
    exists st'. split; [exact Hrest|]. split; [congruence|]. split.
    + intros X HX. apply Hmono. rewrite He1. apply elem_of_app. by left.
    + intros R q HRq Hleft. apply elem_of_cons in HRq as [Heq|HRq].
      * injection Heq as -> ->. apply Hmono.
        destruct (rule_emits n st fuel Hleft Hst Hfuel) as (r' & Hr'' & b' & st'' & Hres' & _ & HX).
        assert (r' = r).
        { unfold rule_named in Hr''. rewrite Hp in Hr''. cbn in Hr''. congruence. }
        subst r'. rewrite Hres in Hres'. by simplify_eq.
      * by eapply Hdiag.
Qed.


End RecursionPass.

(** The rules the check finds are left-recursive as the claim has it. *)
Lemma consuming_nullable (t : Tree) (entered : gset string) (e : Node) (b : bool) :
  consuming t entered e b -> b = false -> nullable t e.
Proof.
  induction 1 as [entered ty text class|entered a|entered ty items Hty
                 |entered x rest b Hx IHx
                 |entered|entered x rest Hx IHx|entered x rest b Hx IHx Hrest IHrest
                 |entered|entered x rest Hx IHx|entered x rest b Hx IHx Hrest IHrest
                 |entered n v r b Hn Hr He IHe]; intros Hb; try discriminate Hb.
  - by apply nullable_token.
  - apply nullable_action.
  - by apply nullable_operator.
  - apply nullable_plus. by apply IHx.
  - apply nullable_sequence_nil.
  - apply nullable_sequence_cons; [by apply IHx|by apply IHrest].
  - apply nullable_alternate_here. by apply IHx.
  - apply nullable_alternate_next. by apply IHrest.
  - eapply nullable_name; [exact Hr|by apply IHe].
Qed.

Lemma leftmost_at_left (t : Tree) (entered : gset string) (e : Node) (n : string) :
  leftmost t entered e n -> at_left t e n.
Proof.
  induction 1 as [entered n v|entered x rest n Hx IHx|entered x rest n Hx IHx
                 |entered x rest n Hc Hrest IHrest|entered x rest n Hx IHx
                 |entered x rest n Hc Hrest IHrest].
  - apply at_left_name.
  - by apply at_left_operand.
  - by apply at_left_sequence_here.
  - apply at_left_sequence_next; [exact (consuming_nullable _ _ _ _ Hc eq_refl)|done].
  - by apply at_left_alternate_here.
  - by apply at_left_alternate_next.
Qed.

Lemma returns_refers (t : Tree) (R : string) (entered : gset string) (a : string) :
  returns_to t R entered a -> tc (refers_left t) a R.
Proof.
  induction 1 as [entered a r Ha Hr Hl|entered a r b Ha Hr Hl Hb IH].
  - apply tc_once. exists r. split; [done|]. exact (leftmost_at_left _ _ _ _ Hl).
  - eapply tc_l; [|exact IH]. exists r. split; [done|].
    exact (leftmost_at_left _ _ _ _ Hl).
Qed.

Lemma checked_left_recursive (t : Tree) (R : string) :
  left_recursive_checked t R -> left_recursive t R.
Proof. apply returns_refers. Qed.

(** ** The writer and its labels *)

Record saveFlags : Type := mkSaveFlags {
  sf_pos : bool;
  sf_thPos : bool
}.

Record chgFlags : Type := mkChg {
  chg_pos : bool;
  chg_thPos : bool
}.

(** struct label; the embedded writer is the one writer of the
    compilation, and a label is referred to by its position in the
    writer's [labels] (which is its id). *)
Record label : Type := mkLabel {
  label_id : nat;
  label_sid : Z;
  label_used : bool;
  label_savedBlockOpen : bool
}.

(** struct writer, with the text written to the io.Writer so far and the
    labels made so far. *)
Record writer : Type := mkWriter {
  sink : list string;
  indent : Z;
  hasCommit : bool;
  nLabels : nat;
  dryRun : bool;
  savedIndent : Z;
  w_saveFlags : list saveFlags;
  labels : list label
}.

Definition newWriter : writer := mkWriter [] 2 false 0 false 0 [] [].

Definition set_sink (s : list string) (w : writer) : writer :=
  mkWriter s (indent w) (hasCommit w) (nLabels w) (dryRun w) (savedIndent w)
           (w_saveFlags w) (labels w).
Definition set_indent (i : Z) (w : writer) : writer :=
  mkWriter (sink w) i (hasCommit w) (nLabels w) (dryRun w) (savedIndent w)
           (w_saveFlags w) (labels w).
Definition set_hasCommit (b : bool) (w : writer) : writer :=
  mkWriter (sink w) (indent w) b (nLabels w) (dryRun w) (savedIndent w)
           (w_saveFlags w) (labels w).
Definition set_saveFlags (f : list saveFlags) (w : writer) : writer :=
  mkWriter (sink w) (indent w) (hasCommit w) (nLabels w) (dryRun w) (savedIndent w)
           f (labels w).
Definition set_labels (l : list label) (w : writer) : writer :=
  mkWriter (sink w) (indent w) (hasCommit w) (nLabels w) (dryRun w) (savedIndent w)
           (w_saveFlags w) l.

(** fmt.Fprintf(w, ...) with the text already formatted. *)
Definition write (s : string) (w : writer) : writer := set_sink (sink w ++ [s]) w.

(** The closure [print] of Compile. *)
Definition print (s : string) (w : writer) : writer :=
  if dryRun w then w else write s w.

Definition tab : string := String (ascii_of_nat 9) EmptyString.

(** The tabs of lnPrint: [for i := 0; i < w.indent; i++]. *)
Fixpoint tabs (n : nat) : string :=
  match n with
  | O => EmptyString
  | S n' => tab +:+ tabs n'
  end.

Definition lnPrint (s : string) (w : writer) : writer :=
  if dryRun w then w
  else write (nl +:+ tabs (Z.to_nat (indent w)) +:+ s) w.

Definition begin (w : writer) : writer :=
  let w1 := lnPrint "{" w in set_indent (indent w1 + 1) w1.

Definition end_block (w : writer) : writer :=
  lnPrint "}" (set_indent (indent w - 1) w).

Definition setDry (on : bool) (w : writer) : writer :=
  if on then
    mkWriter (sink w) (indent w) (hasCommit w) (nLabels w) true (indent w)
             (w_saveFlags w) (labels w)
  else
    mkWriter (sink w) (savedIndent w) (hasCommit w) 0 false (savedIndent w)
             (w_saveFlags w) [].

(** w.newLabel(): the new label gets the next id and a clear entry of
    flags during the dry pass. *)
Definition newLabel (w : writer) : nat * writer :=
  let i := nLabels w in
  let flags := if dryRun w then w_saveFlags w ++ [mkSaveFlags false false]
               else w_saveFlags w in
  (length (labels w),
   mkWriter (sink w) (indent w) (hasCommit w) (S i) (dryRun w) (savedIndent w)
            flags (labels w ++ [mkLabel i (Z.of_nat i) false false])).

(** Access to a label through its pointer. *)
Definition get_label (l : nat) (w : writer) : result label :=
  match labels w !! l with
  | Some lab => Ok lab
  | None => Panic NilDereference
  end.

Definition put_label (l : nat) (lab : label) (w : writer) : writer :=
  set_labels (<[l := lab]> (labels w)) w.

Definition set_used (lab : label) : label :=
  mkLabel (label_id lab) (label_sid lab) true (label_savedBlockOpen lab).
Definition set_savedBlockOpen (b : bool) (lab : label) : label :=
  mkLabel (label_id lab) (label_sid lab) (label_used lab) b.
Definition set_sid (sid : Z) (lab : label) : label :=
  mkLabel (label_id lab) sid (label_used lab) (label_savedBlockOpen lab).

(** w.saveFlags[w.id] *)
Definition get_flags (lab : label) (w : writer) : result saveFlags :=
  match w_saveFlags w !! label_id lab with
  | Some f => Ok f
  | None => Panic IndexOutOfRange
  end.

Definition label_text (lab : label) : string := "l" +:+ pretty (label_id lab).

(** func (w *label) label() *)
Definition label_site (l : nat) (w : writer) : result writer :=
  lab ← get_label l w;
  let w1 := set_indent (indent w - 1) w in
  let w2 := lnPrint (label_text lab +:+ ":") w1 in
  Ok (set_indent (indent w2 + 1) w2).

(** func (w *label) jump() *)
Definition jump (l : nat) (w : writer) : result writer :=
  lab ← get_label l w;
  let w1 := lnPrint ("goto " +:+ label_text lab) w in
  Ok (put_label l (set_used lab) w1).

(** func (w *label) save() *)
Definition save (l : nat) (w : writer) : result writer :=
  lab ← get_label l w;
  f ← get_flags lab w;
  let sid := pretty (label_sid lab) in
  if sf_pos f && sf_thPos f then
    Ok (lnPrint ("position" +:+ sid +:+ ", thunkPosition" +:+ sid +:+
                 " := position, thunkPosition") w)
  else if negb (sf_pos f) && sf_thPos f then
    Ok (lnPrint ("thunkPosition" +:+ sid +:+ " := thunkPosition") w)
  else if sf_pos f then
    Ok (lnPrint ("position" +:+ sid +:+ " := position") w)
  else Ok w.

(** func (w *label) saveBlock() *)
Definition saveBlock (l : nat) (w : writer) : result writer :=
  lab ← get_label l w;
  f ← get_flags lab w;
  if sf_pos f || sf_thPos f then
    w1 ← save l (begin w);
    lab1 ← get_label l w1;
    Ok (put_label l (set_savedBlockOpen true lab1) w1)
  else Ok w.

(** func (w *label) unsafe() bool *)
Definition unsafe (l : nat) (w : writer) : result bool :=
  lab ← get_label l w;
  f ← get_flags lab w;
  Ok (sf_pos f || sf_thPos f).

(** func (w *label) lrestore(label *label, savePos, saveThPos bool) *)
Definition lrestore (l : nat) (other : option nat) (savePos saveThPos : bool)
  (w : writer) : result writer :=
  w1 ← match other with
       | Some o =>
           lab ← get_label o w;
           if label_used lab then label_site o w else Ok w
       | None => Ok w
       end;
  lab ← get_label l w1;
  let sid := pretty (label_sid lab) in
  let w2 :=
    if savePos && saveThPos then
      lnPrint ("position, thunkPosition = position" +:+ sid +:+
               ", thunkPosition" +:+ sid) w1
    else if negb savePos && saveThPos then
      lnPrint ("thunkPosition = thunkPosition" +:+ sid) w1
    else if savePos then lnPrint ("position = position" +:+ sid) w1
    else w1 in
  w3 ← (if dryRun w2 then
          f ← get_flags lab w2;
          let f' := mkSaveFlags (if sf_pos f then true else savePos)
                                (if sf_thPos f then true else saveThPos) in
          Ok (set_saveFlags (<[label_id lab := f']> (w_saveFlags w2)) w2)
        else Ok w2);
  if label_savedBlockOpen lab then
    Ok (put_label l (set_savedBlockOpen false lab) (end_block w3))
  else Ok w3.

(** func (w *label) restore(savePos, saveThPos bool) *)
Definition restore (l : nat) (savePos saveThPos : bool) (w : writer) : result writer :=
  lrestore l (Some l) savePos saveThPos w.

(** func (w *label) cJump(jumpIfTrue bool, format string, a ...); the
    condition comes formatted. *)
Definition cJump (l : nat) (jumpIfTrue : bool) (cond : string) (w : writer)
  : result writer :=
  lab ← get_label l w;
  let w1 := put_label l (set_used lab) w in
  if dryRun w1 then Ok w1
  else
    let w2 := lnPrint ((if jumpIfTrue then "if " else "if !") +:+ cond) w1 in
    let w3 := write " {" w2 in
    let w4 := lnPrint (tab +:+ "goto " +:+ label_text lab) w3 in
    Ok (lnPrint "}" w4).

(** ** The code generator *)

(** What the generator threads: the writer and the error stream. *)
Record cstate : Type := mkCs {
  cs_w : writer;
  cs_err : list string
}.

(** Emission steps: [None] when the fuel for inlining ran out. *)
Definition M (A : Type) : Type := cstate -> option (result (A * cstate)).

#[global] Instance M_ret : MRet M := fun A a s => Some (Ok (a, s)).

#[global] Instance M_bind : MBind M := fun A B f m s =>
  match m s with
  | Some (Ok (a, s')) => f a s'
  | Some (Panic p) => Some (Panic p)
  | Some Diverge => Some Diverge
  | None => None
  end.

Definition panicM {A : Type} (p : panic) : M A := fun _ => Some (Panic p).
Definition out_of_fuel {A : Type} : M A := fun _ => None.

Definition liftR {A : Type} (r : result A) : M A := fun s =>
  match r with
  | Ok a => Some (Ok (a, s))
  | Panic p => Some (Panic p)
  | Diverge => Some Diverge
  end.

(** A method of the writer or of a label. *)
Definition doW (f : writer -> result writer) : M unit := fun s =>
  match f (cs_w s) with
  | Ok w' => Some (Ok (tt, mkCs w' (cs_err s)))
  | Panic p => Some (Panic p)
  | Diverge => Some Diverge
  end.

Definition doP (f : writer -> writer) : M unit := fun s =>
  Some (Ok (tt, mkCs (f (cs_w s)) (cs_err s))).

Definition askW {A : Type} (f : writer -> result A) : M A := fun s =>
  match f (cs_w s) with
  | Ok a => Some (Ok (a, s))
  | Panic p => Some (Panic p)
  | Diverge => Some Diverge
  end.

Definition mkLabelM : M nat := fun s =>
  let '(l, w') := newLabel (cs_w s) in Some (Ok (l, mkCs w' (cs_err s))).

(** fmt.Fprintf(os.Stderr, ...) *)
Definition eprint (msg : string) : M unit := fun s =>
  Some (Ok (tt, mkCs (cs_w s) (cs_err s ++ [msg]))).

Definition is_used (l : nat) (w : writer) : result bool :=
  lab ← get_label l w; Ok (label_used lab).

Definition no_chg : chgFlags := mkChg false false.

(** The closure updateFlags: the flags of a part are or-ed into those of
    the whole. *)
Definition or_chg (a b : chgFlags) : chgFlags :=
  mkChg (chg_pos a || chg_pos b) (chg_thPos a || chg_thPos b).

(** The number a node type prints as. *)
Definition type_number (ty : NodeType) : Z :=
  match ty with
  | TypeUnknown => 0 | TypeRule => 1 | TypeVariable => 2 | TypeName => 3
  | TypeDot => 4 | TypeCharacter => 5 | TypeString => 6 | TypeClass => 7
  | TypePredicate => 8 | TypeCommit => 9 | TypeBegin => 10 | TypeEnd => 11
  | TypeAction => 12 | TypeAlternate => 13 | TypeUnorderedAlternate => 14
  | TypeSequence => 15 | TypePeekFor => 16 | TypePeekNot => 17
  | TypeQuery => 18 | TypeStar => 19 | TypePlus => 20 | TypeNil => 21
  | TypeLast => 22
  end.

(** node.String(), as the verb %v prints a node. *)
Fixpoint node_String (n : Node) : string :=
  match n with
  | GoNil => "<nil>"
  | Rule r => rule_name r
  | Name text _ => text
  | Token _ text _ => text
  | Action a => act_text a
  | NodeList _ items =>
      match items with
      | [] => "()"
      | x :: rest =>
          "(" +:+ node_String x +:+
          (fix tail (l : list Node) : string :=
             match l with
             | [] => ")"
             | y :: l' => " / " +:+ node_String y +:+ tail l'
             end) rest
      end
  end.

Definition quote : string := String (ascii_of_nat 34) EmptyString.

(** The offset of the variable a name captures into. *)
Definition var_offset (t : Tree) (v : varRef) : result Z :=
  match find_rule (ruleList t) (fst v) with
  | Some r =>
      match lookup_var (rule_variables r) (snd v) with
      | Some off => Ok off
      | None => Panic NilDereference
      end
  | None => Panic NilDereference
  end.

(** What compile reads besides the tree: the index of every class in the
    emitted table and whether there are actions. *)
Record cenv : Type := mkEnv {
  env_tree : Tree;
  env_classes : gmap string Z;
  env_hasActions : bool
}.

(** canCompilePeek *)
Definition canCompilePeek (node : Node) (jumpIfTrue : bool) (l : nat) : M bool :=
  match node with
  | GoNil => panicM NilDereference
  | Token TypeDot _ _ =>
      _ ← doW (cJump l jumpIfTrue "peekDot()"); mret true
  | Token TypeCharacter text _ =>
      _ ← doW (cJump l jumpIfTrue ("peekChar('" +:+ text +:+ "')")); mret true
  | Token TypePredicate text _ =>
      _ ← doW (cJump l jumpIfTrue ("(" +:+ text +:+ ")")); mret true
  | NodeList TypeDot _ =>
      _ ← doW (cJump l jumpIfTrue "peekDot()"); mret true
  | NodeList TypeCharacter _ =>
      _ ← doW (cJump l jumpIfTrue ("peekChar('" +:+ node_String node +:+ "')")); mret true
  | NodeList TypePredicate _ =>
      _ ← doW (cJump l jumpIfTrue ("(" +:+ node_String node +:+ ")")); mret true
  | _ => mret false
  end.

(** The text of one character of a case of the emitted switch. *)
Definition case_char (d : Z) : string :=
  if d =? ch_bel then "\a"
  else if d =? ch_bs then "\b"
  else if d =? ch_ff then "\f"
  else if d =? ch_nl then "\n"
  else if d =? ch_cr then "\r"
  else if d =? ch_ht then "\t"
  else if d =? ch_vt then "\v"
  else if d =? ch_bslash then "\\"
  else if d =? ch_quote then "\'"
  else if d <? 128 then string_of_bytes [d]
  else string_of_bytes [Z.lor 192 (Z.shiftr d 6); Z.lor 128 (Z.land d 63)].

(** The loop over d = 0 .. 255 that prints the characters of a case. *)
Definition case_step (class : Class.t) (m : M bool) (d : Z) : M bool :=
  comma ← m;
  if Class.has class d then
    _ ← (if comma : bool then doP (print ",") else mret tt);
    _ ← doP (print (" '" +:+ case_char d +:+ "'"));
    mret true
  else mret comma.

Definition print_case_chars (class : Class.t) : M unit :=
  _ ← foldl (case_step class) (mret false) (seqZ 0 256);
  mret tt.

(** The pieces of an element of an unordered alternation:
    Sequence(PeekFor(Class), branch). *)
Definition unordered_parts (element : Node) : result (classRef * Node) :=
  match element with
  | GoNil => Panic NilDereference
  | NodeList _ (first :: rest) =>
      match first with
      | NodeList _ (Token _ _ class :: _) =>
          match rest with
          | branch :: _ => Ok (class, branch)
          | [] => Panic NilDereference
          end
      | NodeList _ (_ :: _) => Panic TypeAssertion
      | NodeList _ [] => Panic NilDereference
      | _ => Panic TypeAssertion
      end
  | NodeList _ [] => Panic NilDereference
  | _ => Panic TypeAssertion
  end.

(** The class behind the leading peek of an element of an unordered
    alternation: element.Front().Value.(List).Front().Value.(Token).GetClass(). *)
Definition peek_class (first : Node) : result classRef :=
  match first with
  | GoNil => Panic NilDereference
  | NodeList _ (Token _ _ class :: _) => Ok class
  | NodeList _ (_ :: _) => Panic TypeAssertion
  | NodeList _ [] => Panic NilDereference
  | _ => Panic TypeAssertion
  end.

Definition indent_by (d : Z) (w : writer) : writer := set_indent (indent w + d) w.

Definition when (b : bool) (m : M unit) : M unit := if b then m else mret tt.

(** The cases of compile that do not descend into the node. *)
Definition compile_leaf (env : cenv) (ty : NodeType) (node : Node) (ko : nat)
  : M (chgFlags * chgFlags) :=
  match ty with
  | TypeRule =>
      _ ← eprint ("internal error #1 (" +:+ node_String node +:+ ")" +:+ nl);
      mret (no_chg, no_chg)
  | TypeDot =>
      _ ← doW (cJump ko false "matchDot()");
      mret (no_chg, mkChg true false)
  | TypeCharacter =>
      _ ← doW (cJump ko false ("matchChar('" +:+ node_String node +:+ "')"));
      mret (no_chg, mkChg true false)
  | TypeString =>
      let s := node_String node in
      _ ← (if String.eqb s "" then doW (cJump ko false "peekDot()")
           else doW (cJump ko false ("matchString(" +:+ quote +:+ s +:+ quote +:+ ")")));
      mret (no_chg, mkChg true false)
  | TypeClass =>
      _ ← doW (cJump ko false
                 ("matchClass(" +:+
                  pretty (default 0 (env_classes env !! node_String node)) +:+ ")"));
      mret (no_chg, mkChg true false)
  | TypePredicate =>
      _ ← doW (cJump ko false ("(" +:+ node_String node +:+ ")"));
      mret (no_chg, no_chg)
  | TypeAction =>
      match node with
      | Action a =>
          _ ← doP (lnPrint ("do(" +:+ pretty (act_id a) +:+ ")"));
          mret (no_chg, mkChg false true)
      | _ => panicM TypeAssertion
      end
  | TypeCommit =>
      _ ← doW (cJump ko false "(commit(thunkPosition0))");
      mret (mkChg false true, no_chg)
  | TypeBegin =>
      _ ← when (env_hasActions env) (doP (lnPrint "begin = position"));
      mret (no_chg, no_chg)
  | TypeEnd =>
      _ ← when (env_hasActions env) (doP (lnPrint "end = position"));
      mret (no_chg, no_chg)
  | TypeNil => mret (no_chg, no_chg)
  | TypeName | TypeAlternate | TypeUnorderedAlternate | TypeSequence
  | TypePeekFor | TypePeekNot | TypeQuery | TypeStar | TypePlus =>
      panicM TypeAssertion
  | _ =>
      _ ← eprint ("illegal node type: " +:+ pretty (type_number ty) +:+ nl);
      mret (no_chg, no_chg)
  end.

(** compile.  The fuel pays for inlining the rule a name refers to; the
    children of a node are compiled by structural recursion. *)
Fixpoint compile (env : cenv) (fuel : nat) (node : Node) (ko : nat) {struct fuel}
  : M (chgFlags * chgFlags) :=
  match fuel with
  | O => out_of_fuel
  | S fuel' =>
    (fix go (node : Node) (ko : nat) {struct node} : M (chgFlags * chgFlags) :=
       match node with
       | GoNil => panicM NilDereference
       | Rule _ => compile_leaf env TypeRule node ko
       | Token ty _ _ => compile_leaf env ty node ko
       | Action _ => compile_leaf env TypeAction node ko
       | Name name varp =>
           let t := env_tree env in
           '(chgko, chgok) ←
             match rule_named t name with
             | None => panicM NilDereference
             | Some rule =>
                 if inline t && bool_decide (rulesCount t !! name = Some 1) then
                   (* compileExpression(rule, ko) *)
                   let nvar := length (rule_variables rule) in
                   _ ← when (Nat.ltb 0 nvar)
                         (doP (lnPrint ("doarg(yyPush, " +:+ pretty nvar +:+ ")")));
                   '(cko, cok) ← compile env fuel' (GetExpression rule) ko;
                   if Nat.ltb 0 nvar then
                     _ ← doP (lnPrint ("doarg(yyPop, " +:+ pretty nvar +:+ ")"));
                     mret (mkChg (chg_pos cko) true, mkChg (chg_pos cok) true)
                   else mret (cko, cok)
                 else
                   _ ← doW (cJump ko false ("p.rules[rule" +:+ goString rule +:+ "]()"));
                   mret (no_chg,
                         mkChg true (negb (Nat.eqb (length (rule_variables rule)) 0)
                                     || rule_hasActions rule))
             end;
           match varp with
           | Some v =>
               off ← liftR (var_offset t v);
               _ ← doP (lnPrint ("doarg(yySet, " +:+ pretty off +:+ ")"));
               mret (chgko, mkChg (chg_pos chgok) true)
           | None => mret (chgko, chgok)
           end
       | NodeList ty items =>
           match ty with
           | TypeAlternate =>
               ok ← mkLabelM;
               u ← askW (unsafe ok);
               _ ← when u (_ ← doP begin; doW (save ok));
               (fix loop (l : list Node) (next : option nat) (acc : chgFlags * chgFlags)
                  {struct l} : M (chgFlags * chgFlags) :=
                  match l with
                  | [] => panicM NilDereference
                  | element :: tl =>
                      match tl with
                      | [] =>
                          go_on ← match next with
                                  | None => mret true
                                  | Some n => askW (is_used n)
                                  end;
                          acc' ← (if go_on : bool then
                                    '(cko, cok) ← go element ko;
                                    mret (or_chg (fst acc) cko, or_chg (snd acc) cok)
                                  else mret acc);
                          u' ← askW (unsafe ok);
                          _ ← when u' (doP end_block);
                          used ← askW (is_used ok);
                          _ ← when used (doW (label_site ok));
                          mret acc'
                      | _ :: _ =>
                          n ← mkLabelM;
                          '(cko, cok) ← go element n;
                          _ ← doW (jump ok);
                          nused ← askW (is_used n);
                          _ ← when nused
                                (doW (lrestore ok (Some n) (chg_pos cko) (chg_thPos cko)));
                          loop tl (Some n) (or_chg (fst acc) cko, or_chg (snd acc) cok)
                      end
                  end) items None (no_chg, no_chg)
           | TypeUnorderedAlternate =>
               ok ← mkLabelM;
               _ ← doP begin;
               _ ← doW (cJump ko true "position == len(p.Buffer)");
               _ ← doP (lnPrint "switch p.Buffer[position] {");
               (fix loop (l : list Node) (acc : chgFlags * chgFlags) {struct l}
                  : M (chgFlags * chgFlags) :=
                  match l with
                  | [] => panicM NilDereference
                  | element :: tl =>
                      match element with
                      | GoNil => panicM NilDereference
                      | NodeList _ parts =>
                          match tl with
                          | [] =>
                              _ ← doP (lnPrint "default:");
                              _ ← doP (indent_by 1);
                              '(cko, cok) ←
                                match parts with
                                | _ :: branch :: _ => go branch ko
                                | _ => panicM NilDereference
                                end;
                              _ ← doP (indent_by (-1));
                              _ ← doP (lnPrint "}");
                              _ ← doP end_block;
                              used ← askW (is_used ok);
                              _ ← when used (doW (label_site ok));
                              mret (or_chg (fst acc) cko, or_chg (snd acc) cok)
                          | _ :: _ =>
                              match parts with
                              | [] => panicM NilDereference
                              | first :: rest =>
                                  cref ← liftR (peek_class first);
                                  _ ← doP (lnPrint "case");
                                  class ← liftR (deref_class cref);
                                  _ ← print_case_chars class;
                                  _ ← doP (print ":");
                                  _ ← doP (indent_by 1);
                                  '(cko, cok) ←
                                    match rest with
                                    | branch :: _ => go branch ko
                                    | [] => panicM NilDereference
                                    end;
                                  _ ← doP (indent_by (-1));
                                  loop tl (or_chg (fst acc) cko, or_chg (snd acc) cok)
                              end
                          end
                      | _ => panicM TypeAssertion
                      end
                  end) items (no_chg, no_chg)
           | TypeSequence =>
               '(chgko, chgok) ←
                 (fix loop (l : list Node) (acc : chgFlags * chgFlags) {struct l}
                    : M (chgFlags * chgFlags) :=
                    match l with
                    | [] => mret acc
                    | element :: tl =>
                        '(cko, cok) ← go element ko;
                        loop tl (or_chg (fst acc) cko, or_chg (snd acc) cok)
                    end) items (no_chg, no_chg);
               if Nat.ltb 1 (length items)
               then mret (or_chg chgko chgok, chgok)
               else mret (chgko, chgok)
           | TypePeekFor =>
               match items with
               | [] => panicM NilDereference
               | sub :: _ =>
                   direct ← canCompilePeek sub false ko;
                   if direct : bool then mret (no_chg, no_chg)
                   else
                     l ← mkLabelM;
                     _ ← doW (saveBlock l);
                     '(cko, cok) ← go sub ko;
                     _ ← doW (lrestore l None (chg_pos cok) (chg_thPos cok));
                     mret (cko, no_chg)
               end
           | TypePeekNot =>
               match items with
               | [] => panicM NilDereference
               | sub :: _ =>
                   direct ← canCompilePeek sub true ko;
                   if direct : bool then mret (no_chg, no_chg)
                   else
                     ok ← mkLabelM;
                     _ ← doW (saveBlock ok);
                     '(cko, cok) ← go sub ok;
                     _ ← doW (jump ko);
                     used ← askW (is_used ok);
                     _ ← when used (doW (restore ok (chg_pos cko) (chg_thPos cko)));
                     mret (cok, no_chg)
               end
           | TypeQuery =>
               qko ← mkLabelM;
               qok ← mkLabelM;
               _ ← doW (saveBlock qko);
               match items with
               | [] => panicM NilDereference
               | sub :: _ =>
                   '(cko, cok) ← go sub qko;
                   u ← askW (unsafe qko);
                   _ ← when u (doW (jump qok));
                   used ← askW (is_used qko);
                   _ ← when used (doW (restore qko (chg_pos cko) (chg_thPos cko)));
                   u' ← askW (unsafe qko);
                   _ ← when u' (doW (label_site qok));
                   mret (no_chg, cok)
               end
           | TypeStar =>
               again ← mkLabelM;
               out ← mkLabelM;
               _ ← doW (label_site again);
               _ ← doW (saveBlock out);
               match items with
               | [] => panicM NilDereference
               | sub :: _ =>
                   '(cko, cok) ← go sub out;
                   _ ← doW (jump again);
                   _ ← doW (restore out (chg_pos cko) (chg_thPos cko));
                   mret (no_chg, cok)
               end
           | TypePlus =>
               again ← mkLabelM;
               out ← mkLabelM;
               match items with
               | [] => panicM NilDereference
               | sub :: _ =>
                   '(chgko, chgok) ← go sub ko;
                   _ ← doW (label_site again);
                   _ ← doW (saveBlock out);
                   '(cko, _) ← go sub out;
                   _ ← doW (jump again);
                   used ← askW (is_used out);
                   _ ← when used (doW (restore out (chg_pos cko) (chg_thPos cko)));
                   mret (chgko, chgok)
               end
           | TypeName | TypeAction => panicM TypeAssertion
           | _ => compile_leaf env ty node ko
           end
       end) node ko
  end.

(** compileExpression *)
Definition compileExpression (env : cenv) (fuel : nat) (rule : rule) (ko : nat)
  : M (chgFlags * chgFlags) :=
  let nvar := length (rule_variables rule) in
  _ ← when (Nat.ltb 0 nvar)
        (doP (lnPrint ("doarg(yyPush, " +:+ pretty nvar +:+ ")")));
  '(cko, cok) ← compile env fuel (GetExpression rule) ko;
  if Nat.ltb 0 nvar then
    _ ← doP (lnPrint ("doarg(yyPop, " +:+ pretty nvar +:+ ")"));
    mret (mkChg (chg_pos cko) true, mkChg (chg_pos cok) true)
  else mret (cko, cok).

(** ** Emission during the dry pass *)

Lemma lnPrint_dry (s : string) (w : writer) : dryRun w = true -> lnPrint s w = w.
Proof. intros H. unfold lnPrint. by rewrite H. Qed.

Lemma print_dry (s : string) (w : writer) : dryRun w = true -> print s w = w.
Proof. intros H. unfold print. by rewrite H. Qed.

Lemma label_site_dry (l : nat) (w w' : writer) :
  dryRun w = true -> label_site l w = Ok w' -> w' = w.
Proof.
  intros Hdry. unfold label_site, get_label.
  destruct (labels w !! l) as [lab|]; [|done]. cbn.
  rewrite lnPrint_dry by done. intros [= <-].
  destruct w. unfold set_indent. cbn. f_equal. lia.
Qed.

Lemma save_dry (l : nat) (w w' : writer) :
  dryRun w = true -> save l w = Ok w' -> w' = w.
Proof.
  intros Hdry. unfold save, get_label, get_flags.
  destruct (labels w !! l) as [lab|]; [|done]. cbn.
  destruct (w_saveFlags w !! label_id lab) as [f|]; [|done]. cbn.
  rewrite !lnPrint_dry by done. repeat case_match; by intros [= <-].
Qed.

Lemma cJump_dry (l : nat) (b : bool) (s : string) (w w' : writer) :
  dryRun w = true -> cJump l b s w = Ok w' ->
  exists lab, labels w !! l = Some lab /\ w' = put_label l (set_used lab) w.
Proof.
  intros Hdry. unfold cJump, get_label.
  destruct (labels w !! l) as [lab|]; [|done]. cbn. rewrite Hdry.
  intros [= <-]. by exists lab.
Qed.

Lemma restore_dry (l : nat) (sp st : bool) (w w' : writer) (lab : label) :
  dryRun w = true -> labels w !! l = Some lab ->
  label_savedBlockOpen lab = false ->
  restore l sp st w = Ok w' ->
  exists f, w_saveFlags w !! label_id lab = Some f /\
    w' = set_saveFlags
           (<[label_id lab := mkSaveFlags (sf_pos f || sp) (sf_thPos f || st)]>
              (w_saveFlags w)) w.
Proof.
  intros Hdry Hlab Hclosed. unfold restore, lrestore.
  assert (Hsite : (lab0 ← get_label l w;
                   if label_used lab0 then label_site l w else Ok w) = Ok w).
  { unfold get_label. rewrite Hlab. cbn. destruct (label_used lab); [|done].
    destruct (label_site l w) as [w1| |] eqn:Hs.
    - by rewrite (label_site_dry l w w1 Hdry Hs).
    - unfold label_site, get_label in Hs. by rewrite Hlab in Hs.
    - unfold label_site, get_label in Hs. by rewrite Hlab in Hs. }
  rewrite Hsite. cbn. unfold get_label. rewrite Hlab. cbn.
  rewrite !lnPrint_dry by done.
  assert (Hw2 : (if sp && st then w else if negb sp && st then w
                 else if sp then w else w) = w) by (by repeat case_match).
  rewrite Hw2, Hdry. unfold get_flags.
  destruct (w_saveFlags w !! label_id lab) as [f|]; [|done]. cbn.
  rewrite Hclosed. intros [= <-]. exists f. split; [done|].
  by destruct (sf_pos f), (sf_thPos f).
Qed.

(** In the dry pass a label is made with clear flags, and saveBlock on
    clear flags opens no block: no label's save block is open then. *)
Lemma saveBlock_clear (l : nat) (w w' : writer) (lab : label) :
  labels w !! l = Some lab ->
  w_saveFlags w !! label_id lab = Some (mkSaveFlags false false) ->
  saveBlock l w = Ok w' -> w' = w.
Proof.
  intros Hlab Hf. unfold saveBlock, get_label, get_flags. rewrite Hlab. cbn.
  rewrite Hf. cbn. by intros [= <-].
Qed.

Lemma newLabel_dry (w : writer) :
  dryRun w = true -> length (labels w) = nLabels w ->
  length (w_saveFlags w) = nLabels w ->
  let '(l, w') := newLabel w in
  sink w' = sink w /\
  exists lab, labels w' !! l = Some lab /\ label_savedBlockOpen lab = false /\
    w_saveFlags w' !! label_id lab = Some (mkSaveFlags false false).
Proof.
  intros Hdry Hlen Hflags. unfold newLabel. cbn. split; [done|].
  eexists. split.
  { rewrite lookup_app_r by lia. by rewrite Nat.sub_diag. }
  split; [done|]. cbn. rewrite Hdry, lookup_app_r by lia.
  by rewrite Hflags, Nat.sub_diag.
Qed.

(** ** Alternate optimization *)

(** One entry of the cache of optimizeAlternates. *)
Record cacheEntry : Type := mkCache {
  c_reached : bool;
  c_consumes : bool;
  c_eof : bool;
  c_peek : bool;
  c_class : classRef
}.

(** What the optimizer changes: the expressions of the rules (the lists
    are rewritten in place) and its cache, indexed by rule id. *)
Record ostate : Type := mkOs {
  o_rules : list rule;
  o_cache : list cacheEntry
}.

(** The results (consumes, eof, peek, class). *)
Record props : Type := mkProps {
  p_consumes : bool;
  p_eof : bool;
  p_peek : bool;
  p_class : classRef
}.

Definition zero_props : props := mkProps false false false ClassNil.

Definition MO (A : Type) : Type := ostate -> option (result (A * ostate)).

#[global] Instance MO_ret : MRet MO := fun A a s => Some (Ok (a, s)).

#[global] Instance MO_bind : MBind MO := fun A B f m s =>
  match m s with
  | Some (Ok (a, s')) => f a s'
  | Some (Panic p) => Some (Panic p)
  | Some Diverge => Some Diverge
  | None => None
  end.

Definition panicO {A : Type} (p : panic) : MO A := fun _ => Some (Panic p).

Definition liftO {A : Type} (r : result A) : MO A := fun s =>
  match r with
  | Ok a => Some (Ok (a, s))
  | Panic p => Some (Panic p)
  | Diverge => Some Diverge
  end.

(** The class of all bytes, as TypeDot builds it. *)
Definition full_class : Class.t := replicate 32 255.

(** The first byte of a literal after the escape is decoded. *)
Definition first_byte (text : string) : result Z :=
  match bytes_of_string text with
  | [] => Panic IndexOutOfRange
  | b :: rest =>
      if b =? ch_bslash then
        match rest with
        | [] => Panic IndexOutOfRange
        | b' :: _ => Ok (decode_escape b')
        end
      else Ok b
  end.

(** [for i, v := range *a.class { if (b.class[i] & v) != 0 ... }] *)
Definition overlap (a b : Class.t) : bool :=
  existsb (fun p => negb (Z.land (snd p) (fst p) =? 0)) (zip a b).

(** The inner loops of the label compare for one [a]: does a later class
    meet it? *)
Fixpoint meets_later (a : Class.t) (bs : list classRef) : result bool :=
  match bs with
  | [] => Ok false
  | b :: bs' =>
      cb ← deref_class b;
      if overlap a cb then Ok true else meets_later a bs'
  end.

(** The flags [intersects] of properties[0 : len-1]; the last entry is
    never an [a]. *)
Fixpoint intersect_flags (properties : list classRef) : result (list bool) :=
  match properties with
  | [] => Ok []
  | a :: rest =>
      match rest with
      | [] => Ok [false]
      | _ :: _ =>
          ca ← deref_class a;
          i ← meets_later ca rest;
          flags ← intersect_flags rest;
          Ok (i :: flags)
      end
  end.

(** Where the rewrite puts the sequence made for a branch that meets no
    later branch: at the back when the branch is Nil or its class is
    longer than every class placed at the back so far, else at the front. *)
Definition place (unordered : list Node) (max : nat) (element sequence : Node)
  (length : nat) : result (list Node * nat) :=
  ty ← GetType element;
  if decide (ty = TypeNil) then Ok (unordered ++ [sequence], max)
  else if Nat.ltb max length then Ok (unordered ++ [sequence], length)
  else Ok (sequence :: unordered, max).

(** Sequence(PeekFor(Class), element) *)
Definition guard_branch (class : classRef) (c : Class.t) (element : Node) : Node :=
  NodeList TypeSequence
    [NodeList TypePeekFor [Token TypeClass (string_of_bytes (Class.String c)) class];
     element].

(** The loop of the rewrite over the elements and properties[c]. *)
Fixpoint split_branches (elements : list Node) (properties : list (bool * classRef))
  (unordered ordered : list Node) (max : nat) : result (list Node * list Node) :=
  match elements with
  | [] => Ok (unordered, ordered)
  | element :: elements' =>
      match properties with
      | [] => Panic IndexOutOfRange
      | (intersects, class) :: properties' =>
          if intersects : bool then
            split_branches elements' properties' unordered (ordered ++ [element]) max
          else
            c ← deref_class class;
            '(unordered', max') ← place unordered max element
                                    (guard_branch class c element) (Class.len c);
            split_branches elements' properties' unordered' ordered max'
      end
  end.

(** The rewritten alternation. *)
Definition rewrite_alternate (elements : list Node) (properties : list (bool * classRef))
  : result Node :=
  '(unordered, ordered) ← split_branches elements properties [] [] 0;
  match ordered with
  | [] => Ok (NodeList TypeUnorderedAlternate unordered)
  | _ => Ok (NodeList TypeAlternate
               (ordered ++ [NodeList TypeUnorderedAlternate unordered]))
  end.

(** class.union(x) for a non-nil x. *)
Definition union_ref (class : Class.t) (x : classRef) : Class.t :=
  match x with
  | ClassNil => class
  | ClassEmptyString => Class.union class Class.new
  | ClassPtr c => Class.union class c
  end.

(** The backward loop of TypeSequence over classes[c]. *)
Definition combine_prefix (classes : list (bool * classRef)) : Class.t :=
  foldl (fun class pc =>
           match snd pc with
           | ClassNil => class
           | ClassEmptyString =>
               if fst pc : bool then Class.intersection class Class.new
               else Class.union class Class.new
           | ClassPtr c =>
               if fst pc : bool then Class.intersection class c
               else Class.union class c
           end)
        Class.new (rev classes).

Definition set_expression (e : Node) (r : rule) : rule :=
  mkRule (rule_name r) (rule_id r) e (rule_hasActions r) (rule_variables r).

(** Writing the rewritten expression through the rule pointer. *)
Definition store_expression (id : Z) (e : Node) (l : list rule) : list rule :=
  map (fun r => if rule_id r =? id then set_expression e r else r) l.

Definition get_cache (id : Z) : MO cacheEntry := fun s =>
  if (0 <=? id) && (id <? Z.of_nat (length (o_cache s))) then
    match o_cache s !! Z.to_nat id with
    | Some c => Some (Ok (c, s))
    | None => Some (Panic IndexOutOfRange)
    end
  else Some (Panic IndexOutOfRange).

Definition put_cache (id : Z) (c : cacheEntry) : MO unit := fun s =>
  Some (Ok (tt, mkOs (o_rules s) (<[Z.to_nat id := c]> (o_cache s)))).

Definition put_expression (id : Z) (e : Node) : MO unit := fun s =>
  Some (Ok (tt, mkOs (store_expression id e (o_rules s)) (o_cache s))).

(** t.rules[name] with the expressions as the optimizer has them now. *)
Definition current_rule (t : Tree) (name : string) : MO (option rule) := fun s =>
  Some (Ok (match rules t !! name with
            | Some RuleAnon => Some (new_rule "" 0)
            | Some (RulePtr id) => find_rule (o_rules s) id
            | None => None
            end, s)).

(** The cases of optimizeAlternates on a node without children; [text] is
    node.String(). *)
Definition optimize_leaf (t : Tree) (ty : NodeType) (text : string) : result props :=
  match ty with
  | TypeDot => Ok (mkProps true false false (ClassPtr full_class))
  | TypeString | TypeCharacter =>
      if String.eqb text "" then Ok (mkProps true false false ClassEmptyString)
      else
        b ← first_byte text;
        Ok (mkProps true false false (ClassPtr (Class.add Class.new b)))
  | TypeClass =>
      Ok (mkProps true false false
            (match classes t !! text with
             | Some c => ClassPtr c
             | None => ClassNil
             end))
  | TypeAction | TypeNil => Ok (mkProps false false false (ClassPtr Class.new))
  | TypeRule | TypeAlternate | TypeSequence | TypePeekNot | TypePeekFor
  | TypeQuery | TypeStar | TypePlus => Panic TypeAssertion
  | _ => Ok zero_props
  end.

Definition count_true (l : list bool) : nat := length (filter (fun b => b = true) l).

(** The end of the TypeAlternate case, after the loop over the elements:
    [children] are the elements as they are now, [properties] the classes
    collected. *)
Definition finish_alternate (children : list Node) (properties : list classRef)
  (eof : bool) : result Node :=
  if eof then Ok (NodeList TypeAlternate children)
  else
    match properties with
    | [] => Panic IndexOutOfRange
    | _ :: _ =>
        flags ← intersect_flags properties;
        let intersections := (2 + count_true flags)%nat in
        if Nat.ltb intersections (length properties)
        then rewrite_alternate children (zip flags properties)
        else Ok (NodeList TypeAlternate children)
    end.

(** The TypeRule case around the visit [body] of the expression: excluded
    rules and rules already reached return at once ([None]: the expression
    was not visited). *)
Definition cached (t : Tree) (r : rule) (body : MO (props * Node))
  : MO (props * option Node) :=
  if bool_decide (rule_name r ∈ switchExcl t) then mret (zero_props, None)
  else
    cache ← get_cache (rule_id r);
    if c_reached cache then
      mret (mkProps (c_consumes cache) (c_eof cache) (c_peek cache) (c_class cache),
            None)
    else
      _ ← put_cache (rule_id r)
            (mkCache true (c_consumes cache) (c_eof cache) (c_peek cache)
                     (c_class cache));
      '(p, e') ← body;
      _ ← put_cache (rule_id r)
            (mkCache true (p_consumes p) (p_eof p) (p_peek p) (p_class p));
      mret (p, Some e').

(** The TypeRule case for a rule of the list (reached through its name or
    as the first rule): the rewritten expression is seen through the
    list. *)
Definition optimize_stored (t : Tree) (opt : Node -> MO (props * Node)) (r : rule)
  : MO props :=
  '(p, oe) ← cached t r (opt (GetExpression r));
  _ ← match oe, rule_expression r with
      | Some e', GoNil => mret tt
      | Some e', _ => put_expression (rule_id r) e'
      | None, _ => mret tt
      end;
  mret p.

(** optimizeAlternates.  The result is the tuple the Go function returns
    and the node as the function leaves it.  The fuel pays for entering a
    rule and for following a name. *)
Fixpoint optimizeAlternates (t : Tree) (fuel : nat) (node : Node) {struct fuel}
  : MO (props * Node) :=
  match fuel with
  | O => fun _ => None
  | S fuel' =>
    let by_name (text : string) : MO props :=
      r ← current_rule t text;
      match r with
      | None => panicO NilDereference
      | Some r => optimize_stored t (optimizeAlternates t fuel') r
      end in
    (fix go (node : Node) {struct node} : MO (props * Node) :=
       match node with
       | GoNil => panicO NilDereference
       | Rule r =>
           (* a rule that is itself a child, not one of the list *)
           '(p, oe) ← cached t r (optimizeAlternates t fuel' (GetExpression r));
           mret (p, match oe, rule_expression r with
                    | Some e', GoNil => node
                    | Some e', _ => Rule (set_expression e' r)
                    | None, _ => node
                    end)
       | Name text _ => p ← by_name text; mret (p, node)
       | Token TypeName text _ => p ← by_name text; mret (p, node)
       | Token ty text _ => p ← liftO (optimize_leaf t ty text); mret (p, node)
       | Action a => p ← liftO (optimize_leaf t TypeAction (act_text a)); mret (p, node)
       | NodeList ty items =>
           match ty with
           | TypeAlternate =>
               let n := length items in
               '(consumes, eof, peek, class, properties, children) ←
                 (fix loop (l : list Node) (c : nat)
                    (acc : bool * bool * bool * Class.t * list classRef * list Node)
                    {struct l}
                    : MO (bool * bool * bool * Class.t * list classRef * list Node) :=
                    match l with
                    | [] => mret acc
                    | element :: tl =>
                        let '(consumes, eof, peek, class, properties, children) := acc in
                        '(m, e') ← go element;
                        if Nat.eqb (c + 1) n &&
                           bool_decide (p_class m = ClassEmptyString)
                        then mret (consumes, eof, peek, class, properties,
                                   children ++ e' :: tl)
                        else
                          loop tl (S c)
                            (consumes && p_consumes m, eof || p_eof m,
                             peek && p_peek m, union_ref class (p_class m),
                             properties ++ [p_class m], children ++ [e'])
                    end) items 0%nat (true, false, true, Class.new, [], []);
               node' ← liftO (finish_alternate children properties eof);
               mret (mkProps consumes eof peek (ClassPtr class), node')
           | TypeSequence =>
               '(consumes, eof, peek, classes, children) ←
                 (fix loop (l : list Node)
                    (acc : bool * bool * bool * list (bool * classRef) * list Node)
                    {struct l}
                    : MO (bool * bool * bool * list (bool * classRef) * list Node) :=
                    match l with
                    | [] => mret acc
                    | element :: tl =>
                        let '(consumes, eof, peek, classes, children) := acc in
                        '(m, e') ← go element;
                        if consumes : bool then
                          loop tl (consumes, eof, peek, classes, children ++ [e'])
                        else
                          loop tl (p_consumes m, eof || p_eof m, peek || p_peek m,
                                   classes ++ [(p_peek m, p_class m)],
                                   children ++ [e'])
                    end) items (false, false, false, [], []);
               mret (mkProps consumes (negb consumes && eof) (negb consumes && peek)
                             (ClassPtr (combine_prefix classes)),
                     NodeList TypeSequence children)
           | TypePeekNot =>
               match items with
               | [] => panicO NilDereference
               | sub :: rest =>
                   '(m, e') ← go sub;
                   c ← liftO (deref_class (p_class m));
                   mret (mkProps false (negb (p_eof m)) true
                                 (ClassPtr (Class.complement c)),
                         NodeList ty (e' :: rest))
               end
           | TypePeekFor =>
               match items with
               | [] => panicO NilDereference
               | sub :: rest =>
                   '(m, e') ← go sub;
                   mret (mkProps false (p_eof m) true (p_class m),
                         NodeList ty (e' :: rest))
               end
           | TypeQuery | TypeStar =>
               match items with
               | [] => panicO NilDereference
               | sub :: rest =>
                   '(m, e') ← go sub;
                   mret (mkProps false (p_eof m) false (p_class m),
                         NodeList ty (e' :: rest))
               end
           | TypePlus =>
               match items with
               | [] => panicO NilDereference
               | sub :: rest =>
                   '(m, e') ← go sub;
                   mret (m, NodeList ty (e' :: rest))
               end
           | TypeRule => panicO TypeAssertion
           | TypeName => p ← by_name (node_String node); mret (p, node)
           | _ => p ← liftO (optimize_leaf t ty (node_String node)); mret (p, node)
           end
       end) node
  end.

(** The call on the first rule of the list, when the switch flag is set;
    the result is the list of rules with the rewritten expressions. *)
Definition optimize_pass (t : Tree) (fuel : nat) : option (result (list rule)) :=
  match ruleList t with
  | [] => Some (Ok [])
  | first :: _ =>
      match optimize_stored t (optimizeAlternates t fuel) first
              (mkOs (ruleList t)
                    (replicate (size (rules t)) (mkCache false false false false ClassNil))) with
      | Some (Ok (_, s)) => Some (Ok (o_rules s))
      | Some (Panic p) => Some (Panic p)
      | Some Diverge => Some Diverge
      | None => None
      end
  end.

(** ** The counting passes *)

(** counts[t]++ on an array indexed by node type. *)
Definition bump (ty : NodeType) (counts : list Z) : list Z :=
  alter (Z.add 1) (Z.to_nat (type_number ty)) counts.

Definition count_of (ty : NodeType) (counts : list Z) : Z :=
  default 0 (counts !! Z.to_nat (type_number ty)).

(** countTypes *)
Fixpoint countTypes (node : Node) (counts : list Z) : result (list Z) :=
  match node with
  | GoNil => Panic NilDereference
  | Rule r =>
      let counts := bump TypeRule counts in
      match r with
      | mkRule _ _ e _ _ =>
          match e with
          | GoNil => Ok (bump TypeNil counts)
          | _ => countTypes e counts
          end
      end
  | Name _ _ => Ok (bump TypeName counts)
  | Token ty _ _ =>
      match ty with
      | TypeRule | TypeAlternate | TypeUnorderedAlternate | TypeSequence
      | TypePeekFor | TypePeekNot | TypeQuery | TypeStar | TypePlus =>
          Panic TypeAssertion
      | _ => Ok (bump ty counts)
      end
  | Action _ => Ok (bump TypeAction counts)
  | NodeList ty items =>
      let counts := bump ty counts in
      match ty with
      | TypeRule => Panic TypeAssertion
      | TypeAlternate | TypeUnorderedAlternate | TypeSequence =>
          (fix each (l : list Node) (counts : list Z) {struct l} : result (list Z) :=
             match l with
             | [] => Ok counts
             | element :: tl => counts' ← countTypes element counts; each tl counts'
             end) items counts
      | TypePeekFor | TypePeekNot | TypeQuery | TypeStar | TypePlus =>
          match items with
          | [] => Panic NilDereference
          | sub :: _ => countTypes sub counts
          end
      | _ => Ok counts
      end
  end.

(** The loop [for _, rule := range t.rules { countTypes(rule) }]. *)
Definition count_types (t : Tree) : result (list Z) :=
  foldl (fun acc entry =>
           counts ← acc;
           match deref t (snd entry) with
           | Some r => countTypes (Rule r) counts
           | None => Panic NilDereference
           end)
        (Ok (replicate 22 0)) (map_to_list (rules t)).

Record countState : Type := mkCount {
  cnt_rules : gmap string Z;
  cnt_reached : list bool
}.

(** countRules; marks are never cleared, so every rule is entered once. *)
Fixpoint countRules (t : Tree) (fuel : nat) (node : Node) (st : countState)
  : option (result countState) :=
  match fuel with
  | O => None
  | S fuel' =>
      (fix go (node : Node) (st : countState) {struct node}
         : option (result countState) :=
         match node with
         | GoNil => Some (Panic NilDereference)
         | Rule r =>
             let name := rule_name r in
             let id := rule_id r in
             let counts :=
               <[name := default 0 (cnt_rules st !! name) + 1]> (cnt_rules st) in
             if (0 <=? id) && (id <? Z.of_nat (length (cnt_reached st))) then
               match cnt_reached st !! Z.to_nat id with
               | Some true => Some (Ok (mkCount counts (cnt_reached st)))
               | _ =>
                   countRules t fuel' (GetExpression r)
                     (mkCount counts (<[Z.to_nat id := true]> (cnt_reached st)))
               end
             else Some (Panic IndexOutOfRange)
         | Name text _ =>
             match rule_named t text with
             | Some r => countRules t fuel' (Rule r) st
             | None => Some (Panic NilDereference)
             end
         | Token ty _ _ =>
             match ty with
             | TypeRule | TypeAlternate | TypeUnorderedAlternate | TypeSequence
             | TypePeekFor | TypePeekNot | TypeQuery | TypeStar | TypePlus =>
                 Some (Panic TypeAssertion)
             | _ => Some (Ok st)
             end
         | Action _ => Some (Ok st)
         | NodeList ty items =>
             match ty with
             | TypeRule => Some (Panic TypeAssertion)
             | TypeAlternate | TypeUnorderedAlternate | TypeSequence =>
                 (fix each (l : list Node) (st : countState) {struct l} :=
                    match l with
                    | [] => Some (Ok st)
                    | element :: tl =>
                        match go element st with
                        | Some (Ok st') => each tl st'
                        | other => other
                        end
                    end) items st
             | TypePeekFor | TypePeekNot | TypeQuery | TypeStar | TypePlus =>
                 match items with
                 | [] => Some (Panic NilDereference)
                 | sub :: _ => go sub st
                 end
             | _ => Some (Ok st)
             end
         end) node st
  end.

(** The call on the first rule of the list. *)
Definition count_rules (t : Tree) (fuel : nat) : option (result (gmap string Z)) :=
  match ruleList t with
  | [] => Some (Ok ∅)
  | first :: _ =>
      match countRules t fuel (Rule first)
              (mkCount ∅ (replicate (size (rules t)) false)) with
      | Some (Ok st) => Some (Ok (cnt_rules st))
      | Some (Panic p) => Some (Panic p)
      | Some Diverge => Some Diverge
      | None => None
      end
  end.

(** ** The text templates of Compile *)

(** The package clause. *)
Definition tpl_package (p : string) : string :=
  "package " +:+
  p +:+
  "

import (
	" +:+
  quote +:+
  "fmt" +:+
  quote +:+
  "
	" +:+
  quote +:+
  "peg" +:+
  quote +:+
  "
)".

(** The parser type, Parse, PrintError and the head of Init. *)
Definition tpl_parser (pegname userstate nrules : string) : string :=
  ")

type " +:+
  pegname +:+
  " struct {" +:+
  userstate +:+
  "
	Buffer string
	Min, Max int
	rules [" +:+
  nrules +:+
  "]func() bool
	ResetBuffer	func(string) string
}

func (p *" +:+
  pegname +:+
  ") Parse(ruleId int) bool {
	if p.rules[ruleId]() {
		return true
	}
	return false
}
func (p *" +:+
  pegname +:+
  ") PrintError() {
	line := 1
	character := 0
	for i, c := range p.Buffer[0:] {
		if c == '\n' {
			line++
			character = 0
		} else {
			character++
		}
		if i == p.Min {
			if p.Min != p.Max {
				fmt.Printf(" +:+
  quote +:+
  "parse error after line %v character %v\n" +:+
  quote +:+
  ", line, character)
			} else {
				break
			}
		} else if i == p.Max {
			break
		}
	}
	fmt.Printf(" +:+
  quote +:+
  "parse error: unexpected " +:+
  quote +:+
  ")
	if p.Max >= len(p.Buffer) {
		fmt.Printf(" +:+
  quote +:+
  "end of file found\n" +:+
  quote +:+
  ")
	} else {
		fmt.Printf(" +:+
  quote +:+
  "'%c' at line %v character %v\n" +:+
  quote +:+
  ", p.Buffer[p.Max], line, character)
	}
}
func (p *" +:+
  pegname +:+
  ") Init() {
	var position int".

(** The value stack. *)
Definition tpl_yyval (yystype : string) : string :=
  "
	var yyp int
	var yy " +:+
  yystype +:+
  "
	var yyval = make([]" +:+
  yystype +:+
  ", 200)
".

(** The meta actions yyPush, yyPop and yySet, after the user actions. *)
Definition tpl_yymeta (nact yystype nact1 nact2 : string) : string :=
  "
		/* " +:+
  nact +:+
  " yyPush */
		func(_ string, count int) {
			yyp += count
			if yyp >= len(yyval) {
				s := make([]" +:+
  yystype +:+
  ", cap(yyval)+200)
				copy(s, yyval)
				yyval = s
			}
		},
		/* " +:+
  nact1 +:+
  " yyPop */
		func(_ string, count int) {
			yyp -= count
		},
		/* " +:+
  nact2 +:+
  " yySet */
		func(_ string, count int) {
			yyval[yyp+count] = yy
		},
	}
	const (
		yyPush = " +:+
  nact +:+
  "+iota
		yyPop
		yySet
	)
".

(** The thunk buffer, doarg and do. *)
Definition tpl_thunks (bits : string) : string :=
  "
	var thunkPosition, begin, end int
	thunks := make([]struct {action uint" +:+
  bits +:+
  "; begin, end int}, 32)
	doarg := func(action uint" +:+
  bits +:+
  ", arg int) {
		if thunkPosition == len(thunks) {
			newThunks := make([]struct {action uint" +:+
  bits +:+
  "; begin, end int}, 2 * len(thunks))
			copy(newThunks, thunks)
			thunks = newThunks
		}
		thunks[thunkPosition].action = action
		if arg != 0 {
			thunks[thunkPosition].begin = arg // use begin to store an argument
		} else {
			thunks[thunkPosition].begin = begin
		}
		thunks[thunkPosition].end = end
		thunkPosition++
	}
	do := func(action uint" +:+
  bits +:+
  ") {
		doarg(action, 0)
	}".

(** ResetBuffer. *)
Definition tpl_resetBuffer : string :=
  "
	p.ResetBuffer = func(s string) (old string) {
		if p.Max < len(p.Buffer) {
			old = p.Buffer[p.Max:]
		}
		p.Buffer = s
		thunkPosition = 0
		position = 0
		p.Min = 0
		p.Max = 0
		return
	}
".

(** The function commit. *)
Definition tpl_commit : string :=
  "
	commit := func(thunkPosition0 int) bool {
		if thunkPosition0 == 0 {
			for i := 0; i < thunkPosition; i++ {
				b := thunks[i].begin
				e := thunks[i].end
				s := " +:+
  quote +:+
  quote +:+
  "
				if b>=0 && e<=len(p.Buffer) && b<=e {
					s = p.Buffer[b:e]
				}
				magic := b
				actions[thunks[i].action](s, magic)
			}
			p.Min = position
			thunkPosition = 0
			return true
		}
		return false
	}".

(** matchDot and peekDot. *)
Definition tpl_matchDot : string :=
  "
	matchDot := func() bool {
		if position < len(p.Buffer) {
			position++
			return true
		} else if position >= p.Max {
			p.Max = position
		}
		return false
	}
	peekDot := func() bool {
		return position < len(p.Buffer)
	}
	_ = peekDot
".

(** matchChar and peekChar. *)
Definition tpl_matchChar : string :=
  "
	matchChar := func(c byte) bool {
		if (position < len(p.Buffer)) && (p.Buffer[position] == c) {
			position++
			return true
		} else if position >= p.Max {
			p.Max = position
		}
		return false
	}
	peekChar := func(c byte) bool {
		return position < len(p.Buffer) && p.Buffer[position] == c
	}
	_ = peekChar
".

(** matchString. *)
Definition tpl_matchString : string :=
  "
	matchString := func(s string) bool {
		length := len(s)
		next := position + length
		if (next <= len(p.Buffer)) && (p.Buffer[position:next] == s) {
			position = next
			return true
		} else if position >= p.Max {
			p.Max = position
		}
		return false
	}".

(** The end of the class table, and matchClass. *)
Definition tpl_matchClass : string :=
  "	}
	matchClass := func(class uint) bool {
		if (position < len(p.Buffer)) &&
			((classes[class][p.Buffer[position]>>3] & (1 << (p.Buffer[position] & 7))) != 0) {
			position++
			return true
		} else if position >= p.Max {
			p.Max = position
		}
		return false
	}".

(** ** Compile *)

(** a.Print(w): the offsets -1, -2, ... are written into the variables of
    the rule of the action, then the prelude, the text and the postlude
    go to the writer.  The variables are visited in the order of the
    list (Go leaves the order of a map open). *)
Definition assign_offsets (vars : list (string * Z)) : list (string * Z) :=
  imap (fun i v => (fst v, - Z.of_nat (S i))) vars.

Definition action_indent : string := nl +:+ tab +:+ tab +:+ tab.

Definition print_action (a : action) (s : list rule * writer) : result (list rule * writer) :=
  let '(rs, w) := s in
  match find_rule rs (act_rule a) with
  | None => Panic NilDereference
  | Some r =>
      let vars := assign_offsets (rule_variables r) in
      let rs' := map (fun r' => if rule_id r' =? act_rule a
                                then mkRule (rule_name r') (rule_id r') (rule_expression r')
                                            (rule_hasActions r') vars
                                else r') rs in
      let w1 := foldl (fun w v =>
                         write (action_indent +:+ fst v +:+ " := yyval[yyp" +:+
                                pretty (snd v) +:+ "]") w) w vars in
      let w2 := write (action_indent +:+ act_text a) w1 in
      let w3 := foldl (fun w v =>
                         write (action_indent +:+ "yyval[yyp" +:+ pretty (snd v) +:+
                                "] = " +:+ fst v) w) w2 vars in
      Ok (rs', w3)
  end.

(** a.rule.String(): the rule of an action is found in the list by its
    id.  A rule that never got its expression is not in the list, and its
    actions have no rule here, where Go still reaches the rule through the
    pointer of the action. *)
Definition rule_name_of (rs : list rule) (id : Z) : result string :=
  match find_rule rs id with
  | Some r => Ok (rule_name r)
  | None => Panic NilDereference
  end.

(** The loop over t.Actions. *)
Definition print_actions (acts : list action) (s : list rule * writer)
  : result (list rule * writer) :=
  foldl (fun acc a =>
           '(rs, w) ← acc;
           name ← rule_name_of rs (act_rule a);
           let w1 := lnPrint ("/* " +:+ pretty (act_id a) +:+ " " +:+ name +:+ " */") w in
           let w2 := lnPrint "func(yytext string, _ int) {" w1 in
           '(rs', w3) ← print_action a (rs, w2);
           Ok (rs', lnPrint "}," w3))
        (Ok s) acts.

(** The constants rule<Name>. *)
Definition print_rule_consts (rs : list rule) (w : writer) : writer :=
  foldl (fun w r =>
           if rule_id r =? 0
           then print (tab +:+ "rule" +:+ goString r +:+ tab +:+ "= iota" +:+ nl) w
           else print (tab +:+ "rule" +:+ goString r +:+ nl) w)
        w rs.

(** The table of classes; the result also gives every class its index. *)
Definition print_class (acc : Z * gmap string Z * writer) (entry : string * Class.t)
  : Z * gmap string Z * writer :=
  let '(index, m, w) := acc in
  let w1 := print (tab +:+ tab +:+ "{") w in
  let '(_, w2) :=
    foldl (fun (a : string * writer) (b : Z) =>
             let '(sep, w) := a in (", ", print (sep +:+ pretty b) w))
          ("", w1) (snd entry) in
  (index + 1, <[fst entry := index]> m, print ("}," +:+ nl) w2).

Definition print_classes (cls : list (string * Class.t)) (w : writer)
  : gmap string Z * writer :=
  let '(_, m, w') := foldl print_class (0, ∅, w) cls in (m, w').

(** printRule: the grammar text in the comment before a rule. *)
Fixpoint printRule (node : Node) : M unit :=
  match node with
  | GoNil => panicM NilDereference
  | Rule r =>
      _ ← doP (print (rule_name r +:+ " <- "));
      match r with
      | mkRule _ _ e _ _ =>
          match e with
          | GoNil => mret tt
          | _ => if is_nilNode e then mret tt else printRule e
          end
      end
  | Name text _ => doP (print text)
  | Action a => doP (print ("{" +:+ act_text a +:+ "}"))
  | Token ty text _ =>
      match ty with
      | TypeDot => doP (print ".")
      | TypeName => doP (print text)
      | TypeCharacter | TypeString => doP (print ("'" +:+ text +:+ "'"))
      | TypeClass => doP (print ("[" +:+ text +:+ "]"))
      | TypePredicate => doP (print ("&{" +:+ text +:+ "}"))
      | TypeAction => doP (print ("{" +:+ text +:+ "}"))
      | TypeCommit => doP (print "commit")
      | TypeBegin => doP (print "<")
      | TypeEnd => doP (print ">")
      | TypeRule | TypeAlternate | TypeUnorderedAlternate | TypeSequence
      | TypePeekFor | TypePeekNot | TypeQuery | TypeStar | TypePlus =>
          panicM TypeAssertion
      | _ => eprint ("illegal node type: " +:+ pretty (type_number ty) +:+ nl)
      end
  | NodeList ty items =>
      let joined (sep : string) : M unit :=
        _ ← doP (print "(");
        match items with
        | [] => panicM NilDereference
        | first :: rest =>
            _ ← printRule first;
            _ ← (fix each (l : list Node) {struct l} : M unit :=
                   match l with
                   | [] => mret tt
                   | element :: tl =>
                       _ ← doP (print sep); _ ← printRule element; each tl
                   end) rest;
            doP (print ")")
        end in
      let prefix (op : string) : M unit :=
        _ ← doP (print op);
        match items with
        | [] => panicM NilDereference
        | sub :: _ => printRule sub
        end in
      let suffix (op : string) : M unit :=
        match items with
        | [] => panicM NilDereference
        | sub :: _ => _ ← printRule sub; doP (print op)
        end in
      match ty with
      | TypeAlternate => joined " / "
      | TypeUnorderedAlternate => joined " | "
      | TypeSequence => joined " "
      | TypePeekFor => prefix "&"
      | TypePeekNot => prefix "!"
      | TypeQuery => suffix "?"
      | TypeStar => suffix "*"
      | TypePlus => suffix "+"
      | TypeRule => panicM TypeAssertion
      | TypeDot => doP (print ".")
      | TypeName => doP (print (node_String node))
      | TypeCharacter | TypeString => doP (print ("'" +:+ node_String node +:+ "'"))
      | TypeClass => doP (print ("[" +:+ node_String node +:+ "]"))
      | TypePredicate => doP (print ("&{" +:+ node_String node +:+ "}"))
      | TypeAction => doP (print ("{" +:+ node_String node +:+ "}"))
      | TypeCommit => doP (print "commit")
      | TypeBegin => doP (print "<")
      | TypeEnd => doP (print ">")
      | _ => eprint ("illegal node type: " +:+ pretty (type_number ty) +:+ nl)
      end
  end.

Definition set_label_sid (l : nat) (sid : Z) (w : writer) : result writer :=
  lab ← get_label l w; Ok (put_label l (set_sid sid lab) w).

Definition label_id_of (l : nat) (w : writer) : result nat :=
  lab ← get_label l w; Ok (label_id lab).

(** Is the rule compiled into the rule that uses it, and so has no body of
    its own?  [count, ok := t.rulesCount[...]; ok && t.inline && count == 1
    && ko.id != 0] *)
Definition inlined_away (t : Tree) (r : rule) (ko_id : nat) : bool :=
  match rulesCount t !! rule_name r with
  | None => false
  | Some count => inline t && (count =? 1) && negb (Nat.eqb ko_id 0)
  end.

(** One round of the loop of the dry pass. *)
Definition dry_rule (env : cenv) (fuel : nat) (r : rule) : M unit :=
  if is_nilNode (GetExpression r) then mret tt
  else
    ko ← mkLabelM;
    _ ← doW (set_label_sid ko 0);
    id ← askW (label_id_of ko);
    if inlined_away (env_tree env) r id then mret tt
    else
      _ ← doW (save ko);
      '(cko, _) ← compileExpression env fuel r ko;
      used ← askW (is_used ko);
      when used (doW (restore ko (chg_pos cko) (chg_thPos cko))).

Definition undefined_message (name : string) : string :=
  "rule '" +:+ name +:+ "' used but not defined" +:+ nl.

Definition unused_message (name : string) : string :=
  "rule '" +:+ name +:+ "' defined but not used" +:+ nl.

(** One round of the loop of the real pass: the entry of a rule in the
    table p.rules. *)
Definition real_rule (env : cenv) (fuel : nat) (r : rule) : M unit :=
  if is_nilNode (GetExpression r) then
    _ ← eprint (undefined_message (rule_name r));
    doP (lnPrint "nil,")
  else
    ko ← mkLabelM;
    _ ← doW (set_label_sid ko 0);
    _ ← doP (lnPrint ("/* " +:+ pretty (rule_id r) +:+ " "));
    _ ← printRule (Rule r);
    _ ← doP (print " */");
    _ ← match rulesCount (env_tree env) !! rule_name r with
        | None => eprint (unused_message (rule_name r))
        | Some _ => mret tt
        end;
    id ← askW (label_id_of ko);
    if inlined_away (env_tree env) r id then doP (lnPrint "nil,")
    else
      _ ← doP (lnPrint "func() bool {");
      _ ← doP (indent_by 1);
      _ ← doW (save ko);
      '(cko, _) ← compileExpression env fuel r ko;
      _ ← doP (lnPrint "return true");
      used ← askW (is_used ko);
      _ ← when used (_ ← doW (restore ko (chg_pos cko) (chg_thPos cko));
                    doP (lnPrint "return false"));
      _ ← doP (indent_by (-1));
      doP (lnPrint "},").

(** A loop over the rules of the list. *)
Fixpoint for_rules (f : rule -> M unit) (rs : list rule) : M unit :=
  match rs with
  | [] => mret tt
  | r :: rs' => _ ← f r; for_rules f rs'
  end.

(** The two passes over the rules, and the table between them. *)
Definition emit_rules (env : cenv) (fuel : nat) : M unit :=
  let rs := ruleList (env_tree env) in
  _ ← doP (setDry true);
  _ ← for_rules (dry_rule env fuel) rs;
  _ ← doP (setDry false);
  _ ← doP (print (nl +:+ tab +:+ "p.rules = [...]func() bool{"));
  _ ← for_rules (real_rule env fuel) rs;
  _ ← doP (print (nl +:+ tab +:+ "}"));
  doP (print (nl +:+ "}" +:+ nl)).

Definition define_of (t : Tree) (name : string) : string :=
  default "" (defines t !! name).

(** The text before the actions: headers, package clause, the constants of
    the rules, the parser type and the value stack. *)
Definition print_prelude (t : Tree) (nvar : Z) (w : writer) : writer :=
  let w := foldl (fun w s => print s w) w (headers t) in
  let p := define_of t "package" in
  let w := if String.eqb p "" then w else print (tpl_package p) w in
  let w := print (nl +:+ "const (" +:+ nl) w in
  let w := print_rule_consts (ruleList t) w in
  let pegname := define_of t "Peg" in
  let w := print (tpl_parser pegname (define_of t "userstate")
                             (pretty (size (rules t)))) w in
  if 0 <? nvar
  then print (tpl_yyval (define_of t "yystype")) w
  else w.

(** The actions and what comes with them; the rules come back with the
    offsets of their variables set. *)
Definition print_action_table (t : Tree) (nvar : Z) (counts : list Z) (w : writer)
  : result (list rule * writer) :=
  match Actions t with
  | [] => Ok (ruleList t, w)
  | _ :: _ =>
      let nact := Z.of_nat (length (Actions t)) in
      let bits := action_bits nact in
      let w := print (nl +:+ tab +:+ "actions := [...]func(string, int){") w in
      '(rs, w) ← print_actions (Actions t) (ruleList t, w);
      let w :=
        if 0 <? nvar
        then print (tpl_yymeta (pretty nact) (define_of t "yystype")
                               (pretty (nact + 1)) (pretty (nact + 2))) w
        else print (tab +:+ "}" +:+ nl) w in
      let w := print (tpl_thunks (pretty bits)) w in
      let w := print tpl_resetBuffer w in
      let w := if 0 <? count_of TypeCommit counts then print tpl_commit w else w in
      Ok (rs, set_hasCommit true w)
  end.

Definition print_matchers (counts : list Z) (w : writer) : writer :=
  let w := if 0 <? count_of TypeDot counts then print tpl_matchDot w else w in
  let w := if 0 <? count_of TypeCharacter counts then print tpl_matchChar w else w in
  if 0 <? count_of TypeString counts then print tpl_matchString w else w.

Definition print_class_table (t : Tree) (w : writer) : gmap string Z * writer :=
  match map_to_list (classes t) with
  | [] => (∅, w)
  | cls =>
      let w := print (nl +:+ tab +:+ "classes := [...][32]uint8{" +:+ nl) w in
      let '(m, w) := print_classes cls w in
      (m, print tpl_matchClass w)
  end.

Definition lift_result {A B : Type} (r : result A) (k : A -> option (result B))
  : option (result B) :=
  match r with
  | Ok a => k a
  | Panic p => Some (Panic p)
  | Diverge => Some Diverge
  end.

Definition lift_fuel {A B : Type} (r : option (result A)) (k : A -> option (result B))
  : option (result B) :=
  match r with
  | Some (Ok a) => k a
  | Some (Panic p) => Some (Panic p)
  | Some Diverge => Some Diverge
  | None => None
  end.

(** The analyses before any text is written: the tree with the rules
    registered, the counts, the error stream of the left-recursion pass,
    and the rewritten alternations when the switch flag is set. *)
Definition analyse (t : Tree) (fuel : nat)
  : option (result (Tree * list Z * list string)) :=
  let t1 := prepare t in
  lift_result (count_types t1) (fun counts =>
  lift_fuel (count_rules t1 fuel) (fun rc =>
  let t2 := set_rulesCount rc t1 in
  lift_fuel (recursion_pass t2 fuel) (fun err =>
  lift_fuel (if _switch t2 then optimize_pass t2 fuel else Some (Ok (ruleList t2)))
    (fun rs => Some (Ok (set_ruleList rs t2, counts, err)))))).

(** Everything Compile writes to the file, once it is created. *)
Definition emit (t : Tree) (counts : list Z) (fuel : nat) : M unit := fun s =>
  let nvar := count_nvar t in
  let w := print_prelude t nvar (cs_w s) in
  match print_action_table t nvar counts w with
  | Panic p => Some (Panic p)
  | Diverge => Some Diverge
  | Ok (rs, w) =>
      let t' := set_ruleList rs t in
      let w := print_matchers counts w in
      let '(cls, w) := print_class_table t' w in
      let env := mkEnv t' cls (negb (Nat.eqb (length (Actions t')) 0)) in
      (_ ← emit_rules env fuel;
       doP (fun w => foldl (fun w s => print s w) w (trailers t')))
        (mkCs w (cs_err s))
  end.

(** Compile(file).  [created] tells whether os.Create succeeded; the result
    is the text of the file and the error stream. *)
Definition Compile (t : Tree) (fuel : nat) (created : bool)
  : option (result (list string * list string)) :=
  lift_fuel (analyse t fuel) (fun '(t', counts, err) =>
    if created then
      lift_fuel (emit t' counts fuel (mkCs newWriter err))
        (fun '(_, s) => Some (Ok (sink (cs_w s), cs_err s)))
    else Some (Ok ([], err))).

(** ** Rules that are used but not defined *)

(** The ids of the rules of the list are distinct and below the next id. *)
Definition distinct_ids (t : Tree) : Prop :=
  NoDup (rule_id <$> ruleList t) /\
  forall r, r ∈ ruleList t -> rule_id r < ruleId t.

(** The rule at slot [i] has the name [R] and no expression. *)
Definition placeholder_at (rs : list rule) (i : nat) (R : string) : Prop :=
  exists r, rs !! i = Some r /\ rule_name r = R /\ rule_expression r = GoNil.

(** A later list has the same rules at the same slots, a rule without
    expression still without one. *)
Definition frame (rs rs' : list rule) : Prop :=
  Forall2 (fun r r' => rule_name r' = rule_name r /\ rule_id r' = rule_id r /\
                       (rule_expression r = GoNil -> rule_expression r' = GoNil))
          rs rs'.

Lemma frame_refl (rs : list rule) : frame rs rs.
Proof. apply Forall2_same_length_lookup_2; [done|]. intros i x y Hx Hy. by simplify_eq. Qed.

Lemma frame_trans (rs1 rs2 rs3 : list rule) :
  frame rs1 rs2 -> frame rs2 rs3 -> frame rs1 rs3.
Proof.
  intros H12 H23. eapply Forall2_trans; [|exact H12|exact H23].
  intros x y z (Hn1 & Hi1 & He1) (Hn2 & Hi2 & He2). repeat split; [congruence..|auto].
Qed.

Lemma frame_ids (rs rs' : list rule) : frame rs rs' -> rule_id <$> rs' = rule_id <$> rs.
Proof. induction 1 as [|x y l k (_ & Hi & _) _ IH]; [done|]. cbn. by rewrite Hi, IH. Qed.

Lemma frame_placeholder (rs rs' : list rule) (i : nat) (R : string) :
  frame rs rs' -> placeholder_at rs i R -> placeholder_at rs' i R.
Proof.
  intros Hf (r & Hr & Hn & He).
  destruct (Forall2_lookup_l _ _ _ _ _ Hf Hr) as (r' & Hr' & Hn' & _ & He').
  exists r'. repeat split; [done|congruence|auto].
Qed.

Lemma frame_store (rs0 rs : list rule) (id : Z) (e : Node) :
  frame rs0 rs ->
  (forall r0, r0 ∈ rs0 -> rule_id r0 = id -> rule_expression r0 <> GoNil) ->
  frame rs0 (store_expression id e rs).
Proof.
  intros Hf. induction Hf as [|x y l k (Hn & Hi & He) _ IH]; intros Hid; [constructor|].
  cbn. constructor.
  - destruct (Z.eqb_spec (rule_id y) id) as [Hy|Hy]; [|done].
    cbn. repeat split; [done..|].
    intros Hx. exfalso. apply (Hid x); [by left|congruence|done].
  - apply IH. intros r0 Hr0. apply Hid. by right.
Qed.

Lemma find_rule_Some (rs : list rule) (id : Z) (r : rule) :
  find_rule rs id = Some r -> rule_id r = id /\ exists j, rs !! j = Some r.
Proof.
  unfold find_rule. induction rs as [|x rs IH]; [done|]. cbn.
  destruct (Z.eqb_spec (rule_id x) id) as [Hx|Hx].
  - intros [= <-]. split; [done|]. by exists 0%nat.
  - intros H. destruct (IH H) as [Hid [j Hj]]. split; [done|]. by exists (S j).
Qed.

(** A rule found with an expression is none of the rules without one. *)
Lemma find_rule_frame (rs0 rs : list rule) (id : Z) (r : rule) :
  NoDup (rule_id <$> rs0) -> frame rs0 rs ->
  find_rule rs id = Some r -> rule_expression r <> GoNil ->
  forall r0, r0 ∈ rs0 -> rule_id r0 = rule_id r -> rule_expression r0 <> GoNil.
Proof.
  intros Hnd Hf Hfind He r0 Hr0 Hid Hblank.
  apply find_rule_Some in Hfind as [_ [j Hj]].
  apply list_elem_of_lookup in Hr0 as [i Hi].
  destruct (Forall2_lookup_l _ _ _ _ _ Hf Hi) as (r' & Hr' & _ & Hi' & He').
  rewrite <- (frame_ids _ _ Hf) in Hnd.
  assert (i = j) as ->.
  { eapply NoDup_lookup; [exact Hnd| |].
    - rewrite list_lookup_fmap, Hr'. reflexivity.
    - rewrite list_lookup_fmap, Hj. cbn. congruence. }
  apply He. rewrite Hr' in Hj. injection Hj as <-. auto.
Qed.

Section OptimizerFrame.

Variable t : Tree.
Variable rs0 : list rule.
Hypothesis Hids : NoDup (rule_id <$> rs0).

(** A step of the optimizer that leaves the rules in their slots. *)
Definition keeps {A : Type} (m : MO A) : Prop :=
  forall s a s', frame rs0 (o_rules s) -> m s = Some (Ok (a, s')) ->
                 frame rs0 (o_rules s').

Lemma keeps_ret {A : Type} (a : A) : keeps (mret a).
Proof. intros s a' s' Hf [= _ <-]. exact Hf. Qed.

Lemma keeps_bind {A B : Type} (m : MO A) (f : A -> MO B) :
  keeps m -> (forall a, keeps (f a)) -> keeps (m ≫= f).
Proof.
  intros Hm Hk s b s' Hf H. unfold mbind, MO_bind in H.
  destruct (m s) as [[[a s1]| |]|] eqn:Hms; try discriminate.
  eapply Hk; [|exact H]. eapply Hm; [exact Hf|exact Hms].
Qed.

Lemma keeps_liftO {A : Type} (r : result A) : keeps (liftO r).
Proof. intros s b s' Hf H. unfold liftO in H. destruct r; simplify_eq. exact Hf. Qed.

Lemma keeps_panicO {A : Type} (p : panic) : keeps (@panicO A p).
Proof. intros s b s' Hf H. discriminate. Qed.

Lemma keeps_get_cache (id : Z) : keeps (get_cache id).
Proof.
  intros s b s' Hf H. unfold get_cache in H.
  repeat case_match; simplify_eq. exact Hf.
Qed.

Lemma keeps_put_cache (id : Z) (c : cacheEntry) : keeps (put_cache id c).
Proof. intros s b s' Hf [= _ <-]. exact Hf. Qed.

Lemma keeps_cached (r : rule) (body : MO (props * Node)) :
  keeps body -> keeps (cached t r body).
Proof.
  intros Hb. unfold cached. case_bool_decide; [apply keeps_ret|].
  apply keeps_bind; [apply keeps_get_cache|]. intros cache.
  destruct (c_reached cache); [apply keeps_ret|].
  apply keeps_bind; [apply keeps_put_cache|]. intros _.
  apply keeps_bind; [exact Hb|]. intros [p e'].
  apply keeps_bind; [apply keeps_put_cache|]. intros _. apply keeps_ret.
Qed.

Lemma keeps_stored (opt : Node -> MO (props * Node)) (r : rule) :
  keeps (opt (GetExpression r)) ->
  (rule_expression r <> GoNil ->
   forall r0, r0 ∈ rs0 -> rule_id r0 = rule_id r -> rule_expression r0 <> GoNil) ->
  keeps (optimize_stored t opt r).
Proof.
  intros Hopt Hr. unfold optimize_stored.
  apply keeps_bind; [by apply keeps_cached|]. intros [p oe].
  apply keeps_bind; [|intros; apply keeps_ret].
  destruct oe as [e'|]; [|apply keeps_ret].
  destruct (rule_expression r) eqn:He; try apply keeps_ret;
    (intros s b s' Hf [= _ <-]; cbn; apply frame_store; [exact Hf|];
     apply Hr; discriminate).
Qed.

Lemma keeps_by_name (opt : Node -> MO (props * Node)) (text : string) :
  (forall e, keeps (opt e)) ->
  keeps (r ← current_rule t text;
         match r with
         | None => panicO NilDereference
         | Some r => optimize_stored t opt r
         end).
Proof.
  intros Hopt s b s' Hf H. unfold mbind, MO_bind, current_rule in H.
  destruct (rules t !! text) as [[|id]|].
  - revert H. apply keeps_stored; [apply Hopt|done|exact Hf].
  - destruct (find_rule (o_rules s) id) as [r|] eqn:Hfind; [|discriminate].
    revert H. apply keeps_stored; [apply Hopt| |exact Hf].
    intros He. by eapply find_rule_frame.
  - discriminate.
Qed.

Lemma keeps_optimize (fuel : nat) (node : Node) : keeps (optimizeAlternates t fuel node).
Proof.
  revert node. induction fuel as [|f IHf]; intros node; [by intros s b s' _ H|].
  induction node as [|r _|n v|ty text cl|a|ty items IH] using Node_ind'.
  - apply keeps_panicO.
  - cbn. apply keeps_bind; [apply keeps_cached, IHf|]. intros [p oe]. apply keeps_ret.
  - cbn. apply keeps_bind; [by apply keeps_by_name|]. intros. apply keeps_ret.
  - destruct ty; cbn;
      (apply keeps_bind; [first [by apply keeps_by_name|apply keeps_liftO]|intros; apply keeps_ret]).
  - cbn. apply keeps_bind; [apply keeps_liftO|intros; apply keeps_ret].
  - destruct ty.
    all: try (cbn; apply keeps_bind;
              [first [by apply keeps_by_name|apply keeps_liftO]|intros; apply keeps_ret]).
    all: try apply keeps_panicO.
    + (* alternation *)
      cbn. apply keeps_bind.
      2:{ intros [[[[[consumes eof] peek] class] properties] children].
          apply keeps_bind; [apply keeps_liftO|intros; apply keeps_ret]. }
      match goal with
      | |- keeps (?loop items ?c0 ?acc0) =>
          assert (Hloop : forall l c acc,
                    Forall (fun n => keeps (optimizeAlternates t (S f) n)) l ->
                    keeps (loop l c acc)); [|by apply Hloop]
      end.
      intros l. induction l as [|x rest IHrest]; intros c acc Hl; [cbn; apply keeps_ret|].
      apply Forall_cons in Hl as [Hx Hrest].
      destruct acc as [[[[[consumes eof] peek] class] properties] children].
      cbn. apply keeps_bind; [exact Hx|]. intros [m e'].
      case_match; [apply keeps_ret|by apply IHrest].
    + (* sequence *)
      cbn. apply keeps_bind.
      2:{ intros [[[[consumes eof] peek] classes] children]. apply keeps_ret. }
      match goal with
      | |- keeps (?loop items ?acc0) =>
          assert (Hloop : forall l acc,
                    Forall (fun n => keeps (optimizeAlternates t (S f) n)) l ->
                    keeps (loop l acc)); [|by apply Hloop]
      end.
      intros l. induction l as [|x rest IHrest]; intros acc Hl; [cbn; apply keeps_ret|].
      apply Forall_cons in Hl as [Hx Hrest].
      destruct acc as [[[[consumes eof] peek] classes] children].
      cbn. apply keeps_bind; [exact Hx|]. intros [m e'].
      destruct consumes; by apply IHrest.
    + destruct items as [|sub rest]; cbn; [apply keeps_panicO|].
      apply Forall_cons in IH as [IHx _].
      apply keeps_bind; [exact IHx|]. intros [m e']. apply keeps_ret.
    + destruct items as [|sub rest]; cbn; [apply keeps_panicO|].
      apply Forall_cons in IH as [IHx _].
      apply keeps_bind; [exact IHx|]. intros [m e'].
      apply keeps_bind; [apply keeps_liftO|intros; apply keeps_ret].
    + destruct items as [|sub rest]; cbn; [apply keeps_panicO|].
      apply Forall_cons in IH as [IHx _].
      apply keeps_bind; [exact IHx|]. intros [m e']. apply keeps_ret.
    + destruct items as [|sub rest]; cbn; [apply keeps_panicO|].
      apply Forall_cons in IH as [IHx _].
      apply keeps_bind; [exact IHx|]. intros [m e']. apply keeps_ret.
    + destruct items as [|sub rest]; cbn; [apply keeps_panicO|].
      apply Forall_cons in IH as [IHx _].
      apply keeps_bind; [exact IHx|]. intros [m e']. apply keeps_ret.
Qed.

End OptimizerFrame.

(** The optimizer leaves every rule in its slot, and a rule without
    expression without one. *)
Lemma optimize_pass_frame (t : Tree) (fuel : nat) (rs : list rule) :
  NoDup (rule_id <$> ruleList t) ->
  optimize_pass t fuel = Some (Ok rs) -> frame (ruleList t) rs.
Proof.
  intros Hnd. unfold optimize_pass.
  destruct (ruleList t) as [|first rest] eqn:Hl; [intros [= <-]; constructor|].
  match goal with
  | |- context [optimize_stored t ?opt first ?s0] =>
      destruct (optimize_stored t opt first s0) as [[[p s]| |]|] eqn:Hopt;
        try discriminate
  end.
  intros [= <-].
  pose proof (keeps_stored t (first :: rest) (optimizeAlternates t fuel) first) as K.
  unfold keeps in K. eapply K; [| | |exact Hopt].
  - intros s1 a1 s2. by apply keeps_optimize.
  - intros He r0 Hr0 Hid. apply NoDup_cons in Hnd as [Hnot _].
    apply elem_of_cons in Hr0 as [->|Hr0]; [done|].
    exfalso. apply Hnot. rewrite <- Hid. by apply list_elem_of_fmap_2.
  - apply frame_refl.
Qed.

(** Assigning the offsets of the variables changes neither the slots nor
    the expressions. *)
Lemma print_action_frame (a : action) (rs rs' : list rule) (w w' : writer) :
  print_action a (rs, w) = Ok (rs', w') -> frame rs rs'.
Proof.
  unfold print_action. destruct (find_rule rs (act_rule a)) as [r|]; [|discriminate].
  intros [= <- _]. apply Forall2_fmap_r.
  apply Forall2_same_length_lookup_2; [done|].
  intros i x y Hx Hy. rewrite Hx in Hy. injection Hy as <-. cbn.
  by destruct (rule_id x =? act_rule a).
Qed.

Lemma print_actions_frame (acts : list action) (rs rs' : list rule) (w w' : writer) :
  print_actions acts (rs, w) = Ok (rs', w') -> frame rs rs'.
Proof.
  unfold print_actions.
  assert (H : forall (acc : result (list rule * writer)),
            foldl (fun acc a =>
                     '(rs, w) ← acc;
                     name ← rule_name_of rs (act_rule a);
                     let w1 := lnPrint ("/* " +:+ pretty (act_id a) +:+ " " +:+ name +:+ " */") w in
                     let w2 := lnPrint "func(yytext string, _ int) {" w1 in
                     '(rs', w3) ← print_action a (rs, w2);
                     Ok (rs', lnPrint "}," w3)) acc acts = Ok (rs', w') ->
            exists rs1 w1, acc = Ok (rs1, w1) /\ frame rs1 rs').
  { induction acts as [|a acts IH]; intros acc Hacc.
    - cbn in Hacc. subst acc. eexists _, _. split; [done|apply frame_refl].
    - cbn [foldl] in Hacc. apply IH in Hacc as (rs2 & w2 & Hstep & Hf2).
      destruct acc as [[rs1 w1]| |]; try discriminate.
      exists rs1, w1. split; [done|]. cbn [mbind result_bind] in Hstep.
      destruct (rule_name_of rs1 (act_rule a)) as [name| |]; try discriminate.
      cbn [mbind result_bind] in Hstep.
      match type of Hstep with
      | context [print_action a (rs1, ?w)] =>
          destruct (print_action a (rs1, w)) as [[rs3 w3]| |] eqn:Hp; try discriminate
      end.
      cbn in Hstep. injection Hstep as <- _.
      eapply frame_trans; [|exact Hf2]. by eapply print_action_frame. }
  intros Hacc. apply H in Hacc as (rs1 & w1 & [= <- <-] & Hf). exact Hf.
Qed.

Lemma print_action_table_frame (t : Tree) (nvar : Z) (counts : list Z)
  (w w' : writer) (rs : list rule) :
  print_action_table t nvar counts w = Ok (rs, w') -> frame (ruleList t) rs.
Proof.
  unfold print_action_table. destruct (Actions t) as [|a acts] eqn:Ha.
  - intros [= <- _]. apply frame_refl.
  - match goal with
    | |- context [print_actions ?l ?s] =>
        destruct (print_actions l s) as [[rs1 w1]| |] eqn:Hp; try discriminate
    end.
    cbn. intros [= <- _]. by eapply print_actions_frame.
Qed.

Lemma register_rules_fold (rs : list rule) (t : Tree) :
  let t' := foldl (fun t r => set_rules (<[rule_name r := RulePtr (rule_id r)]> (rules t)) t)
                  t rs in
  ruleList t' = ruleList t /\ ruleId t' = ruleId t /\ defines t' = defines t /\
  forall R, (forall r, r ∈ rs -> rule_name r <> R) -> rules t' !! R = rules t !! R.
Proof.
  revert t. induction rs as [|r rs IH]; intros t; cbn; [done|].
  destruct (IH (set_rules (<[rule_name r := RulePtr (rule_id r)]> (rules t)) t))
    as (Hl & Hi & Hd & Hr).
  repeat split; try done.
  intros R HR. rewrite Hr.
  - cbn. apply lookup_insert_ne. apply HR. by left.
  - intros r' Hr'. apply HR. by right.
Qed.

Lemma register_rules_spec (t : Tree) :
  ruleList (register_rules t) = ruleList t /\
  ruleId (register_rules t) = ruleId t /\
  defines (register_rules t) = defines t /\
  forall R, (forall r, r ∈ ruleList t -> rule_name r <> R) ->
    rules (register_rules t) !! R = rules t !! R.
Proof. apply register_rules_fold. Qed.

Lemma add_placeholder_spec (t : Tree) (entry : string * ruleRef) :
  distinct_ids t ->
  distinct_ids (add_placeholder t entry) /\
  (exists l, ruleList (add_placeholder t entry) = ruleList t ++ l) /\
  (snd entry = RuleAnon ->
   placeholder_at (ruleList (add_placeholder t entry)) (length (ruleList t)) (fst entry)).
Proof.
  intros [Hnd Hlt]. destruct entry as [name p]. unfold add_placeholder.
  destruct (deref t p) as [r|] eqn:Hr.
  2:{ split; [done|]. split; [exists []; by rewrite app_nil_r|].
      cbn. intros ->. discriminate. }
  destruct (String.eqb (rule_name r) "") eqn:Hname.
  - split; [|split; [by eexists|]].
    + split; cbn.
      * rewrite fmap_app. apply NoDup_app. split; [done|]. split; [|apply NoDup_singleton].
        intros id Hid Hid'. apply list_elem_of_fmap in Hid as (r' & -> & Hr').
        cbn in Hid'. apply list_elem_of_singleton in Hid'. specialize (Hlt r' Hr'). lia.
      * intros r' Hr'. apply elem_of_app in Hr' as [Hr'|Hr'].
        -- specialize (Hlt r' Hr'). lia.
        -- apply list_elem_of_singleton in Hr'. subst r'. cbn. lia.
    + intros _. cbn. eexists. split.
      { rewrite lookup_app_r by lia. by rewrite Nat.sub_diag. }
      cbn. by split.
  - split; [done|]. split; [exists []; by rewrite app_nil_r|].
    cbn. intros ->. cbn in Hr. by simplify_eq.
Qed.

Lemma add_placeholder_defines (t : Tree) (entry : string * ruleRef) :
  defines (add_placeholder t entry) = defines t.
Proof.
  destruct entry as [name p]. unfold add_placeholder.
  destruct (deref t p) as [r|]; [|done]. by destruct (String.eqb (rule_name r) "").
Qed.

Lemma placeholder_at_app (rs l : list rule) (i : nat) (R : string) :
  placeholder_at rs i R -> placeholder_at (rs ++ l) i R.
Proof.
  intros (r & Hr & Hrest). exists r. split; [|done].
  by apply lookup_app_l_Some.
Qed.

Lemma add_placeholders_fold (entries : list (string * ruleRef)) (t : Tree) :
  distinct_ids t ->
  let t' := foldl add_placeholder t entries in
  distinct_ids t' /\ defines t' = defines t /\
  (exists l, ruleList t' = ruleList t ++ l) /\
  (forall R, (R, RuleAnon) ∈ entries -> exists i, placeholder_at (ruleList t') i R).
Proof.
  revert t. induction entries as [|e entries IH]; intros t Hd; cbn.
  - split; [done|]. split; [done|]. split; [exists []; by rewrite app_nil_r|].
    intros R HR. by apply elem_of_nil in HR.
  - destruct (add_placeholder_spec t e Hd) as (Hd1 & [l1 Hl1] & Hp1).
    destruct (IH (add_placeholder t e) Hd1) as (Hd2 & Hdef2 & [l2 Hl2] & Hp2).
    split; [done|]. split; [by rewrite Hdef2, add_placeholder_defines|].
    split; [exists (l1 ++ l2); by rewrite Hl2, Hl1, app_assoc|].
    intros R HR. apply elem_of_cons in HR as [<-|HR]; [|by apply Hp2].
    exists (length (ruleList t)). rewrite Hl2. apply placeholder_at_app.
    by apply (Hp1 eq_refl).
Qed.

(** A name that is referenced and not defined gets a slot of its own. *)
Lemma prepare_spec (t : Tree) :
  distinct_ids t ->
  distinct_ids (prepare t) /\ defines (prepare t) = defines t /\
  forall R, rules t !! R = Some RuleAnon ->
    (forall r, r ∈ ruleList t -> rule_name r <> R) ->
    exists i, placeholder_at (ruleList (prepare t)) i R.
Proof.
  intros Hd. unfold prepare, add_placeholders.
  destruct (register_rules_spec t) as (Hl & Hi & Hdef & Hr).
  destruct (add_placeholders_fold (map_to_list (rules (register_rules t)))
              (register_rules t)) as (Hd2 & Hdef2 & _ & Hp).
  { destruct Hd as [Hd1 Hd2]. split; [by rewrite Hl|]. rewrite Hl, Hi. exact Hd2. }
  split; [done|]. split; [congruence|].
  intros R HR Hundef. apply Hp. apply elem_of_map_to_list. rewrite Hr; done.
Qed.

Lemma prepare_defines (t : Tree) : defines (prepare t) = defines t.
Proof.
  unfold prepare, add_placeholders.
  destruct (register_rules_spec t) as (_ & _ & Hdef & _).
  rewrite <- Hdef. generalize (map_to_list (rules (register_rules t))).
  generalize (register_rules t). intros t0 l. revert t0.
  induction l as [|e l IH]; intros t0; [done|].
  cbn [foldl]. by rewrite IH, add_placeholder_defines.
Qed.

(** What the analyses return when they all return. *)
Lemma analyse_Ok (t t' : Tree) (fuel : nat) (counts : list Z) (err : list string) :
  analyse t fuel = Some (Ok (t', counts, err)) ->
  exists rc rs,
    t' = set_ruleList rs (set_rulesCount rc (prepare t)) /\
    (if _switch (prepare t)
     then optimize_pass (set_rulesCount rc (prepare t)) fuel
     else Some (Ok (ruleList (prepare t)))) = Some (Ok rs).
Proof.
  unfold analyse. destruct (count_types (prepare t)) as [c| |]; try discriminate.
  cbn [lift_result]. destruct (count_rules (prepare t) fuel) as [[rc| |]|]; try discriminate.
  cbn [lift_fuel].
  destruct (recursion_pass _ fuel) as [[e| |]|]; try discriminate.
  cbn [lift_fuel].
  match goal with
  | |- lift_fuel ?o _ = _ -> _ => destruct o as [[rs| |]|] eqn:Hopt; try discriminate
  end.
  cbn [lift_fuel]. intros [= <- _ _]. exists rc, rs. split; [done|exact Hopt].
Qed.

(** The analyses keep the directives. *)
Lemma analyse_defines (t t' : Tree) (fuel : nat) (counts : list Z) (err : list string) :
  analyse t fuel = Some (Ok (t', counts, err)) -> defines t' = defines t.
Proof.
  intros H. apply analyse_Ok in H as (rc & rs & -> & _). cbn. apply prepare_defines.
Qed.

(** The analyses keep the slot of a rule without expression, with the
    switch flag set or not. *)
Lemma analyse_frame (t t' : Tree) (fuel : nat) (counts : list Z) (err : list string) :
  distinct_ids t ->
  analyse t fuel = Some (Ok (t', counts, err)) ->
  frame (ruleList (prepare t)) (ruleList t').
Proof.
  intros Hd H. destruct (prepare_spec t Hd) as ([Hnd _] & _).
  apply analyse_Ok in H as (rc & rs & -> & Hopt). cbn.
  destruct (_switch (prepare t)).
  - apply optimize_pass_frame in Hopt; [exact Hopt|exact Hnd].
  - injection Hopt as <-. apply frame_refl.
Qed.

(** The entry of a rule without expression in the table: the message on
    the error stream and the line nil, whatever else is compiled. *)
Lemma real_rule_placeholder (env : cenv) (fuel : nat) (r : rule) (s : cstate) :
  rule_expression r = GoNil ->
  real_rule env fuel r s =
  Some (Ok (tt, mkCs (lnPrint "nil," (cs_w s))
                     (cs_err s ++ [undefined_message (rule_name r)]))).
Proof.
  intros He. unfold real_rule, GetExpression. rewrite He. reflexivity.
Qed.

Lemma for_rules_app (f : rule -> M unit) (l1 l2 : list rule) (s : cstate) :
  for_rules f (l1 ++ l2) s = (_ ← for_rules f l1; for_rules f l2) s.
Proof.
  revert s. induction l1 as [|r l1 IH]; intros s; [done|].
  cbn [app for_rules]. unfold mbind, M_bind.
  destruct (f r s) as [[[[] s1]| |]|]; [apply IH|done|done|done].
Qed.

(** ** More facts on the bitmap *)

Lemma byte_lxor (b : Z) : 0 <= b < 256 -> 0 <= Z.lxor b 255 < 256.
Proof.
  intros Hb. split; [apply Z.lxor_nonneg; lia|].
  destruct (Z.eq_dec (Z.lxor b 255) 0) as [->|Hne]; [lia|].
  assert (0 <= Z.lxor b 255) by (apply Z.lxor_nonneg; lia).
  change 256 with (2 ^ 8). apply Z.log2_lt_pow2; [lia|].
  eapply Z.le_lt_trans; [apply Z.log2_lxor; lia|].
  destruct (Z.eq_dec b 0) as [->|Hb0]; [reflexivity|].
  assert (Z.log2 b < 8) by (apply Z.log2_lt_pow2; change (2 ^ 8) with 256; lia).
  change (Z.log2 255) with 7. lia.
Qed.

Lemma byte_lor (a b : Z) : 0 <= a < 256 -> 0 <= b < 256 -> 0 <= Z.lor a b < 256.
Proof.
  intros Ha Hb. split; [apply Z.lor_nonneg; lia|].
  destruct (Z.eq_dec (Z.lor a b) 0) as [->|Hne]; [lia|].
  assert (0 <= Z.lor a b) by (apply Z.lor_nonneg; lia).
  change 256 with (2 ^ 8). apply Z.log2_lt_pow2; [lia|].
  rewrite Z.log2_lor by lia.
  assert (Z.log2 a < 8).
  { destruct (Z.eq_dec a 0) as [->|?]; [reflexivity|].
    apply Z.log2_lt_pow2; change (2 ^ 8) with 256; lia. }
  assert (Z.log2 b < 8).
  { destruct (Z.eq_dec b 0) as [->|?]; [reflexivity|].
    apply Z.log2_lt_pow2; change (2 ^ 8) with 256; lia. }
  lia.
Qed.

Lemma byte_land (a b : Z) : 0 <= a < 256 -> 0 <= b < 256 -> 0 <= Z.land a b < 256.
Proof.
  intros Ha Hb. split; [apply Z.land_nonneg; lia|].
  destruct (Z.eq_dec (Z.land a b) 0) as [->|Hne]; [lia|].
  assert (0 <= Z.land a b) by (apply Z.land_nonneg; lia).
  change 256 with (2 ^ 8). apply Z.log2_lt_pow2; [lia|].
  eapply Z.le_lt_trans; [apply Z.log2_land; lia|].
  assert (Z.log2 a < 8).
  { destruct (Z.eq_dec a 0) as [->|?]; [reflexivity|].
    apply Z.log2_lt_pow2; change (2 ^ 8) with 256; lia. }
  lia.
Qed.

Lemma wf_complement (c : Class.t) : Class.wf c -> Class.wf (Class.complement c).
Proof.
  intros [Hlen Hall]. split; [unfold Class.complement; by rewrite length_map|].
  unfold Class.complement. apply Forall_fmap. eapply Forall_impl; [exact Hall|].
  intros b Hb. by apply byte_lxor.
Qed.

Lemma has_complement (c : Class.t) (x : Z) :
  Class.wf c -> 0 <= x < 256 ->
  Class.has (Class.complement c) x = negb (Class.has c x).
Proof.
  intros Hwf Hx. destruct (wf_lookup c x Hwf Hx) as (b & Hb & Hrange).
  destruct (byte_index x Hx) as (_ & Hbit & _).
  rewrite (has_testbit c x b Hx Hb).
  erewrite has_testbit; [|exact Hx|].
  2:{ unfold Class.complement. rewrite list_lookup_fmap, Hb. reflexivity. }
  rewrite Z.lxor_spec. change 255 with (Z.ones 8).
  rewrite Z.ones_spec_low by lia. by destruct (Z.testbit b _).
Qed.

Lemma wf_union (c d : Class.t) :
  Class.wf c -> Class.wf d -> Class.wf (Class.union c d).
Proof.
  intros [Hlc Hc] [Hld Hd]. unfold Class.union. split.
  - rewrite length_zip_with. lia.
  - apply Forall_lookup. intros i z Hz.
    apply lookup_zip_with_Some in Hz as (a & b & -> & Ha & Hb).
    pose proof (Forall_lookup_1 _ _ _ _ Hc Ha). pose proof (Forall_lookup_1 _ _ _ _ Hd Hb).
    by apply byte_lor.
Qed.

Lemma wf_intersection (c d : Class.t) :
  Class.wf c -> Class.wf d -> Class.wf (Class.intersection c d).
Proof.
  intros [Hlc Hc] [Hld Hd]. unfold Class.intersection. split.
  - rewrite length_zip_with. lia.
  - apply Forall_lookup. intros i z Hz.
    apply lookup_zip_with_Some in Hz as (a & b & -> & Ha & Hb).
    pose proof (Forall_lookup_1 _ _ _ _ Hc Ha). pose proof (Forall_lookup_1 _ _ _ _ Hd Hb).
    by apply byte_land.
Qed.

Lemma has_union (c d : Class.t) (x : Z) :
  Class.wf c -> Class.wf d -> 0 <= x < 256 ->
  Class.has (Class.union c d) x = Class.has c x || Class.has d x.
Proof.
  intros Hc Hd Hx.
  destruct (wf_lookup c x Hc Hx) as (a & Ha & _).
  destruct (wf_lookup d x Hd Hx) as (b & Hb & _).
  rewrite (has_testbit c x a Hx Ha), (has_testbit d x b Hx Hb).
  erewrite has_testbit; [|exact Hx|].
  2:{ unfold Class.union. rewrite lookup_zip_with, Ha, Hb. reflexivity. }
  apply Z.lor_spec.
Qed.

Lemma has_intersection (c d : Class.t) (x : Z) :
  Class.wf c -> Class.wf d -> 0 <= x < 256 ->
  Class.has (Class.intersection c d) x = Class.has c x && Class.has d x.
Proof.
  intros Hc Hd Hx.
  destruct (wf_lookup c x Hc Hx) as (a & Ha & _).
  destruct (wf_lookup d x Hd Hx) as (b & Hb & _).
  rewrite (has_testbit c x a Hx Ha), (has_testbit d x b Hx Hb).
  erewrite has_testbit; [|exact Hx|].
  2:{ unfold Class.intersection. rewrite lookup_zip_with, Ha, Hb. reflexivity. }
  apply Z.land_spec.
Qed.

(** Counting the members of a list of characters. *)
Lemma filter_length_add (c : Class.t) (ch : Z) (l : list Z) :
  Class.wf c -> 0 <= ch < 256 -> Forall (fun x => 0 <= x < 256) l -> NoDup l ->
  length (filter (fun x => Class.has (Class.add c ch) x = true) l) =
  (length (filter (fun x => Class.has c x = true) l) +
   (if bool_decide (ch ∈ l) && negb (Class.has c ch) then 1 else 0))%nat.
Proof.
  intros Hwf Hch Hl Hnd. induction l as [|x l IH]; [done|].
  apply Forall_cons in Hl as [Hx Hl]. apply NoDup_cons in Hnd as [Hnot Hnd].
  specialize (IH Hl Hnd).
  rewrite !filter_cons, (has_add c ch x Hwf Hch Hx).
  destruct (Z.eqb_spec x ch) as [->|Hne].
  - rewrite bool_decide_eq_false_2 in IH by done. cbn [andb] in IH.
    rewrite bool_decide_eq_true_2 by (by left). cbn [orb andb].
    rewrite decide_True by done.
    destruct (Class.has c ch) eqn:Hhas.
    + rewrite decide_True by done. cbn. lia.
    + rewrite decide_False by done. cbn. lia.
  - cbn [orb]. rewrite (bool_decide_ext (ch ∈ x :: l) (ch ∈ l)).
    2:{ rewrite elem_of_cons. split; [intros [?|?]; [congruence|done]|by right]. }
    destruct (decide (Class.has c x = true)); cbn; lia.
Qed.

(** ** Class literals without metacharacters, and ranges *)

(** Bytes that the literal parser takes as themselves wherever they stand
    after the first position. *)
Definition plain (text : list Z) : Prop :=
  Forall (fun b => 0 <= b < 256 /\ b <> ch_minus /\ b <> ch_bslash) text.

Lemma wf_foldl_add (l : list Z) (c : Class.t) :
  Class.wf c -> Forall (fun b => 0 <= b < 256) l -> Class.wf (foldl Class.add c l).
Proof.
  revert c. induction l as [|b l IH]; intros c Hwf Hl; [done|].
  apply Forall_cons in Hl as [Hb Hl]. cbn. apply IH; [by apply wf_add|done].
Qed.

Lemma has_foldl_add (l : list Z) (c : Class.t) (x : Z) :
  Class.wf c -> Forall (fun b => 0 <= b < 256) l -> 0 <= x < 256 ->
  Class.has (foldl Class.add c l) x = Class.has c x || bool_decide (x ∈ l).
Proof.
  revert c. induction l as [|b l IH]; intros c Hwf Hl Hx.
  - cbn. rewrite bool_decide_eq_false_2 by apply not_elem_of_nil. by rewrite orb_false_r.
  - apply Forall_cons in Hl as [Hb Hl]. cbn [foldl].
    rewrite IH by (try apply wf_add; done). rewrite has_add by done.
    destruct (Z.eqb_spec x b) as [Heq|Hne], (Class.has c x);
      repeat case_bool_decide; cbn; try done; exfalso;
      rewrite elem_of_cons in *; tauto.
Qed.

Lemma AddClass_loop_step (x y : Z) (rest : list Z) (c : Class.t) (lst : Z) (hl : bool) :
  x <> ch_minus -> x <> ch_bslash ->
  AddClass_loop (x :: y :: rest) c lst hl =
  AddClass_loop (y :: rest) (Class.add c x) x true.
Proof.
  intros Hm Hb.
  change (AddClass_loop (x :: y :: rest) c lst hl) with
    (if (x =? ch_minus) && hl then
       match range_loop 257 lst y c with
       | Some c' => AddClass_loop rest c' lst false
       | None => None
       end
     else if x =? ch_bslash then
       AddClass_loop rest (Class.add c (decode_escape y)) (decode_escape y) true
     else AddClass_loop (y :: rest) (Class.add c x) x true).
  destruct (Z.eqb_spec x ch_minus) as [?|_]; [done|].
  by destruct (Z.eqb_spec x ch_bslash) as [?|_].
Qed.

(** On plain text the loop adds every byte but the last. *)
Lemma AddClass_loop_plain (l : list Z) (z : Z) (c : Class.t) (lst : Z) (hl : bool) :
  plain l -> AddClass_loop (l ++ [z]) c lst hl = Some (foldl Class.add c l).
Proof.
  revert c lst hl. induction l as [|x l IH]; intros c lst hl Hl; [done|].
  apply Forall_cons in Hl as [(Hx & Hm & Hb) Hl].
  cbn [app foldl]. destruct (l ++ [z]) as [|y rest] eqn:Hrest; [by destruct l|].
  rewrite AddClass_loop_step by done. by apply IH.
Qed.

Lemma plain_bytes (text : list Z) : plain text -> Forall (fun b => 0 <= b < 256) text.
Proof. intros H. eapply Forall_impl; [exact H|]. cbn. tauto. Qed.

Lemma range_loop_empty (fuel : nat) (j hi : Z) (c : Class.t) :
  hi < j -> range_loop (S fuel) j hi c = Some c.
Proof. intros H. cbn [range_loop]. destruct (Z.leb_spec j hi); [lia|done]. Qed.

(** On the three bytes lo - hi. *)
Lemma parse_range (lo hi : Z) :
  0 <= lo < 256 -> 0 <= hi < 255 ->
  lo <> ch_caret -> lo <> ch_bslash ->
  exists c, parse_class [lo; ch_minus; hi] = Ok c /\ Class.wf c /\
    forall x, 0 <= x < 256 ->
      Class.has c x = (x =? lo) || (x =? hi) || ((lo <=? x) && (x <=? hi)).
Proof.
  intros Hlo Hhi Hc Hb.
  assert (Hstep : AddClass_loop [lo; ch_minus; hi] Class.new 0 false =
                  match range_loop 257 lo hi (Class.add Class.new lo) with
                  | Some c' => Some c'
                  | None => None
                  end).
  { cbn [AddClass_loop]. destruct (Z.eqb_spec lo ch_minus) as [->|Hm].
    - cbn [andb]. destruct (Z.eqb_spec ch_minus ch_bslash) as [?|_]; [done|].
      change (ch_minus =? ch_minus) with true. cbn [andb].
      by destruct (range_loop 257 ch_minus hi _).
    - cbn [andb]. destruct (Z.eqb_spec lo ch_bslash) as [?|_]; [done|].
      change (ch_minus =? ch_minus) with true. cbn [andb].
      by destruct (range_loop 257 lo hi _). }
  unfold parse_class. destruct (Z.eqb_spec lo ch_caret) as [?|_]; [done|].
  cbv beta iota zeta. rewrite Hstep. clear Hstep.
  assert (Hwf1 : Class.wf (Class.add Class.new lo)) by (apply wf_add; [apply wf_new|done]).
  destruct (Z_le_gt_dec lo (hi + 1)) as [Hle|Hgt].
  - destruct (range_loop_spec 257 lo hi _ Hwf1) as (c' & -> & Hwf' & Hspec); try lia.
    cbn. eexists. split; [done|]. split; [apply wf_add; [done|lia]|].
    intros x Hx. rewrite has_add, Hspec, has_add, has_new by (try apply wf_new; done || lia).
    destruct (x =? lo), (x =? hi), ((lo <=? x) && (x <=? hi)); reflexivity.
  - assert (Hr : range_loop 257 lo hi (Class.add Class.new lo) = Some (Class.add Class.new lo)).
    { apply (range_loop_empty 256). lia. }
    rewrite Hr. cbn. eexists. split; [done|]. split; [apply wf_add; [done|lia]|].
    intros x Hx. rewrite !has_add, has_new by (try apply wf_new; done || lia).
    destruct (Z.leb_spec lo x), (Z.leb_spec x hi); cbn; try lia;
      destruct (x =? lo), (x =? hi); reflexivity.
Qed.

(** The parser on a text that does not start with a caret, and on a caret
    and a text. *)
Lemma parse_class_direct (text : list Z) :
  head text <> Some ch_caret -> text <> [] ->
  parse_class text =
  match AddClass_loop text Class.new 0 false with
  | None => Diverge
  | Some c =>
      match last text with
      | None => Panic IndexOutOfRange
      | Some z => Ok (Class.add c z)
      end
  end.
Proof.
  intros Hhead Hne. destruct text as [|t0 tl]; [done|]. unfold parse_class.
  destruct (Z.eqb_spec t0 ch_caret) as [->|_]; [by destruct Hhead|]. reflexivity.
Qed.

Lemma parse_class_caret (text : list Z) :
  parse_class (ch_caret :: text) =
  match AddClass_loop text Class.new 0 false with
  | None => Diverge
  | Some c =>
      match last text with
      | None => Panic IndexOutOfRange
      | Some z => Ok (Class.complement (Class.add c z))
      end
  end.
Proof. reflexivity. Qed.

(** ** What the builder calls keep *)

(** The actions are numbered by their position in t.Actions. *)
Definition actions_numbered (t : Tree) : Prop :=
  forall i a, Actions t !! i = Some a -> act_id a = Z.of_nat i.

(** Every entry of t.classes is what the literal parser makes of its key. *)
Definition classes_parsed (t : Tree) : Prop :=
  forall text c, classes t !! text = Some c ->
    parse_class (bytes_of_string text) = Ok c.

Lemma exec_Actions (c : call) (t t' : Tree) :
  exec c t = Ok t' ->
  match c with
  | CAddAction text =>
      exists r, Actions t' = Actions t ++
        [mkAction (rewrite_dollars text) (Z.of_nat (length (Actions t))) r]
  | _ => Actions t' = Actions t
  end.
Proof.
  intros H. destruct c; unfold_calls; repeat case_match; simplify_eq;
    cbn in *; try done; eauto.
Qed.

Lemma exec_classes (c : call) (t t' : Tree) :
  exec c t = Ok t' ->
  match c with
  | CAddClass text =>
      match classes t !! text with
      | Some _ => classes t' = classes t
      | None => exists cl, parse_class (bytes_of_string text) = Ok cl /\
                           classes t' = <[text := cl]> (classes t)
      end
  | _ => classes t' = classes t
  end.
Proof.
  intros H. destruct c.
  9:{ cbn in H. unfold AddClass in H.
      destruct (push _ t) as [t1| |] eqn:Hp; try discriminate.
      assert (Hc : classes t1 = classes t).
      { unfold push in Hp. case_match; simplify_eq. reflexivity. }
      cbn [mbind result_bind] in H. rewrite Hc in H.
      destruct (classes t !! text) as [cl|]; [by simplify_eq; rewrite Hc|].
      destruct (parse_class _) as [cl| |] eqn:Hparse; try discriminate.
      cbn in H. injection H as <-. exists cl. split; [done|]. reflexivity. }
  all: unfold_calls; repeat case_match; simplify_eq; cbn in *; try done; eauto.
Qed.

(** What every call keeps, every sequence of calls keeps. *)
Lemma run_invariant (P : Tree -> Prop) :
  (forall c t t', P t -> exec c t = Ok t' -> P t') ->
  forall cs t t', P t -> run cs t = Ok t' -> P t'.
Proof.
  intros Hstep cs. induction cs as [|c cs IH]; intros t t' HP H; cbn in H.
  - by simplify_eq.
  - unfold mbind, result_bind in H. destruct (exec c t) as [t1| |] eqn:He; try done.
    eapply IH; [|exact H]. by eapply Hstep.
Qed.

Lemma exec_actions_numbered (c : call) (t t' : Tree) :
  actions_numbered t -> exec c t = Ok t' -> actions_numbered t'.
Proof.
  intros Hn H. pose proof (exec_Actions c t t' H) as Ha.
  destruct c; try (unfold actions_numbered; rewrite Ha; exact Hn).
  destruct Ha as [r Ha]. intros i a. rewrite Ha. intros Hi.
  apply lookup_app_Some in Hi as [Hi|[Hge Hi]]; [by apply Hn|].
  destruct (i - length (Actions t))%nat as [|k] eqn:Hk; [|done].
  cbn in Hi. injection Hi as <-. cbn. f_equal. lia.
Qed.

Lemma exec_classes_parsed (c : call) (t t' : Tree) :
  classes_parsed t -> exec c t = Ok t' -> classes_parsed t'.
Proof.
  intros Hp H. pose proof (exec_classes c t t' H) as Hc.
  destruct c; try (unfold classes_parsed; rewrite Hc; exact Hp).
  destruct (classes t !! text) as [cl0|] eqn:Hlook.
  - unfold classes_parsed. rewrite Hc. exact Hp.
  - destruct Hc as (cl & Hparse & Hc). intros text' c'. rewrite Hc.
    destruct (decide (text = text')) as [<-|Hne].
    + rewrite lookup_insert_eq. by intros [= <-].
    + rewrite lookup_insert_ne by done. apply Hp.
Qed.

(** ** The ids of the rules a tree holds *)

(** The ids of the rules in a node, the node itself included. *)
Fixpoint node_ids (n : Node) : list Z :=
  match n with
  | Rule r =>
      match r with
      | mkRule _ id e _ _ => id :: node_ids e
      end
  | NodeList _ items =>
      (fix ids (l : list Node) : list Z :=
         match l with
         | [] => []
         | x :: l' => node_ids x ++ ids l'
         end) items
  | _ => []
  end.

Definition rule_ids (r : rule) : list Z := rule_id r :: node_ids (rule_expression r).

(** The slots of the stack up to [top]. *)
Definition live (t : Tree) : list Node := take (Z.to_nat (top t + 1)) (stack t).

Definition all_ids (t : Tree) : list Z :=
  flat_map node_ids (live t) ++ flat_map rule_ids (ruleList t).

(** No two rules on the stack or in the list have the same id, and the
    next id is above them all. *)
Definition ids_ok (t : Tree) : Prop :=
  length (stack t) = 1024%nat /\ -1 <= top t <= 1023 /\
  NoDup (all_ids t) /\ Forall (fun i => i < ruleId t) (all_ids t).

Lemma node_ids_list (ty : NodeType) (items : list Node) :
  node_ids (NodeList ty items) = flat_map node_ids items.
Proof. cbn. induction items as [|x l IH]; [done|]. cbn. by rewrite IH. Qed.

Lemma node_ids_rule (r : rule) : node_ids (Rule r) = rule_ids r.
Proof. by destruct r. Qed.

Lemma push_live (n : Node) (t t1 : Tree) :
  length (stack t) = 1024%nat -> -1 <= top t ->
  push n t = Ok t1 ->
  t1 = set_stack (<[Z.to_nat (top t + 1) := n]> (stack t)) (top t + 1) t /\
  top t + 1 <= 1023 /\ live t1 = live t ++ [n].
Proof.
  intros Hlen Htop H. unfold push in H.
  destruct (Z.leb_spec 0 (top t + 1)); [|lia].
  destruct (Z.ltb_spec (top t + 1) 1024); [|discriminate].
  cbn [andb] in H. injection H as <-. split; [done|]. split; [lia|].
  unfold live. cbn [top stack set_stack].
  replace (Z.to_nat (top t + 1 + 1)) with (S (Z.to_nat (top t + 1))) by lia.
  erewrite take_S_r by (apply list_lookup_insert_eq; lia).
  by rewrite take_insert_ge by lia.
Qed.

Lemma pop_live (t t1 : Tree) (n : Node) :
  pop t = Ok (n, t1) ->
  t1 = set_top (top t - 1) t /\ 0 <= top t /\ live t = live t1 ++ [n].
Proof.
  intros H. unfold pop, stack_get in H.
  destruct (Z.leb_spec 0 (top t)); [|discriminate].
  destruct (Z.ltb_spec (top t) 1024); [|discriminate]. cbn [andb] in H.
  destruct (stack t !! Z.to_nat (top t)) as [m|] eqn:Hm; [|discriminate].
  cbn in H. injection H as <- <-. split; [done|]. split; [done|].
  unfold live. cbn [top stack set_top set_stack].
  replace (Z.to_nat (top t + 1)) with (S (Z.to_nat (top t))) by lia.
  replace (Z.to_nat (top t - 1 + 1)) with (Z.to_nat (top t)) by lia.
  by apply take_S_r.
Qed.

(** Writing a rule with the same id and expression over the rule in slot 1. *)
Lemma set_currentRule_live (t : Tree) (r r' : rule) :
  currentRule t = Ok r ->
  rule_id r' = rule_id r -> rule_expression r' = rule_expression r ->
  flat_map node_ids (live (set_currentRule r' t)) = flat_map node_ids (live t).
Proof.
  intros Hc Hid He. unfold currentRule, stack_get in Hc. cbn [andb Z.leb Z.ltb] in Hc.
  change ((0 <=? 1) && (1 <? 1024)) with true in Hc.
  destruct (stack t !! Z.to_nat 1) as [m|] eqn:Hm; [|discriminate].
  cbn in Hc. destruct m; try discriminate. injection Hc as ->.
  unfold live, set_currentRule. cbn [top stack set_stack].
  destruct (decide (1 < Z.to_nat (top t + 1))%nat) as [Hin|Hout].
  - rewrite take_insert_lt by done.
    assert (Hl : take (Z.to_nat (top t + 1)) (stack t) !! 1%nat = Some (Rule r)).
    { rewrite lookup_take_lt by done. exact Hm. }
    generalize dependent (take (Z.to_nat (top t + 1)) (stack t)). intros l Hl.
    destruct l as [|a [|b l]]; try discriminate. cbn in Hl. injection Hl as ->.
    cbn [insert list_insert flat_map]. rewrite !node_ids_rule. unfold rule_ids.
    by rewrite Hid, He.
  - by rewrite take_insert_ge by lia.
Qed.

(** What a call does to the ids: it keeps the rules it had, or some of
    them, or adds one rule with the next id. *)
Definition ids_step (t t' : Tree) : Prop :=
  length (stack t') = 1024%nat /\ -1 <= top t' <= 1023 /\
  ((all_ids t' ⊆+ all_ids t /\ ruleId t' = ruleId t) \/
   (all_ids t' ≡ₚ ruleId t :: all_ids t /\ ruleId t' = ruleId t + 1)).

Lemma ids_step_same (t t' : Tree) :
  length (stack t') = 1024%nat -> -1 <= top t' <= 1023 ->
  flat_map node_ids (live t') = flat_map node_ids (live t) ->
  ruleList t' = ruleList t -> ruleId t' = ruleId t ->
  ids_step t t'.
Proof.
  intros Hlen Htop Hlive Hlist Hid. split; [done|]. split; [done|]. left.
  split; [|done]. unfold all_ids. by rewrite Hlive, Hlist.
Qed.

(** Pushing a node without rules. *)
Lemma push_leaf_step (n : Node) (t0 t t' : Tree) :
  length (stack t0) = 1024%nat -> -1 <= top t0 <= 1023 ->
  stack t = stack t0 -> top t = top t0 ->
  ruleList t = ruleList t0 -> ruleId t = ruleId t0 ->
  node_ids n = [] ->
  push n t = Ok t' -> ids_step t0 t'.
Proof.
  intros Hlen Htop Hs Ht Hl Hi Hn H.
  apply push_live in H as (-> & Hle & Hlive); [|by rewrite Hs|lia].
  apply ids_step_same;
    [cbn; by rewrite length_insert, Hs|cbn; lia| |cbn; done|cbn; done].
  rewrite Hlive, flat_map_app. cbn. rewrite Hn, !app_nil_r.
  unfold live. by rewrite Hs, Ht.
Qed.

Lemma addList_step (ty : NodeType) (t t' : Tree) :
  length (stack t) = 1024%nat -> -1 <= top t <= 1023 ->
  addList ty t = Ok t' -> ids_step t t'.
Proof.
  intros Hlen Htop H. unfold addList in H.
  destruct (pop t) as [[a t1]| |] eqn:Hp1; try discriminate.
  apply pop_live in Hp1 as (-> & Htop1 & Hlive1).
  cbn [mbind result_bind] in H.
  destruct (pop _) as [[b t2]| |] eqn:Hp2; try discriminate.
  apply pop_live in Hp2 as (-> & Htop2 & Hlive2).
  cbn [mbind result_bind top set_top set_stack] in H, Htop2.
  destruct (GetType b) as [tb| |] eqn:Hb; try discriminate.
  cbn [mbind result_bind] in H.
  assert (Hpush : forall items,
            node_ids (NodeList ty items) = node_ids b ++ node_ids a ->
            push (NodeList ty items) (set_top (top t - 1 - 1) (set_top (top t - 1) t)) = Ok t' ->
            ids_step t t').
  { intros items Hids Hpush.
    apply push_live in Hpush as (-> & Hle & Hlive); [|done|cbn; lia].
    cbn [top stack set_top set_stack] in Hle.
    apply ids_step_same;
      [cbn; by rewrite length_insert|cbn; lia| |cbn; done|cbn; done].
    rewrite Hlive, Hlive1, Hlive2, !flat_map_app. cbn [flat_map].
    rewrite Hids, !app_nil_r. by rewrite <- !app_assoc. }
  case_decide as Hty.
  - destruct b; try discriminate. revert H. apply Hpush.
    rewrite !node_ids_list, flat_map_app. cbn. by rewrite app_nil_r.
  - revert H. apply Hpush. rewrite node_ids_list. cbn. by rewrite app_nil_r.
Qed.

Lemma addFix_step (ty : NodeType) (t t' : Tree) :
  length (stack t) = 1024%nat -> -1 <= top t <= 1023 ->
  addFix ty t = Ok t' -> ids_step t t'.
Proof.
  intros Hlen Htop H. unfold addFix in H.
  destruct (pop t) as [[a t1]| |] eqn:Hp1; try discriminate.
  apply pop_live in Hp1 as (-> & Htop1 & Hlive1).
  cbn [mbind result_bind] in H.
  apply push_live in H as (-> & Hle & Hlive); [|done|cbn; lia].
  cbn [top stack set_top set_stack] in Hle.
  apply ids_step_same;
    [cbn; by rewrite length_insert|cbn; lia| |cbn; done|cbn; done].
  rewrite Hlive, Hlive1, !flat_map_app. cbn [flat_map].
  rewrite node_ids_list. cbn. by rewrite !app_nil_r.
Qed.

Lemma exec_ids_step (c : call) (t t' : Tree) :
  length (stack t) = 1024%nat -> -1 <= top t <= 1023 ->
  exec c t = Ok t' -> ids_step t t'.
Proof.
  intros Hlen Htop H.
  assert (Hleaf : forall n, node_ids n = [] -> push n t = Ok t' -> ids_step t t').
  { intros n Hn Hp. by eapply (push_leaf_step _ t t t'). }
  destruct c; cbn [exec] in H;
    try (by eapply addList_step); try (by eapply addFix_step);
    try (by eapply Hleaf; [|exact H]).
  - (* AddRule *)
    unfold AddRule in H.
    destruct (push _ t) as [t1| |] eqn:Hp; try discriminate.
    apply push_live in Hp as (-> & Hle & Hlive); [|done|lia].
    cbn in H. injection H as <-.
    split; [cbn; by rewrite length_insert|]. split; [cbn; lia|]. right.
    split; [|done]. unfold all_ids.
    change (live (set_ruleId _ ?t1)) with (live t1). rewrite Hlive, flat_map_app.
    cbn. symmetry. rewrite <- app_assoc. apply Permutation_middle.
  - (* AddExpression *)
    unfold AddExpression in H.
    destruct (pop t) as [[e t1]| |] eqn:Hp1; try discriminate.
    apply pop_live in Hp1 as (-> & Htop1 & Hlive1).
    cbn [mbind result_bind] in H.
    destruct (pop _) as [[n t2]| |] eqn:Hp2; try discriminate.
    apply pop_live in Hp2 as (-> & Htop2 & Hlive2).
    cbn [mbind result_bind top set_top set_stack] in H, Htop2.
    destruct n as [|r| | | |]; try discriminate. injection H as <-.
    split; [done|]. split; [cbn; lia|]. left. split; [|done].
    unfold all_ids. cbn [ruleList set_ruleList].
    change (live (set_ruleList _ ?t1)) with (live t1).
    rewrite Hlive1, Hlive2, !flat_map_app. cbn [flat_map].
    rewrite node_ids_rule, !app_nil_r. unfold rule_ids at 2 3. cbn [rule_id rule_expression].
    rewrite <- !app_assoc. apply submseteq_app; [done|].
    etrans; [apply Permutation_submseteq, Permutation_app_comm|].
    cbn [app]. apply submseteq_skip, submseteq_inserts_l. done.
  - (* AddHeader *) injection H as <-. by apply ids_step_same.
  - (* AddTrailer *) injection H as <-. by apply ids_step_same.
  - (* AddVariable *)
    unfold AddVariable in H. destruct (currentRule t) as [r| |] eqn:Hc; try discriminate.
    cbn in H. injection H as <-.
    apply ids_step_same;
      [cbn; by rewrite length_insert|cbn; lia| |cbn; done|cbn; done].
    change (live (set_varp _ ?t1)) with (live t1).
    by apply (set_currentRule_live t r).
  - (* AddName *)
    unfold AddName in H.
    destruct (push _ _) as [t1| |] eqn:Hp; try discriminate.
    cbn in H. injection H as <-.
    eapply (push_leaf_step _ t) in Hp; done.
  - (* AddString *)
    unfold AddString in H. case_match; by eapply Hleaf; [|exact H].
  - (* AddClass *)
    unfold AddClass in H.
    destruct (push _ t) as [t1| |] eqn:Hp; try discriminate.
    eapply (push_leaf_step _ t t) in Hp; try done.
    cbn [mbind result_bind] in H. case_match; [by simplify_eq|].
    destruct (parse_class _); try discriminate. cbn in H. injection H as <-.
    exact Hp.
  - (* AddAction *)
    unfold AddAction in H. destruct (currentRule t) as [r| |] eqn:Hc; try discriminate.
    cbn [mbind result_bind] in H.
    apply push_live in H as (-> & Hle & Hlive); [|cbn; by rewrite length_insert|cbn; lia].
    cbn [top stack set_Actions set_currentRule set_stack] in Hle.
    apply ids_step_same;
      [cbn; by rewrite !length_insert|cbn; lia| |cbn; done|cbn; done].
    rewrite Hlive, flat_map_app. cbn [flat_map node_ids]. rewrite !app_nil_r.
    change (live (set_Actions _ ?t1)) with (live t1).
    by apply (set_currentRule_live t r).
  - (* Define *)
    unfold Define in H. case_match; injection H as <-; by apply ids_step_same.
  - (* SwitchExclude *) injection H as <-. by apply ids_step_same.
Qed.

Lemma NoDup_sub (l k : list Z) : l ⊆+ k -> NoDup k -> NoDup l.
Proof.
  intros Hsub Hk. apply submseteq_Permutation in Hsub as [k' Hperm].
  rewrite Hperm in Hk. by apply NoDup_app in Hk as [? _].
Qed.

Lemma exec_ids_ok (c : call) (t t' : Tree) :
  ids_ok t -> exec c t = Ok t' -> ids_ok t'.
Proof.
  intros (Hlen & Htop & Hnd & Hlt) H.
  destruct (exec_ids_step c t t' Hlen Htop H) as (Hlen' & Htop' & [[Hsub Hid]|[Hperm Hid]]).
  - split; [done|]. split; [done|]. split.
    + by eapply NoDup_sub.
    + rewrite Hid. eapply Forall_forall. intros i Hi.
      eapply (proj1 (Forall_forall _ _) Hlt). by eapply elem_of_submseteq.
  - split; [done|]. split; [done|]. split.
    + rewrite Hperm. apply NoDup_cons. split; [|done].
      intros Hin. eapply (proj1 (Forall_forall _ _) Hlt) in Hin. lia.
    + rewrite Hperm, Hid. constructor; [lia|].
      eapply Forall_impl; [exact Hlt|]. cbn. lia.
Qed.

Lemma New_ids_ok (inl sw : bool) : ids_ok (New inl sw).
Proof.
  assert (Hids : all_ids (New inl sw) = []) by (vm_compute; reflexivity).
  split; [apply length_replicate|]. split; [cbn; lia|].
  rewrite Hids. split; [apply NoDup_nil_2|constructor].
Qed.

Lemma rule_ids_submseteq (l : list rule) : rule_id <$> l ⊆+ flat_map rule_ids l.
Proof.
  induction l as [|r l IH]; [done|]. cbn.
  apply submseteq_skip, submseteq_inserts_l, IH.
Qed.

Lemma ids_ok_distinct (t : Tree) : ids_ok t -> distinct_ids t.
Proof.
  intros (_ & _ & Hnd & Hlt).
  assert (Hsub : rule_id <$> ruleList t ⊆+ all_ids t).
  { unfold all_ids. apply submseteq_inserts_l, rule_ids_submseteq. }
  split; [by eapply NoDup_sub|].
  intros r Hr. eapply (proj1 (Forall_forall _ _) Hlt), elem_of_submseteq; [|exact Hsub].
  by apply list_elem_of_fmap_2.
Qed.

Lemma run_ids_ok (cs : list call) (t t' : Tree) :
  ids_ok t -> run cs t = Ok t' -> ids_ok t'.
Proof. apply (run_invariant ids_ok). intros c t0 t1. apply exec_ids_ok. Qed.

(** ** The text of an action *)

(** Two dollars side by side somewhere in the text. *)
Fixpoint dollars (s : string) : bool :=
  match s with
  | String a ((String b _) as tl) =>
      (Ascii.eqb a "$"%char && Ascii.eqb b "$"%char) || dollars tl
  | _ => false
  end.

Lemma rewrite_dollars_cons (a b : ascii) (rest : string) :
  rewrite_dollars (String a (String b rest)) =
  if Ascii.eqb a "$"%char && Ascii.eqb b "$"%char
  then String "y"%char (String "y"%char (rewrite_dollars rest))
  else String a (rewrite_dollars (String b rest)).
Proof. reflexivity. Qed.

Lemma dollars_cons (a b : ascii) (rest : string) :
  dollars (String a (String b rest)) =
  (Ascii.eqb a "$"%char && Ascii.eqb b "$"%char) || dollars (String b rest).
Proof. reflexivity. Qed.

Lemma rewrite_dollars_head (a : ascii) (s : string) :
  exists h rest, rewrite_dollars (String a s) = String h rest /\
    (h = a \/ h = "y"%char).
Proof.
  destruct s as [|b s]; [by eexists _, _; split; [|left]|].
  rewrite rewrite_dollars_cons.
  destruct (Ascii.eqb a "$"%char && Ascii.eqb b "$"%char); eexists _, _;
    (split; [reflexivity|]); [by right|by left].
Qed.

Lemma rewrite_dollars_spec (n : nat) (s : string) :
  (String.length s <= n)%nat ->
  dollars (rewrite_dollars s) = false /\
  String.length (rewrite_dollars s) = String.length s /\
  (dollars s = false -> rewrite_dollars s = s).
Proof.
  revert s. induction n as [|n IH]; intros s Hn.
  - destruct s; [done|cbn in Hn; lia].
  - destruct s as [|a [|b rest]]; [done|done|].
    rewrite rewrite_dollars_cons, dollars_cons.
    destruct (Ascii.eqb a "$"%char && Ascii.eqb b "$"%char) eqn:Hab.
    + destruct (IH rest) as (Hd & Hl & _); [cbn in Hn; lia|].
      split; [|split; [cbn [String.length]; by rewrite Hl|done]].
      rewrite dollars_cons. change (Ascii.eqb "y" "$") with false. cbn [andb orb].
      destruct (rewrite_dollars rest) as [|c r] eqn:Hr; [done|].
      rewrite dollars_cons. change (Ascii.eqb "y" "$") with false. exact Hd.
    + destruct (IH (String b rest)) as (Hd & Hl & Hid); [cbn in Hn |- *; lia|].
      split; [|split; [cbn [String.length]; by rewrite Hl|]].
      * destruct (rewrite_dollars_head b rest) as (h & r & Hr & Hh).
        rewrite Hr in Hd |- *. rewrite dollars_cons, Hd, orb_false_r.
        destruct Hh as [-> | ->]; [exact Hab|].
        change (Ascii.eqb "y" "$") with false. apply andb_false_r.
      * cbn [orb]. intros Hrest. by rewrite Hid.
Qed.

(** ** The branches of a rewritten alternation *)

(** The branches with the given flag, in their order. *)
Fixpoint picked (flag : bool) (elements : list Node) (properties : list (bool * classRef))
  : list Node :=
  match elements, properties with
  | element :: elements', (intersects, _) :: properties' =>
      if Bool.eqb intersects flag then element :: picked flag elements' properties'
      else picked flag elements' properties'
  | _, _ => []
  end.

(** The branch behind the peek of a sequence made by the rewrite. *)
Definition branch_of (n : Node) : Node :=
  match n with
  | NodeList _ [_; e] => e
  | _ => n
  end.

Definition guarded (n : Node) : Prop :=
  exists class c e, n = guard_branch class c e.

Lemma split_branches_spec (elements : list Node) (properties : list (bool * classRef))
  (unordered ordered unordered' ordered' : list Node) (max : nat) :
  split_branches elements properties unordered ordered max = Ok (unordered', ordered') ->
  Forall guarded unordered ->
  ordered' = ordered ++ picked true elements properties /\
  Forall guarded unordered' /\
  branch_of <$> unordered' ≡ₚ (branch_of <$> unordered) ++ picked false elements properties.
Proof.
  revert properties unordered ordered max.
  induction elements as [|element elements IH]; intros properties unordered ordered max H Hg.
  - cbn in H. injection H as <- <-. cbn. by rewrite !app_nil_r.
  - cbn [split_branches] in H. destruct properties as [|[intersects class] properties];
      [discriminate|].
    destruct intersects.
    + apply IH in H as (-> & Hg' & Hperm); [|done].
      cbn [picked Bool.eqb]. split; [by rewrite <- app_assoc|]. by split.
    + destruct (deref_class class) as [c| |]; try discriminate.
      cbn [mbind result_bind] in H.
      destruct (place _ _ _ _ _) as [[u' m']| |] eqn:Hplace; try discriminate.
      cbn [mbind result_bind] in H.
      assert (Hu : Forall guarded u' /\
                   branch_of <$> u' ≡ₚ (branch_of <$> unordered) ++ [element]).
      { unfold place in Hplace. destruct (GetType element) as [ty| |]; try discriminate.
        cbn [mbind result_bind] in Hplace.
        assert (Hgb : guarded (guard_branch class c element)) by (by eexists _, _, _).
        repeat case_match; injection Hplace as <- <-.
        - split; [apply Forall_app; by split; [|constructor]|]. by rewrite fmap_app.
        - split; [apply Forall_app; by split; [|constructor]|]. by rewrite fmap_app.
        - split; [by constructor|]. cbn. apply Permutation_cons_append. }
      destruct Hu as [Hgu Hpu].
      apply IH in H as (-> & Hg' & Hperm); [|done].
      cbn [picked Bool.eqb]. split; [done|]. split; [done|].
      rewrite Hperm, Hpu, <- app_assoc. done.
Qed.

(** The sequences the rewrite makes: for every branch that meets no later
    branch, in the order of the branches, the branch behind a peek at the
    class that [properties] has for it. *)
Fixpoint guards (elements : list Node) (properties : list (bool * classRef))
  : result (list Node) :=
  match elements with
  | [] => Ok []
  | element :: elements' =>
      match properties with
      | [] => Panic IndexOutOfRange
      | (intersects, class) :: properties' =>
          if intersects : bool then guards elements' properties'
          else
            c ← deref_class class;
            rest ← guards elements' properties';
            Ok (guard_branch class c element :: rest)
      end
  end.

Lemma split_branches_guards (elements : list Node) (properties : list (bool * classRef))
  (unordered ordered unordered' ordered' : list Node) (max : nat) :
  split_branches elements properties unordered ordered max = Ok (unordered', ordered') ->
  exists gs, guards elements properties = Ok gs /\ unordered' ≡ₚ unordered ++ gs.
Proof.
  revert properties unordered ordered max.
  induction elements as [|element elements IH]; intros properties unordered ordered max H.
  - cbn in H. injection H as <- <-. exists []. by rewrite app_nil_r.
  - cbn [split_branches] in H. destruct properties as [|[intersects class] properties];
      [discriminate|].
    cbn [guards]. destruct intersects.
    + by apply IH in H.
    + destruct (deref_class class) as [c| |]; try discriminate.
      cbn [mbind result_bind] in H |- *.
      destruct (place _ _ _ _ _) as [[u' m']| |] eqn:Hplace; try discriminate.
      cbn [mbind result_bind] in H.
      assert (Hu : u' ≡ₚ unordered ++ [guard_branch class c element]).
      { unfold place in Hplace. destruct (GetType element) as [ty| |]; try discriminate.
        cbn [mbind result_bind] in Hplace.
        repeat case_match; injection Hplace as <- <-; try done.
        apply Permutation_cons_append. }
      apply IH in H as (gs & -> & Hperm). cbn [mbind result_bind].
      exists (guard_branch class c element :: gs). split; [done|].
      rewrite Hperm, Hu, <- app_assoc. done.
Qed.

(** ** The dry pass as a whole *)

(** A list of flags that only grew, each flag staying set once it is. *)
Definition flags_le (l l' : list saveFlags) : Prop :=
  forall i f, l !! i = Some f ->
    exists f', l' !! i = Some f' /\
      (sf_pos f = true -> sf_pos f' = true) /\
      (sf_thPos f = true -> sf_thPos f' = true).

(** What a step of the dry pass may do to the writer: nothing is written,
    the pass stays dry, the saved indentation and the commit mark stay,
    and the flags only grow. *)
Definition dry_le (w w' : writer) : Prop :=
  dryRun w' = true /\ sink w' = sink w /\ savedIndent w' = savedIndent w /\
  hasCommit w' = hasCommit w /\ flags_le (w_saveFlags w) (w_saveFlags w').

Lemma flags_le_refl (l : list saveFlags) : flags_le l l.
Proof. intros i f Hf. by exists f. Qed.

Lemma flags_le_trans (l1 l2 l3 : list saveFlags) :
  flags_le l1 l2 -> flags_le l2 l3 -> flags_le l1 l3.
Proof.
  intros H12 H23 i f Hf. destruct (H12 i f Hf) as (f2 & Hf2 & Hp2 & Ht2).
  destruct (H23 i f2 Hf2) as (f3 & Hf3 & Hp3 & Ht3). exists f3. auto.
Qed.

Lemma flags_le_app (l : list saveFlags) (f : saveFlags) : flags_le l (l ++ [f]).
Proof. intros i g Hg. exists g. split; [by apply lookup_app_l_Some|done]. Qed.

Lemma flags_le_insert (l : list saveFlags) (i : nat) (f f' : saveFlags) :
  l !! i = Some f ->
  (sf_pos f = true -> sf_pos f' = true) ->
  (sf_thPos f = true -> sf_thPos f' = true) ->
  flags_le l (<[i := f']> l).
Proof.
  intros Hi Hp Ht j g Hg. destruct (decide (i = j)) as [<-|Hne].
  - exists f'. rewrite list_lookup_insert_eq by (by eapply lookup_lt_Some).
    rewrite Hi in Hg. injection Hg as <-. done.
  - exists g. by rewrite list_lookup_insert_ne.
Qed.

Lemma dry_le_refl (w : writer) : dryRun w = true -> dry_le w w.
Proof. intros H. repeat split; try done. apply flags_le_refl. Qed.

Lemma dry_le_trans (w1 w2 w3 : writer) : dry_le w1 w2 -> dry_le w2 w3 -> dry_le w1 w3.
Proof.
  intros (_ & Hs1 & Hi1 & Hc1 & Hf1) (Hd & Hs2 & Hi2 & Hc2 & Hf2).
  repeat split; try congruence. by eapply flags_le_trans.
Qed.

(** Methods of the writer that are steps of this kind. *)
Definition quiet (f : writer -> writer) : Prop :=
  forall w, dryRun w = true -> dry_le w (f w).

Definition quietR (f : writer -> result writer) : Prop :=
  forall w w', dryRun w = true -> f w = Ok w' -> dry_le w w'.

Ltac dry_fields := repeat split; cbn; try done; try apply flags_le_refl.

Lemma quiet_lnPrint (s : string) : quiet (lnPrint s).
Proof. intros w H. rewrite lnPrint_dry by done. by apply dry_le_refl. Qed.

Lemma quiet_print (s : string) : quiet (print s).
Proof. intros w H. rewrite print_dry by done. by apply dry_le_refl. Qed.

Lemma quiet_indent_by (d : Z) : quiet (indent_by d).
Proof. intros w H. dry_fields. Qed.

Lemma quiet_begin : quiet begin.
Proof. intros w H. unfold begin. rewrite lnPrint_dry by done. dry_fields. Qed.

Lemma quiet_end_block : quiet end_block.
Proof. intros w H. unfold end_block. rewrite lnPrint_dry by done. dry_fields. Qed.

Lemma quietR_label_site (l : nat) : quietR (label_site l).
Proof. intros w w' H Hs. rewrite (label_site_dry l w w' H Hs). by apply dry_le_refl. Qed.

Lemma quietR_jump (l : nat) : quietR (jump l).
Proof.
  intros w w' H. unfold jump, get_label. destruct (labels w !! l); [|done].
  cbn. rewrite lnPrint_dry by done. intros [= <-]. dry_fields.
Qed.

Lemma quietR_save (l : nat) : quietR (save l).
Proof. intros w w' H Hs. rewrite (save_dry l w w' H Hs). by apply dry_le_refl. Qed.

Lemma quietR_saveBlock (l : nat) : quietR (saveBlock l).
Proof.
  intros w w' H. unfold saveBlock, get_label, get_flags.
  destruct (labels w !! l) as [lab|]; [|done]. cbn.
  destruct (w_saveFlags w !! label_id lab) as [f|]; [|done]. cbn.
  destruct (sf_pos f || sf_thPos f); [|intros [= <-]; by apply dry_le_refl].
  pose proof (quiet_begin w H) as Hb.
  destruct (save l (begin w)) as [w1| |] eqn:Hs; try done. cbn.
  apply save_dry in Hs; [|by destruct Hb]. subst w1.
  destruct (labels (begin w) !! l); [|done]. cbn. intros [= <-].
  eapply dry_le_trans; [exact Hb|]. destruct Hb as (Hd & _). dry_fields.
Qed.

Lemma quietR_cJump (l : nat) (b : bool) (s : string) : quietR (cJump l b s).
Proof.
  intros w w' H Hj. destruct (cJump_dry l b s w w' H Hj) as (lab & _ & ->). dry_fields.
Qed.

Lemma quietR_set_label_sid (l : nat) (sid : Z) : quietR (set_label_sid l sid).
Proof.
  intros w w' H. unfold set_label_sid, get_label. destruct (labels w !! l); [|done].
  cbn. intros [= <-]. dry_fields.
Qed.

Lemma quietR_lrestore (l : nat) (other : option nat) (sp st : bool) :
  quietR (lrestore l other sp st).
Proof.
  intros w w' H. unfold lrestore.
  assert (H1 : forall w1,
            match other with
            | Some o => lab ← get_label o w; if label_used lab then label_site o w else Ok w
            | None => Ok w
            end = Ok w1 -> w1 = w).
  { intros w1. destruct other as [o|]; [|by intros [= <-]].
    unfold get_label. destruct (labels w !! o) as [lab|]; [|done]. cbn.
    destruct (label_used lab); [|by intros [= <-]]. by apply label_site_dry. }
  destruct (match other with Some _ => _ | None => _ end) as [w1| |]; try done.
  rewrite (H1 w1 eq_refl). cbn [mbind result_bind].
  unfold get_label. destruct (labels w !! l) as [lab|]; [|done]. cbn [mbind result_bind].
  rewrite !lnPrint_dry by done.
  assert (Hw2 : (if sp && st then w else if negb sp && st then w
                 else if sp then w else w) = w) by (by repeat case_match).
  rewrite Hw2, H. unfold get_flags.
  destruct (w_saveFlags w !! label_id lab) as [f|] eqn:Hf; [|done].
  cbn [mbind result_bind].
  set (w3 := set_saveFlags _ w).
  assert (H3 : dry_le w w3).
  { subst w3. repeat split; cbn; try done.
    eapply flags_le_insert; [exact Hf| |]; cbn; by intros ->. }
  destruct (label_savedBlockOpen lab); intros [= <-]; [|exact H3].
  eapply dry_le_trans; [exact H3|]. destruct H3 as (Hd & _).
  eapply dry_le_trans; [by apply quiet_end_block|].
  pose proof (quiet_end_block w3 Hd) as (Hd' & _). dry_fields.
Qed.

Lemma quietR_restore (l : nat) (sp st : bool) : quietR (restore l sp st).
Proof. apply quietR_lrestore. Qed.

(** Steps of the generator that are of this kind. *)
Definition silent {A : Type} (m : M A) : Prop :=
  forall s a s', dryRun (cs_w s) = true -> m s = Some (Ok (a, s')) ->
                 dry_le (cs_w s) (cs_w s').

Lemma silent_ret {A : Type} (a : A) : silent (mret a).
Proof. intros s b s' H [= _ <-]. by apply dry_le_refl. Qed.

Lemma silent_bind {A B : Type} (m : M A) (f : A -> M B) :
  silent m -> (forall a, silent (f a)) -> silent (m ≫= f).
Proof.
  intros Hm Hf s b s' H Hb. unfold mbind, M_bind in Hb.
  destruct (m s) as [[[a s1]| |]|] eqn:Hms; try discriminate.
  pose proof (Hm s a s1 H Hms) as H1.
  eapply dry_le_trans; [exact H1|]. eapply Hf; [|exact Hb]. by destruct H1.
Qed.

Lemma silent_panicM {A : Type} (p : panic) : silent (@panicM A p).
Proof. intros s b s' H Hb. discriminate. Qed.

Lemma silent_out_of_fuel {A : Type} : silent (@out_of_fuel A).
Proof. intros s b s' H Hb. discriminate. Qed.

Lemma silent_liftR {A : Type} (r : result A) : silent (liftR r).
Proof.
  intros s b s' H Hb. unfold liftR in Hb. destruct r; try discriminate.
  injection Hb as _ <-. by apply dry_le_refl.
Qed.

Lemma silent_askW {A : Type} (f : writer -> result A) : silent (askW f).
Proof.
  intros s b s' H Hb. unfold askW in Hb. destruct (f (cs_w s)); try discriminate.
  injection Hb as _ <-. by apply dry_le_refl.
Qed.

Lemma silent_eprint (msg : string) : silent (eprint msg).
Proof. intros s b s' H [= _ <-]. by apply dry_le_refl. Qed.

Lemma silent_doP (f : writer -> writer) : quiet f -> silent (doP f).
Proof. intros Hf s b s' H [= _ <-]. by apply Hf. Qed.

Lemma silent_doW (f : writer -> result writer) : quietR f -> silent (doW f).
Proof.
  intros Hf s b s' H Hb. unfold doW in Hb.
  destruct (f (cs_w s)) as [w'| |] eqn:Hw; try discriminate.
  injection Hb as _ <-. by apply Hf.
Qed.

Lemma silent_mkLabelM : silent mkLabelM.
Proof.
  intros s b s' H [= _ <-]. unfold newLabel. repeat split; cbn; try done.
  rewrite H. apply flags_le_app.
Qed.

Lemma silent_when (b : bool) (m : M unit) : silent m -> silent (when b m).
Proof. intros Hm. destruct b; [exact Hm|apply silent_ret]. Qed.

Create HintDb dry.
#[local] Hint Resolve quiet_lnPrint quiet_print quiet_indent_by quiet_begin
  quiet_end_block quietR_label_site quietR_jump quietR_save quietR_saveBlock
  quietR_cJump quietR_set_label_sid quietR_lrestore quietR_restore : dry.

Ltac silent_step :=
  first
    [ apply silent_ret
    | apply silent_panicM
    | apply silent_out_of_fuel
    | apply silent_eprint
    | apply silent_liftR
    | apply silent_askW
    | apply silent_mkLabelM
    | apply silent_doP; solve [auto with dry]
    | apply silent_doW; solve [auto with dry]
    | apply silent_when
    | apply silent_bind; [|intros ?]
    | match goal with
      | |- silent (let '(_, _) := ?x in _) => destruct x
      | |- silent (if ?b then _ else _) => destruct b
      | |- silent (match ?x with _ => _ end) => destruct x
      end ].

Lemma silent_print_case_chars (class : Class.t) : silent (print_case_chars class).
Proof.
  unfold print_case_chars. apply silent_bind; [|intros; apply silent_ret].
  generalize (seqZ 0 256). intros l.
  assert (H : forall m, silent m -> silent (foldl (case_step class) m l)).
  { induction l as [|d l IH]; intros m Hm; [exact Hm|].
    cbn [foldl]. apply IH. unfold case_step. repeat silent_step. exact Hm. }
  apply H, silent_ret.
Qed.

Lemma silent_canCompilePeek (node : Node) (b : bool) (l : nat) :
  silent (canCompilePeek node b l).
Proof. unfold canCompilePeek. repeat silent_step. Qed.

Lemma silent_compile_leaf (env : cenv) (ty : NodeType) (node : Node) (ko : nat) :
  silent (compile_leaf env ty node ko).
Proof. unfold compile_leaf. repeat silent_step. Qed.

(** Induction over nodes with the hypothesis for the children and for the
    children of the children. *)
Lemma Node_ind2 (P : Node -> Prop)
  (HNil : P GoNil)
  (HRule : forall r, P (Rule r))
  (HName : forall text varp, P (Name text varp))
  (HToken : forall ty text class, P (Token ty text class))
  (HAction : forall a, P (Action a))
  (HList : forall ty items,
      Forall P items ->
      Forall (fun x => match x with
                       | NodeList _ parts => Forall P parts
                       | _ => True
                       end) items ->
      P (NodeList ty items)) :
  forall n, P n.
Proof.
  fix IH 1. intros [|r|text varp|ty text class|a|ty items].
  - exact HNil.
  - apply HRule.
  - apply HName.
  - apply HToken.
  - apply HAction.
  - apply HList.
    + induction items as [|x items IHitems]; constructor; [apply IH|exact IHitems].
    + induction items as [|x items IHitems]; constructor; [|exact IHitems].
      destruct x as [| | | | |ty' parts]; try exact I.
      induction parts as [|y parts IHparts]; constructor; [apply IH|exact IHparts].
Qed.

Lemma silent_compile (env : cenv) (fuel : nat) (node : Node) (ko : nat) :
  silent (compile env fuel node ko).
Proof.
  revert node ko. induction fuel as [|f IHf]; intros node ko; [apply silent_out_of_fuel|].
  revert ko. induction node as [|r|n v|ty text cl|a|ty items IH IH2] using Node_ind2;
    intros ko.
  - apply silent_panicM.
  - apply silent_compile_leaf.
  - (* a name *)
    cbn. repeat silent_step; apply IHf.
  - apply silent_compile_leaf.
  - apply silent_compile_leaf.
  - destruct ty; try apply silent_compile_leaf; try apply silent_panicM.
    + (* alternation *)
      cbn. do 3 (apply silent_bind; [repeat silent_step|intros ?]).
      match goal with
      | |- silent (?loop items None ?acc0) =>
          assert (Hloop : forall l next acc,
                    Forall (fun n => forall ko, silent (compile env (S f) n ko)) l ->
                    silent (loop l next acc)); [|by apply Hloop]
      end.
      clear IH IH2. intros l. induction l as [|element tl IHrest]; intros next acc Hl;
        [apply silent_panicM|].
      apply Forall_cons in Hl as [Hx Hrest]. cbn.
      repeat first [apply Hx | eapply (IHrest (Some _)); assumption | silent_step].
    + (* unordered alternation *)
      cbn. do 4 (apply silent_bind; [repeat silent_step|intros ?]).
      match goal with
      | |- silent (?loop items ?acc0) =>
          assert (Hloop : forall l acc,
                    Forall (fun x => match x with
                                     | NodeList _ parts =>
                                         forall n, n ∈ parts ->
                                           forall ko, silent (compile env (S f) n ko)
                                     | _ => True
                                     end) l ->
                    silent (loop l acc)); [|apply Hloop]
      end.
      * clear IH IH2. intros l. induction l as [|element tl IHrest]; intros acc Hl;
          [apply silent_panicM|].
        apply Forall_cons in Hl as [Hx Hrest]. cbn.
        repeat first [ apply Hx; solve [repeat constructor]
                     | apply IHrest; assumption
                     | apply silent_print_case_chars
                     | silent_step ].
      * eapply Forall_impl; [exact IH2|]. intros [| | | | |ty parts]; try done.
        intros Hp n Hn. by eapply (proj1 (Forall_forall _ _) Hp).
    + (* sequence *)
      cbn. apply silent_bind; [|intros [chgko chgok]; repeat silent_step].
      match goal with
      | |- silent (?loop items ?acc0) =>
          assert (Hloop : forall l acc,
                    Forall (fun n => forall ko, silent (compile env (S f) n ko)) l ->
                    silent (loop l acc)); [|by apply Hloop]
      end.
      clear IH IH2. intros l. induction l as [|element tl IHrest]; intros acc Hl;
        [apply silent_ret|].
      apply Forall_cons in Hl as [Hx Hrest]. cbn.
      repeat first [apply Hx | apply IHrest; assumption | silent_step].
    + destruct items as [|sub rest]; [apply silent_panicM|].
      apply Forall_cons in IH as [Hx _]. cbn.
      repeat first [apply Hx | apply silent_canCompilePeek | silent_step].
    + destruct items as [|sub rest]; [apply silent_panicM|].
      apply Forall_cons in IH as [Hx _]. cbn.
      repeat first [apply Hx | apply silent_canCompilePeek | silent_step].
    + destruct items as [|sub rest]; cbn;
        [repeat silent_step|].
      apply Forall_cons in IH as [Hx _].
      repeat first [apply Hx | silent_step].
    + destruct items as [|sub rest]; cbn;
        [repeat silent_step|].
      apply Forall_cons in IH as [Hx _].
      repeat first [apply Hx | silent_step].
    + destruct items as [|sub rest]; cbn;
        [repeat silent_step|].
      apply Forall_cons in IH as [Hx _].
      repeat first [apply Hx | silent_step].
Qed.

Lemma silent_compileExpression (env : cenv) (fuel : nat) (r : rule) (ko : nat) :
  silent (compileExpression env fuel r ko).
Proof.
  unfold compileExpression. repeat first [apply silent_compile | silent_step].
Qed.

Lemma silent_dry_rule (env : cenv) (fuel : nat) (r : rule) :
  silent (dry_rule env fuel r).
Proof.
  unfold dry_rule. repeat first [apply silent_compileExpression | silent_step].
Qed.

Lemma silent_for_rules (f : rule -> M unit) (rs : list rule) :
  (forall r, silent (f r)) -> silent (for_rules f rs).
Proof.
  intros Hf. induction rs as [|r rs IH]; [apply silent_ret|].
  cbn [for_rules]. apply silent_bind; [apply Hf|intros _; exact IH].
Qed.

(** ** The intersection test of the optimizer *)

Lemma byte_compose (i j : Z) :
  0 <= i < 32 -> 0 <= j < 8 ->
  Z.shiftr (8 * i + j) 3 = i /\ Z.land (8 * i + j) 7 = j /\ 0 <= 8 * i + j < 256.
Proof.
  intros Hi Hj. assert (Hr : 0 <= 8 * i + j < 256) by lia.
  destruct (byte_index _ Hr) as (H1 & H2 & H3). lia.
Qed.

(** A byte that is not zero has a bit among its eight. *)
Lemma byte_has_bit (b : Z) :
  0 <= b < 256 -> b <> 0 -> exists k, 0 <= k < 8 /\ Z.testbit b k = true.
Proof.
  intros Hb Hne. exists (Z.log2 b). split.
  - split; [apply Z.log2_nonneg|].
    apply Z.log2_lt_pow2; [lia|]. change (2 ^ 8) with 256. lia.
  - apply Z.bit_log2. lia.
Qed.

Lemma overlap_spec (a b : Class.t) :
  Class.wf a -> Class.wf b ->
  (overlap a b = true <->
   exists x, 0 <= x < 256 /\ Class.has a x = true /\ Class.has b x = true).
Proof.
  intros Ha Hb. unfold overlap. rewrite existsb_exists. split.
  - intros ([va vb] & Hin & Hne). cbn [fst snd] in Hne.
    apply list_elem_of_In, list_elem_of_lookup in Hin as [i Hi].
    apply lookup_zip_with_Some in Hi as (va' & vb' & [= <- <-] & Hva & Hvb).
    assert (Hi32 : (i < 32)%nat).
    { destruct Ha as [Hl _]. rewrite <- Hl. by eapply lookup_lt_Some. }
    assert (Hra : 0 <= va < 256)
      by (destruct Ha as [_ Hall]; exact (Forall_lookup_1 _ _ _ _ Hall Hva)).
    assert (Hrb : 0 <= vb < 256)
      by (destruct Hb as [_ Hall]; exact (Forall_lookup_1 _ _ _ _ Hall Hvb)).
    apply negb_true_iff, Z.eqb_neq in Hne.
    destruct (byte_has_bit (Z.land vb va)) as (k & Hk & Hbit); [by apply byte_land|done|].
    rewrite Z.land_spec in Hbit. apply andb_true_iff in Hbit as [Hbb Hba].
    destruct (byte_compose (Z.of_nat i) k) as (Hs & Hl & Hx); [lia|done|].
    exists (8 * Z.of_nat i + k). split; [done|]. split.
    + erewrite has_testbit; [|done|by rewrite Hs, Nat2Z.id]. by rewrite Hl.
    + erewrite has_testbit; [|done|by rewrite Hs, Nat2Z.id]. by rewrite Hl.
  - intros (x & Hx & Hax & Hbx).
    destruct (wf_lookup a x Ha Hx) as (va & Hva & _).
    destruct (wf_lookup b x Hb Hx) as (vb & Hvb & _).
    destruct (byte_index x Hx) as (_ & Hbit & _).
    rewrite (has_testbit a x va Hx Hva) in Hax.
    rewrite (has_testbit b x vb Hx Hvb) in Hbx.
    exists (va, vb). split.
    + apply list_elem_of_In, list_elem_of_lookup. exists (Z.to_nat (Z.shiftr x 3)).
      apply lookup_zip_with_Some. by exists va, vb.
    + cbn [fst snd]. apply negb_true_iff, Z.eqb_neq. intros H0.
      assert (Ht : Z.testbit (Z.land vb va) (Z.land x 7) = true)
        by (by rewrite Z.land_spec, Hax, Hbx).
      rewrite H0, Z.bits_0 in Ht. discriminate.
Qed.

(** ** Rule ids as indices of ruleReached *)

(** A call that did not return normally: it panicked, did not terminate,
    or went on past the fuel. *)
Definition fails {A : Type} (r : option (result A)) : Prop :=
  match r with
  | Some (Ok _) => False
  | _ => True
  end.

(** checkRecursion does not change the length of ruleReached. *)
Lemma cr_length (t : Tree) (fuel : nat) (node : Node) (st st' : crState) (b : bool) :
  checkRecursion t fuel node st = Some (Ok (b, st')) ->
  length (ruleReached st') = length (ruleReached st).
Proof.
  revert node st st' b. induction fuel as [|f IHf]; intros node st st' b; [done|].
  revert st st' b.
  induction node as [|r _|n v|ty text cl|a|ty items IH] using Node_ind'; intros st st' b H.
  - discriminate.
  - rewrite cr_rule in H. cbn zeta in H.
    destruct ((0 <=? rule_id r) && _); [|discriminate].
    destruct (ruleReached st !! Z.to_nat (rule_id r)) as [[|]|];
      try (by injection H as _ <-).
    all: destruct (checkRecursion t f _ _) as [[[c st2]| |]|] eqn:Hc; try discriminate;
      injection H as _ <-; cbn; rewrite length_insert;
      apply IHf in Hc; cbn in Hc; by rewrite length_insert in Hc.
  - rewrite cr_name in H. destruct (rule_named t n) as [r|]; [|discriminate].
    by apply IHf in H.
  - cbn in H. destruct ty; simplify_eq; done.
  - cbn in H. by simplify_eq.
  - destruct ty; try (cbn in H; by simplify_eq);
      try (destruct items; cbn in H; by simplify_eq).
    + (* alternation *)
      revert st H. induction items as [|x rest IHrest]; intros st H;
        [cbn in H; by simplify_eq|].
      apply Forall_cons in IH as [IHx IHr]. rewrite cr_alternate_cons in H.
      destruct (checkRecursion t (S f) x st) as [[[[|] st1]| |]|] eqn:Hx; try discriminate.
      * apply IHx in Hx. rewrite <- Hx. by apply IHrest.
      * injection H as _ <-. by apply IHx in Hx.
    + (* sequence *)
      revert st H. induction items as [|x rest IHrest]; intros st H;
        [cbn in H; by simplify_eq|].
      apply Forall_cons in IH as [IHx IHr]. rewrite cr_sequence_cons in H.
      destruct (checkRecursion t (S f) x st) as [[[[|] st1]| |]|] eqn:Hx; try discriminate.
      * injection H as _ <-. by apply IHx in Hx.
      * apply IHx in Hx. rewrite <- Hx. by apply IHrest.
    + (* plus *)
      destruct items as [|x rest]; [discriminate|]. rewrite cr_plus_cons in H.
      apply Forall_cons in IH as [IHx _]. by apply IHx in H.
Qed.

Lemma check_rules_out_of_range (t : Tree) (fuel : nat)
  (entries : list (string * ruleRef)) (st : crState) (n : string) (p : ruleRef) (r : rule) :
  (n, p) ∈ entries -> deref t p = Some r ->
  ~ (0 <= rule_id r < Z.of_nat (length (ruleReached st))) ->
  fails (check_rules t fuel entries st).
Proof.
  revert st. induction entries as [|[n' p'] rest IH]; intros st Hin Hr Hid.
  - by apply elem_of_nil in Hin.
  - cbn [check_rules]. apply elem_of_cons in Hin as [Heq|Hin].
    + injection Heq as <- <-. rewrite Hr. destruct fuel as [|f]; [done|].
      rewrite cr_rule. cbn zeta.
      destruct (Z.leb_spec 0 (rule_id r)), (Z.ltb_spec (rule_id r)
        (Z.of_nat (length (ruleReached st)))); try done; lia.
    + destruct (deref t p') as [r'|]; [|done].
      destruct (checkRecursion t fuel (Rule r') st) as [[[c st1]| |]|] eqn:Hc; try done.
      apply IH; [done|done|]. by rewrite (cr_length _ _ _ _ _ _ Hc).
Qed.

(** ** The characters of a case of the emitted switch *)

(** The members of a class, in increasing order. *)
Definition members (class : Class.t) : list Z :=
  filter (fun d => Class.has class d = true) (seqZ 0 256).

Definition case_item (d : Z) : string := " '" +:+ case_char d +:+ "'".

(** What the loop prints for the characters [l], piece by piece. *)
Fixpoint case_pieces (class : Class.t) (l : list Z) (comma : bool) : list string :=
  match l with
  | [] => []
  | d :: l' =>
      if Class.has class d then
        (if comma then [","] else []) ++ case_item d :: case_pieces class l' true
      else case_pieces class l' comma
  end.

Definition text_of (pieces : list string) : string := foldr String.append "" pieces.

Lemma append_assoc (a b c : string) : (a +:+ b) +:+ c = a +:+ (b +:+ c).
Proof.
  induction a as [|x a IH]; [done|].
  change (String x ((a +:+ b) +:+ c) = String x (a +:+ b +:+ c)). by rewrite IH.
Qed.

Lemma append_nil_r (a : string) : a +:+ "" = a.
Proof.
  induction a as [|x a IH]; [done|].
  change (String x (a +:+ "") = String x a). by rewrite IH.
Qed.

Lemma text_of_cons (x : string) (l : list string) : text_of (x :: l) = x +:+ text_of l.
Proof. reflexivity. Qed.

Lemma text_of_app (l k : list string) : text_of (l ++ k) = text_of l +:+ text_of k.
Proof.
  induction l as [|x l IH]; [done|].
  change ((x :: l) ++ k) with (x :: (l ++ k)).
  by rewrite !text_of_cons, IH, append_assoc.
Qed.

Lemma case_pieces_text (class : Class.t) (l : list Z) (comma : bool) :
  text_of (case_pieces class l comma) =
  match filter (fun d => Class.has class d = true) l with
  | [] => ""
  | ds => (if comma then "," else "") +:+ String.concat "," (case_item <$> ds)
  end.
Proof.
  revert comma. induction l as [|d l IH]; intros comma; [done|].
  cbn [case_pieces]. rewrite filter_cons.
  destruct (Class.has class d) eqn:Hd.
  - rewrite decide_True by done.
    rewrite text_of_app, text_of_cons, IH.
    destruct (filter _ l) as [|d' ds] eqn:Hf.
    + change (String.concat "," (case_item <$> [d])) with (case_item d).
      rewrite append_nil_r. destruct comma; [|done]. change (text_of [","]) with ",".
      done.
    + change (String.concat "," (case_item <$> d :: d' :: ds)) with
        (case_item d +:+ "," +:+ String.concat "," (case_item <$> d' :: ds)).
      by destruct comma.
  - rewrite decide_False by done. apply IH.
Qed.

Lemma case_loop_spec (class : Class.t) (l : list Z) (m : M bool) (s s1 : cstate)
  (comma : bool) :
  dryRun (cs_w s1) = false ->
  m s = Some (Ok (comma, s1)) ->
  exists comma',
    foldl (case_step class) m l s =
    Some (Ok (comma',
              mkCs (set_sink (sink (cs_w s1) ++ case_pieces class l comma) (cs_w s1))
                   (cs_err s1))).
Proof.
  revert m s1 comma. induction l as [|d l IH]; intros m s1 comma Hdry Hm.
  - exists comma. cbn. rewrite Hm, app_nil_r. by destruct s1 as [[] ?].
  - cbn [foldl case_pieces].
    destruct (Class.has class d) eqn:Hd.
    + destruct (IH (case_step class m d)
                  (mkCs (set_sink (sink (cs_w s1) ++
                                   (if comma then [","] else []) ++ [case_item d])
                                  (cs_w s1)) (cs_err s1)) true)
        as [comma' Hres]; [done| |].
      { unfold case_step, mbind, M_bind. rewrite Hm, Hd.
        destruct comma; cbn; unfold print; rewrite Hdry; cbn; rewrite ?Hdry;
          unfold write; cbn; by rewrite <- ?app_assoc. }
      exists comma'. rewrite Hres. destruct s1 as [[] ?]. unfold set_sink. cbn.
      rewrite <- !app_assoc. by destruct comma.
    + apply IH; [done|]. unfold case_step, mbind, M_bind. by rewrite Hm, Hd.
Qed.

(** ** The names of the map after the registration *)

(** Before Compile every value of the map is the anonymous rule of
    AddName. *)
Definition anon_only (t : Tree) : Prop :=
  forall n p, rules t !! n = Some p -> p = RuleAnon.

Lemma exec_rules (c : call) (t t' : Tree) :
  exec c t = Ok t' ->
  match c with
  | CAddName text => rules t' = <[text := RuleAnon]> (rules t)
  | _ => rules t' = rules t
  end.
Proof.
  intros H. destruct c; unfold_calls; repeat case_match; simplify_eq;
    cbn in *; try done; eauto.
Qed.

Lemma exec_anon_only (c : call) (t t' : Tree) :
  anon_only t -> exec c t = Ok t' -> anon_only t'.
Proof.
  intros Ha H. pose proof (exec_rules c t t' H) as Hr.
  destruct c; try (unfold anon_only; rewrite Hr; exact Ha).
  intros n p. rewrite Hr. destruct (decide (text = n)) as [<-|Hne].
  - rewrite lookup_insert_eq. by intros [= <-].
  - rewrite lookup_insert_ne by done. apply Ha.
Qed.

(** The name [n] has its rule, a rule of the list with that name. *)
Definition resolved (t : Tree) (n : string) : Prop :=
  exists id r, rules t !! n = Some (RulePtr id) /\
    find_rule (ruleList t) id = Some r /\ rule_name r = n.

Lemma find_rule_app_l (l k : list rule) (id : Z) (r : rule) :
  find_rule l id = Some r -> find_rule (l ++ k) id = Some r.
Proof.
  unfold find_rule. induction l as [|x l IH]; [done|]. cbn.
  destruct (rule_id x =? id); [done|exact IH].
Qed.

Lemma find_rule_app_r (l : list rule) (r : rule) :
  (forall x, x ∈ l -> rule_id x <> rule_id r) ->
  find_rule (l ++ [r]) (rule_id r) = Some r.
Proof.
  unfold find_rule. induction l as [|x l IH]; intros Hl.
  - cbn. by rewrite Z.eqb_refl.
  - cbn. destruct (Z.eqb_spec (rule_id x) (rule_id r)) as [Heq|_].
    + exfalso. by apply (Hl x); [left|].
    + apply IH. intros y Hy. apply Hl. by right.
Qed.

Lemma find_rule_elem (l : list rule) (r : rule) :
  NoDup (rule_id <$> l) -> r ∈ l -> find_rule l (rule_id r) = Some r.
Proof.
  unfold find_rule. induction l as [|x l IH]; intros Hnd Hr; [by apply elem_of_nil in Hr|].
  cbn in Hnd. apply NoDup_cons in Hnd as [Hx Hnd]. cbn.
  apply elem_of_cons in Hr as [->|Hr]; [by rewrite Z.eqb_refl|].
  destruct (Z.eqb_spec (rule_id x) (rule_id r)) as [Heq|_]; [|by apply IH].
  exfalso. apply Hx. rewrite Heq. by apply list_elem_of_fmap_2.
Qed.

(** The first loop: a name of the map is anonymous as before, or points
    to a rule of the list with that name. *)
Lemma register_rules_values (rs : list rule) (t : Tree) :
  let t' := foldl (fun t r => set_rules (<[rule_name r := RulePtr (rule_id r)]> (rules t)) t)
                  t rs in
  (forall n p, rules t' !! n = Some p ->
     rules t !! n = Some p \/
     exists r, p = RulePtr (rule_id r) /\ r ∈ rs /\ rule_name r = n) /\
  (forall n, is_Some (rules t !! n) \/ (exists r, r ∈ rs /\ rule_name r = n) ->
     is_Some (rules t' !! n)).
Proof.
  revert t. induction rs as [|r rs IH]; intros t; cbn.
  - split; [by left|]. intros n [H|(r & Hr & _)]; [done|by apply elem_of_nil in Hr].
  - destruct (IH (set_rules (<[rule_name r := RulePtr (rule_id r)]> (rules t)) t))
      as [Hval Hdom]. split.
    + intros n p Hn. destruct (Hval n p Hn) as [Hold|(r' & -> & Hr' & Hname)].
      * cbn in Hold. destruct (decide (rule_name r = n)) as [<-|Hne].
        -- rewrite lookup_insert_eq in Hold. injection Hold as <-.
           right. exists r. split; [done|]. split; [by left|done].
        -- rewrite lookup_insert_ne in Hold by done. by left.
      * right. exists r'. split; [done|]. split; [by right|done].
    + intros n Hn. apply Hdom. cbn.
      destruct (decide (rule_name r = n)) as [<-|Hne].
      * left. by rewrite lookup_insert_eq.
      * rewrite lookup_insert_ne by done.
        destruct Hn as [Hn|(r' & Hr' & Hname)]; [by left|].
        apply elem_of_cons in Hr' as [->|Hr']; [done|]. right. by exists r'.
Qed.

(** One round of the second loop. *)
Lemma add_placeholder_resolved (t : Tree) (n : string) (p : ruleRef) :
  distinct_ids t ->
  rules t !! n = Some p ->
  (forall id, p = RulePtr id ->
     exists r, find_rule (ruleList t) id = Some r /\ rule_name r = n) ->
  let t' := add_placeholder t (n, p) in
  resolved t' n /\
  (forall m, m <> n -> rules t' !! m = rules t !! m) /\
  (forall id r, find_rule (ruleList t) id = Some r ->
     find_rule (ruleList t') id = Some r).
Proof.
  intros [Hnd Hlt] Hn Hp.
  assert (Hnew : let t' := set_ruleList (ruleList t ++ [new_rule n (ruleId t)])
                     (set_rules (<[n := RulePtr (ruleId t)]> (rules t))
                        (set_ruleId (ruleId t + 1) t)) in
            resolved t' n /\
            (forall m, m <> n -> rules t' !! m = rules t !! m) /\
            (forall id r, find_rule (ruleList t) id = Some r ->
               find_rule (ruleList t') id = Some r)).
  { cbn. split; [|split].
    - exists (ruleId t), (new_rule n (ruleId t)). cbn. split; [apply lookup_insert_eq|].
      split; [|done]. apply (find_rule_app_r _ (new_rule n (ruleId t))).
      intros x Hx. specialize (Hlt x Hx). cbn. lia.
    - intros m Hm. by apply lookup_insert_ne.
    - intros id r. apply find_rule_app_l. }
  unfold add_placeholder. destruct p as [|id]; cbn [deref].
  - change (String.eqb (rule_name (new_rule "" 0)) "") with true. exact Hnew.
  - destruct (Hp id eq_refl) as (r & Hr & Hname). rewrite Hr.
    destruct (String.eqb (rule_name r) "") eqn:He; [exact Hnew|].
    split; [by exists id, r|]. by split.
Qed.

Lemma add_placeholders_resolved (entries : list (string * ruleRef)) (t : Tree) :
  distinct_ids t ->
  NoDup (fst <$> entries) ->
  (forall n p, (n, p) ∈ entries -> rules t !! n = Some p) ->
  (forall n id, (n, RulePtr id) ∈ entries ->
     exists r, find_rule (ruleList t) id = Some r /\ rule_name r = n) ->
  let t' := foldl add_placeholder t entries in
  (forall n p, (n, p) ∈ entries -> resolved t' n) /\
  (forall m, m ∉ (fst <$> entries) -> rules t' !! m = rules t !! m) /\
  (forall id r, find_rule (ruleList t) id = Some r ->
     find_rule (ruleList t') id = Some r).
Proof.
  revert t. induction entries as [|[n p] entries IH]; intros t Hd Hnd Hval Hptr.
  - cbn. split; [intros n p H; by apply elem_of_nil in H|]. by split.
  - cbn in Hnd. apply NoDup_cons in Hnd as [Hn Hnd]. cbn [foldl].
    destruct (add_placeholder_resolved t n p Hd) as (Hres & Hother & Hfind).
    { apply Hval. by left. }
    { intros id ->. apply Hptr. by left. }
    destruct (add_placeholder_spec t (n, p) Hd) as (Hd1 & _ & _).
    destruct (IH (add_placeholder t (n, p)) Hd1 Hnd) as (Hres' & Hother' & Hfind').
    { intros m q Hm. rewrite Hother; [apply Hval; by right|].
      intros ->. apply Hn. apply list_elem_of_fmap. by exists (n, q). }
    { intros m id Hm. destruct (Hptr m id) as (r & Hr & Hname); [by right|].
      exists r. split; [by apply Hfind|done]. }
    split; [|split].
    + intros m q Hm. apply elem_of_cons in Hm as [[= -> ->]|Hm]; [|by eapply Hres'].
      destruct Hres as (id & r & Hrn & Hr & Hname). exists id, r.
      split; [by rewrite Hother'|]. split; [by apply Hfind'|done].
    + intros m Hm. cbn in Hm. rewrite Hother'.
      * apply Hother. intros ->. apply Hm. by left.
      * intros Hin. apply Hm. by right.
    + intros id r Hr. by apply Hfind', Hfind.
Qed.

(** After the two loops every name of the map, and every name of a rule,
    has its rule. *)
Lemma prepare_resolved (t : Tree) (n : string) :
  distinct_ids t -> anon_only t ->
  is_Some (rules t !! n) \/ (exists r, r ∈ ruleList t /\ rule_name r = n) ->
  resolved (prepare t) n.
Proof.
  intros Hd Ha Hn. unfold prepare, add_placeholders.
  destruct (register_rules_spec t) as (Hl & Hi & _).
  destruct (register_rules_values (ruleList t) t) as [Hval Hdom].
  fold (register_rules t) in Hval, Hdom.
  assert (Hd1 : distinct_ids (register_rules t)).
  { destruct Hd as [Hd1 Hd2]. split; [by rewrite Hl|]. by rewrite Hl, Hi. }
  destruct (Hdom n Hn) as [p Hp].
  destruct (add_placeholders_resolved (map_to_list (rules (register_rules t)))
              (register_rules t) Hd1) as (Hres & _).
  - apply NoDup_fst_map_to_list.
  - intros m q Hm. by apply elem_of_map_to_list in Hm.
  - intros m id Hm. apply elem_of_map_to_list in Hm.
    destruct (Hval m _ Hm) as [Hold|(r & [= ->] & Hr & Hname)].
    + by apply Ha in Hold.
    + exists r. split; [|done]. rewrite Hl. apply find_rule_elem; [by destruct Hd|done].
  - apply (Hres n p). by apply elem_of_map_to_list.
Qed.

(** * The claims *)

(** C1, as stated, fails: the class resolved from the literal a^ holds the
    caret and the letter a; it prints as ^a, which reads back as the
    complement of the letter a. *)
Lemma C1_print_parse_counterexample :
  exists c, parse_class (bytes_of_string "a^") = Ok c /\
            parse_class (Class.String c) <> Ok c.
Proof.
  eexists. split; [vm_compute; reflexivity|]. vm_compute. discriminate.
Qed.

(** C1, amended: for every class (a 32-byte bitmap) that has a member, has
    no member from 128 on, whose least member is not the caret, whose
    greatest member is not a control character and in which no run of three
    or more members ends at a character printed with a backslash, parsing
    the printed form gives back the very same bitmap. *)
Theorem C1_print_parse (c : Class.t) :
  Class.wf c -> reads_back c = true ->
  parse_class (Class.String c) = Ok c.
Proof. exact (reads_back_parse c). Qed.

Lemma C1_print_parse_witness :
  let c := [0; 0; 0; 0; 0; 0; 255; 3; 254; 255; 255; 135; 254; 255; 255; 7;
            0; 0; 0; 0; 0; 0; 0; 0; 0; 0; 0; 0; 0; 0; 0; 0] in
  parse_class (bytes_of_string "A-Za-z0-9_") = Ok c /\
  parse_class (Class.String c) = Ok c.
Proof.
  split; [vm_compute; reflexivity|].
  apply C1_print_parse.
  - split; [reflexivity|]. repeat constructor; lia.
  - vm_compute. reflexivity.
Defined.




(** C4, as stated, fails: 255 actions get a field of 16 bits, although
    255 fits in 8. *)
Lemma C4_action_bits_counterexample :
  action_bits 255 = 16 /\ smallest_uint_width 255 = 8.
Proof. split; reflexivity. Qed.

(** C4, amended: with n actions (0 < n < 2^63) the width is the smallest of
    8, 16, 32, 64 that is greater than the number of bits of n, that is the
    smallest w of them with n < 2^(w-1): 8 up to 127 actions, 16 from 128
    to 32767, and so on. *)
Theorem C4_action_bits (n : Z) :
  0 < n < 2 ^ 63 ->
  In (action_bits n) [8; 16; 32; 64] /\
  n < 2 ^ (action_bits n - 1) /\
  forall w, In w [8; 16; 32; 64] -> n < 2 ^ (w - 1) -> action_bits n <= w.
Proof.
  intros Hn. rewrite action_bits_cases by exact Hn.
  repeat match goal with
         | |- context [?a <? ?b] => destruct (Z.ltb_spec a b)
         end; cbn [In]; (split; [tauto|]); (split; [simpl; lia|]);
    intros w [<-|[<-|[<-|[<-|[]]]]] Hw; simpl in *; lia.
Qed.

Lemma C4_action_bits_witness :
  In (action_bits 255) [8; 16; 32; 64] /\
  255 < 2 ^ (action_bits 255 - 1) /\
  forall w, In w [8; 16; 32; 64] -> 255 < 2 ^ (w - 1) -> action_bits 255 <= w.
Proof. apply (C4_action_bits 255). lia. Defined.

(** The names New enters in the map of the directives. *)
Definition directive_names : list string := ["package"; "Peg"; "userstate"; "yystype"].

(** C5, as stated, fails: Define with the name noexport, on the tree that
    New returns, records nothing; the tree stays as it is and the map has
    no entry for noexport. *)
Lemma C5_define_counterexample :
  Define "noexport" "1" (New false false) = Ok (New false false) /\
  defines (New false false) !! "noexport" = None.
Proof. split; reflexivity. Qed.

(** C5, amended: on a tree built by calls on a new tree, Define(k, v) with
    k one of package, Peg, userstate, yystype sets the entry of k to v and
    changes nothing else; with any other k, noexport among them, the map
    has no entry for k and the call leaves the whole tree as it is. *)
Theorem C5_define (inl sw : bool) (cs : list call) (t : Tree) (k v : string) :
  run cs (New inl sw) = Ok t ->
  (k ∈ directive_names ->
     Define k v t = Ok (set_defines (<[k := v]> (defines t)) t) /\
     defines (set_defines (<[k := v]> (defines t)) t) !! k = Some v) /\
  (k ∉ directive_names -> defines t !! k = None /\ Define k v t = Ok t).
Proof.
  intros Hrun. pose proof (run_defines_dom cs _ _ Hrun) as Hdom.
  assert (Hk : k ∈ dom (defines t) <-> k ∈ directive_names).
  { rewrite Hdom. change (defines (New inl sw)) with default_defines.
    unfold default_defines, directive_names.
    rewrite !dom_insert_L, dom_empty_L. set_solver. }
  split.
  - intros Hin. apply Hk, elem_of_dom in Hin as [old Hold].
    unfold Define. rewrite Hold. split; [done|]. cbn. apply lookup_insert_eq.
  - intros Hout. assert (Hnone : defines t !! k = None).
    { apply not_elem_of_dom. by rewrite Hk. }
    split; [exact Hnone|]. unfold Define. by rewrite Hnone.
Qed.

Lemma C5_define_witness :
  (Define "Peg" "Calc" (New false false) =
     Ok (set_defines (<["Peg" := "Calc"]> (defines (New false false))) (New false false)) /\
   defines (set_defines (<["Peg" := "Calc"]> (defines (New false false)))
              (New false false)) !! "Peg" = Some "Calc") /\
  (defines (New false false) !! "noexport" = None /\
   Define "noexport" "1" (New false false) = Ok (New false false)).
Proof.
  split.
  - apply (C5_define false false [] (New false false) "Peg" "Calc"); [reflexivity|].
    unfold directive_names. set_solver.
  - apply (C5_define false false [] (New false false) "noexport" "1"); [reflexivity|].
    unfold directive_names. set_solver.
Defined.

(** C9: the stack is an array of 1024 slots of which slot 0 is never used
    by push.  A sequence of builder calls during which the number of
    pending nodes stays within 0 .. 1023 never indexes the stack out of
    range; and when 1023 nodes are pending, any call that pushes indexes
    slot 1024, past the end of the array. *)
Theorem C9_stack_bounds (cs : list call) (t : Tree) :
  stack_ok t ->
  (depths_ok cs (top t) = true -> run cs t <> Panic StackIndex) /\
  (forall t' c, run cs t = Ok t' -> top t' = 1023 -> pushes_first c = true ->
     run (cs ++ [c]) t = Panic StackIndex).
Proof.
  intros Hok. split.
  - by apply run_in_bounds.
  - intros t' c Hrun Htop Hc. rewrite run_app, Hrun. cbn.
    rewrite (exec_overflow c t' Htop Hc). reflexivity.
Qed.



(** Two more rules the check finds: R <- 'a' / R 'b', where R comes back
    in the second branch, and R <- {x} R, where it comes back behind an
    action. *)
Definition later_branch_example : Tree :=
  match run [CAddRule "R"; CAddString "a"; CAddName "R"; CAddString "b"; CAddSequence;
             CAddAlternate; CAddExpression] (New false false) with
  | Ok t => prepare t
  | _ => New false false
  end.

Definition after_action_example : Tree :=
  match run [CAddRule "R"; CAddAction "x"; CAddName "R"; CAddSequence; CAddExpression]
            (New false false) with
  | Ok t => prepare t
  | _ => New false false
  end.

Example left_recursive_later_positions :
  (left_recursive_checked later_branch_example "R" /\
   recursion_pass later_branch_example 3 = Some (Ok [recursion_message "R"])) /\
  (left_recursive_checked after_action_example "R" /\
   recursion_pass after_action_example 3 = Some (Ok [recursion_message "R"])).
Proof.
  split; (split; [|vm_compute; reflexivity]).
  - eapply returns_now; [set_solver|vm_compute; reflexivity|].
    apply leftmost_alternate_next; [apply (consuming_token _ _ TypeCharacter "a")|].
    apply leftmost_alternate_here, leftmost_sequence_here, leftmost_name.
  - eapply returns_now; [set_solver|vm_compute; reflexivity|].
    apply leftmost_sequence_next; [apply consuming_action|].
    apply leftmost_sequence_here, leftmost_name.
Qed.

Lemma C9_stack_bounds_witness :
  let t := New false false in
  let cs := [CAddRule "R"; CAddDot; CAddDot; CAddSequence; CAddExpression] in
  run cs t <> Panic StackIndex /\
  (forall t' c, run (replicate 1023 CAddDot) t = Ok t' -> top t' = 1023 ->
     pushes_first c = true ->
     run (replicate 1023 CAddDot ++ [c]) t = Panic StackIndex).
Proof.
  split.
  - apply (C9_stack_bounds _ (New false false)).
    + split; [reflexivity|cbn; lia].
    + reflexivity.
  - apply (C9_stack_bounds (replicate 1023 CAddDot) (New false false)).
    split; [reflexivity|cbn; lia].
Defined.

(** C8: while the writer is in dry-run mode, lnPrint, cJump, save and
    restore write nothing to the sink.  lnPrint and save leave the whole
    state as it is, cJump only sets the used mark of its label, and restore
    (on a label whose save block is not open, as is the case for every
    label of the dry pass) only replaces the flags of its label by their
    disjunction with the restorations asked for: a flag that is set stays
    set. *)
Theorem C8_dry_run_emission (w : writer) (l : nat) (lab : label) :
  dryRun w = true -> labels w !! l = Some lab ->
  (forall s, lnPrint s w = w) /\
  (forall b s w', cJump l b s w = Ok w' ->
     w' = put_label l (set_used lab) w /\ sink w' = sink w /\
     w_saveFlags w' = w_saveFlags w) /\
  (forall w', save l w = Ok w' -> w' = w) /\
  (label_savedBlockOpen lab = false ->
   forall sp st w', restore l sp st w = Ok w' ->
     exists f, w_saveFlags w !! label_id lab = Some f /\
       w' = set_saveFlags
              (<[label_id lab := mkSaveFlags (sf_pos f || sp) (sf_thPos f || st)]>
                 (w_saveFlags w)) w /\
       sink w' = sink w /\ labels w' = labels w).
Proof.
  intros Hdry Hlab. split; [|split; [|split]].
  - intros s. by apply lnPrint_dry.
  - intros b s w' Hj. destruct (cJump_dry l b s w w' Hdry Hj) as (lab' & Hlab' & ->).
    rewrite Hlab in Hlab'. by simplify_eq.
  - intros w'. by apply save_dry.
  - intros Hclosed sp st w' Hr.
    destruct (restore_dry l sp st w w' lab Hdry Hlab Hclosed Hr) as (f & Hf & ->).
    by exists f.
Qed.

Lemma C8_dry_run_emission_witness :
  let w := snd (newLabel (setDry true newWriter)) in
  (forall s, lnPrint s w = w) /\
  (forall w', restore 0 true false w = Ok w' ->
     exists f, w_saveFlags w !! 0%nat = Some f /\
       w' = set_saveFlags
              (<[0%nat := mkSaveFlags (sf_pos f || true) (sf_thPos f || false)]>
                 (w_saveFlags w)) w /\
       sink w' = sink w /\ labels w' = labels w).
Proof.
  pose proof (C8_dry_run_emission (snd (newLabel (setDry true newWriter))) 0
                (mkLabel 0 0 false false) eq_refl eq_refl) as (H1 & _ & _ & H4).
  split; [exact H1|]. intros w' Hr. exact (H4 eq_refl true false w' Hr).
Defined.

(** ** Undefined rules *)

(** The grammar A <- B 'x', in which B is not defined, with the switch
    flag set. *)
Definition undefined_example : Tree :=
  match run [CAddRule "A"; CAddName "B"; CAddString "x"; CAddSequence;
             CAddExpression] (New false true) with
  | Ok t => t
  | _ => New false true
  end.

Definition undefined_analysed : Tree * list Z * list string :=
  match analyse undefined_example 20 with
  | Some (Ok x) => x
  | _ => (undefined_example, [], [])
  end.

(** C7: a rule name R that a Name node references (AddName entered it in
    the map of the rules) and that no rule of the list defines does not
    stop the compilation.  Whenever the analyses return, with the switch
    flag set or not, the list of rules that is emitted has a rule named R
    that was added for the name; the dry pass skips it; in the table of
    the rules its entry is the line nil, and the message
    rule 'R' used but not defined goes to the error stream, whatever the
    state of the writer; and the loop over the rules goes on with the rules
    after it as it went over the rules before it. *)
Theorem C7_undefined_rule_entry (t : Tree) (R : string) (fuel : nat)
    (t' : Tree) (counts : list Z) (err : list string)
    (nvar : Z) (w w' : writer) (rs : list rule) :
  distinct_ids t ->
  rules t !! R = Some RuleAnon ->
  (forall r, r ∈ ruleList t -> rule_name r <> R) ->
  analyse t fuel = Some (Ok (t', counts, err)) ->
  print_action_table t' nvar counts w = Ok (rs, w') ->
  exists before r after,
    rs = before ++ r :: after /\ rule_name r = R /\
    forall env fuel' s,
      dry_rule env fuel' r s = Some (Ok (tt, s)) /\
      real_rule env fuel' r s =
        Some (Ok (tt, mkCs (lnPrint "nil," (cs_w s))
                           (cs_err s ++ [undefined_message R]))) /\
      for_rules (real_rule env fuel') rs s =
        (_ ← for_rules (real_rule env fuel') before;
         _ ← real_rule env fuel' r;
         for_rules (real_rule env fuel') after) s.
Proof.
  intros Hd HR Hundef Han Hact.
  destruct (prepare_spec t Hd) as (_ & _ & Hp).
  destruct (Hp R HR Hundef) as [i Hi].
  pose proof (analyse_frame _ _ _ _ _ Hd Han) as Hf1.
  pose proof (print_action_table_frame _ _ _ _ _ _ Hact) as Hf2.
  destruct (frame_placeholder _ _ i R (frame_trans _ _ _ Hf1 Hf2) Hi)
    as (r & Hr & Hname & He).
  exists (take i rs), r, (drop (S i) rs).
  split; [by rewrite <- (take_drop_middle rs i r Hr) at 1|].
  split; [exact Hname|]. intros env fuel' s. split; [|split].
  - unfold dry_rule, GetExpression. by rewrite He.
  - rewrite <- Hname. by apply real_rule_placeholder.
  - rewrite <- (take_drop_middle rs i r Hr) at 1. apply for_rules_app.
Qed.

Lemma C7_undefined_rule_entry_witness :
  exists before r after,
    ruleList (undefined_analysed.1.1) = before ++ r :: after /\ rule_name r = "B" /\
    forall env fuel' s,
      dry_rule env fuel' r s = Some (Ok (tt, s)) /\
      real_rule env fuel' r s =
        Some (Ok (tt, mkCs (lnPrint "nil," (cs_w s))
                           (cs_err s ++ [undefined_message "B"]))) /\
      for_rules (real_rule env fuel') (ruleList (undefined_analysed.1.1)) s =
        (_ ← for_rules (real_rule env fuel') before;
         _ ← real_rule env fuel' r;
         for_rules (real_rule env fuel') after) s.
Proof.
  apply (C7_undefined_rule_entry undefined_example "B" 20
           (undefined_analysed.1.1) (undefined_analysed.1.2) (undefined_analysed.2)
           0 newWriter newWriter).
  - split.
    + vm_compute. apply NoDup_singleton.
    + intros r Hr. vm_compute in Hr. apply list_elem_of_singleton in Hr. by subst r.
  - vm_compute. reflexivity.
  - intros r Hr. vm_compute in Hr. apply list_elem_of_singleton in Hr. by subst r.
  - vm_compute. reflexivity.
  - vm_compute. reflexivity.
Defined.

(** On this grammar the whole of Compile returns: the message is on the
    error stream and the table of the rules has the line nil. *)
Example undefined_example_compiles :
  exists txt err,
    Compile undefined_example 20 true = Some (Ok (txt, err)) /\
    undefined_message "B" ∈ err /\
    (nl +:+ tab +:+ tab +:+ "nil,") ∈ txt.
Proof.
  eexists _, _. split; [vm_compute; reflexivity|].
  split; [by left|]. apply (bool_decide_unpack _). vm_compute. exact I.
Qed.

(** * Further properties *)

(** ** The character class *)

(** X1 (characterClass.add, characterClass.has): on a class of 32 bytes,
    after add(ch) the class has ch and has every other character exactly
    when it had it before; the array is still 32 bytes. *)
Theorem X1_class_add_has (c : Class.t) (ch x : Z) :
  Class.wf c -> 0 <= ch < 256 -> 0 <= x < 256 ->
  Class.wf (Class.add c ch) /\
  Class.has (Class.add c ch) x = (x =? ch) || Class.has c x.
Proof. intros Hwf Hch Hx. split; [by apply wf_add|by apply has_add]. Qed.

Lemma X1_class_add_has_witness :
  Class.wf (Class.add Class.new 97) /\
  Class.has (Class.add Class.new 97) 98 = (98 =? 97) || Class.has Class.new 98.
Proof.
  apply (X1_class_add_has Class.new 97 98); [|lia|lia].
  split; [reflexivity|]. repeat constructor; lia.
Defined.

(** X2 (characterClass.complement): the complement has exactly the
    characters the class does not have. *)
Theorem X2_class_complement (c : Class.t) (x : Z) :
  Class.wf c -> 0 <= x < 256 ->
  Class.wf (Class.complement c) /\
  Class.has (Class.complement c) x = negb (Class.has c x).
Proof. intros Hwf Hx. split; [by apply wf_complement|by apply has_complement]. Qed.

Lemma X2_class_complement_witness :
  Class.wf (Class.complement Class.new) /\
  Class.has (Class.complement Class.new) 200 = negb (Class.has Class.new 200).
Proof.
  apply (X2_class_complement Class.new 200); [|lia].
  split; [reflexivity|]. repeat constructor; lia.
Defined.

(** X3 (characterClass.union, characterClass.intersection): the union has
    the characters of either class, the intersection those of both. *)
Theorem X3_class_union_intersection (c d : Class.t) (x : Z) :
  Class.wf c -> Class.wf d -> 0 <= x < 256 ->
  Class.has (Class.union c d) x = Class.has c x || Class.has d x /\
  Class.has (Class.intersection c d) x = Class.has c x && Class.has d x /\
  Class.wf (Class.union c d) /\ Class.wf (Class.intersection c d).
Proof.
  intros Hc Hd Hx. split; [by apply has_union|]. split; [by apply has_intersection|].
  split; [by apply wf_union|by apply wf_intersection].
Qed.

Lemma X3_class_union_intersection_witness :
  let c := Class.add Class.new 97 in
  let d := Class.add Class.new 98 in
  Class.has (Class.union c d) 98 = Class.has c 98 || Class.has d 98 /\
  Class.has (Class.intersection c d) 98 = Class.has c 98 && Class.has d 98 /\
  Class.wf (Class.union c d) /\ Class.wf (Class.intersection c d).
Proof.
  apply (X3_class_union_intersection (Class.add Class.new 97) (Class.add Class.new 98) 98);
    [| |lia]; (apply wf_add; [|lia]; split; [reflexivity|]; repeat constructor; lia).
Defined.

(** X4 (characterClass.len): adding a character the class does not have
    makes len one more; adding one it has leaves len as it is. *)
Theorem X4_class_len_add (c : Class.t) (ch : Z) :
  Class.wf c -> 0 <= ch < 256 ->
  Class.len (Class.add c ch) =
  if Class.has c ch then Class.len c else S (Class.len c).
Proof.
  intros Hwf Hch. unfold Class.len.
  rewrite (filter_length_add c ch); [|done|done| |apply NoDup_seqZ].
  2:{ apply Forall_forall. intros x Hx. apply elem_of_seqZ in Hx. lia. }
  rewrite bool_decide_eq_true_2 by (apply elem_of_seqZ; lia).
  destruct (Class.has c ch); cbn [andb negb]; lia.
Qed.

Lemma X4_class_len_add_witness :
  Class.len (Class.add Class.new 97) =
  if Class.has Class.new 97 then Class.len Class.new else S (Class.len Class.new).
Proof.
  apply (X4_class_len_add Class.new 97); [|lia].
  split; [reflexivity|]. repeat constructor; lia.
Defined.

(** ** The class literal parser *)

(** X5 (Tree.AddClass, the literal parser): a literal made of bytes other
    than minus and backslash, not starting with a caret, resolves to the
    class of exactly its bytes; the same text after a caret resolves to
    the class of exactly the other bytes. *)
Theorem X5_plain_literal (text : list Z) :
  text <> [] -> plain text ->
  (head text <> Some ch_caret ->
   exists c, parse_class text = Ok c /\ Class.wf c /\
     forall x, 0 <= x < 256 -> (Class.has c x = true <-> x ∈ text)) /\
  (exists c, parse_class (ch_caret :: text) = Ok c /\ Class.wf c /\
     forall x, 0 <= x < 256 -> (Class.has c x = true <-> x ∉ text)).
Proof.
  intros Hne Hplain.
  destruct (exists_last Hne) as (l & z & ->).
  assert (Hl : plain l) by (by apply Forall_app in Hplain as [? _]).
  assert (Hb : Forall (fun b => 0 <= b < 256) (l ++ [z])) by by apply plain_bytes.
  assert (Hlast : last (l ++ [z]) = Some z) by apply last_snoc.
  assert (Hfold : foldl Class.add Class.new (l ++ [z]) =
                  Class.add (foldl Class.add Class.new l) z) by (by rewrite foldl_app).
  pose proof (wf_foldl_add _ _ wf_new Hb) as Hwf.
  assert (Hmem : forall x, 0 <= x < 256 ->
            (Class.has (foldl Class.add Class.new (l ++ [z])) x = true <-> x ∈ l ++ [z])).
  { intros x Hx. rewrite has_foldl_add, has_new by (try apply wf_new; done).
    cbn [orb]. apply bool_decide_eq_true. }
  split.
  - intros Hhead. exists (foldl Class.add Class.new (l ++ [z])).
    split; [|by split].
    rewrite parse_class_direct, AddClass_loop_plain, Hlast by done.
    by rewrite Hfold.
  - exists (Class.complement (foldl Class.add Class.new (l ++ [z]))).
    split; [|split; [by apply wf_complement|]].
    + rewrite parse_class_caret, AddClass_loop_plain, Hlast by done.
      by rewrite Hfold.
    + intros x Hx. rewrite has_complement by done.
      rewrite negb_true_iff, <- not_true_iff_false. by rewrite Hmem.
Qed.

Lemma X5_plain_literal_witness :
  (head [97; 98] <> Some ch_caret ->
   exists c, parse_class [97; 98] = Ok c /\ Class.wf c /\
     forall x, 0 <= x < 256 -> (Class.has c x = true <-> x ∈ [97; 98])) /\
  (exists c, parse_class (ch_caret :: [97; 98]) = Ok c /\ Class.wf c /\
     forall x, 0 <= x < 256 -> (Class.has c x = true <-> x ∉ [97; 98])).
Proof.
  apply (X5_plain_literal [97; 98]); [discriminate|].
  repeat constructor; try lia; discriminate.
Defined.

(** X6 (Tree.AddClass, ranges): the literal lo-hi with hi below 255
    resolves to lo, hi and the characters from lo to hi; when lo is above
    hi these are only lo and hi. *)
Theorem X6_range_literal (lo hi : Z) :
  0 <= lo < 256 -> 0 <= hi < 255 ->
  lo <> ch_caret -> lo <> ch_bslash ->
  exists c, parse_class [lo; ch_minus; hi] = Ok c /\ Class.wf c /\
    forall x, 0 <= x < 256 ->
      Class.has c x = (x =? lo) || (x =? hi) || ((lo <=? x) && (x <=? hi)).
Proof. apply parse_range. Qed.

Lemma X6_range_literal_witness :
  exists c, parse_class [97; ch_minus; 122] = Ok c /\ Class.wf c /\
    forall x, 0 <= x < 256 ->
      Class.has c x = (x =? 97) || (x =? 122) || ((97 <=? x) && (x <=? 122)).
Proof. apply (X6_range_literal 97 122); [lia|lia|discriminate|discriminate]. Defined.

(** X7 (Tree.AddClass, the range loop): the loop over j from last to the
    upper end of a range, with j a uint8, never ends when the upper end is
    the byte 255; so a literal with such a range after bytes that are not
    minus or backslash makes AddClass loop for ever. *)
Theorem X7_range_to_255 (pre post : list Z) (lo : Z) :
  plain (pre ++ [lo]) -> head (pre ++ [lo]) <> Some ch_caret ->
  (forall fuel j c, 0 <= j < 256 -> range_loop fuel j 255 c = None) /\
  parse_class (pre ++ lo :: ch_minus :: 255 :: post) = Diverge.
Proof.
  intros Hplain Hhead. split; [intros fuel j c; apply range_loop_255|].
  assert (Hloop : forall l c lst hl, plain (l ++ [lo]) ->
            AddClass_loop (l ++ lo :: ch_minus :: 255 :: post) c lst hl = None).
  { induction l as [|x l IH]; intros c lst hl Hl.
    - apply Forall_cons in Hl as [(Hlo & Hm & Hb) _]. cbn [app].
      rewrite AddClass_loop_step by done.
      cbn [AddClass_loop]. change (ch_minus =? ch_minus) with true. cbn [andb].
      by rewrite range_loop_255.
    - cbn [app] in Hl. apply Forall_cons in Hl as [(Hx & Hm & Hb) Hl]. cbn [app].
      destruct (l ++ lo :: ch_minus :: 255 :: post) as [|y rest] eqn:Hrest;
        [by destruct l|].
      rewrite AddClass_loop_step by done. by apply IH. }
  rewrite parse_class_direct, Hloop; [done|done| |by destruct pre].
  by destruct pre.
Qed.

Lemma X7_range_to_255_witness :
  (forall fuel j c, 0 <= j < 256 -> range_loop fuel j 255 c = None) /\
  parse_class ([] ++ 97 :: ch_minus :: 255 :: []) = Diverge.
Proof.
  apply (X7_range_to_255 [] [] 97); [|discriminate].
  repeat constructor; try lia; discriminate.
Defined.

(** ** The builder *)

(** X8 (Tree.AddAction): in every tree built by calls on a new tree the
    actions are numbered by their position in t.Actions, from 0 on. *)
Theorem X8_actions_numbered (inl sw : bool) (cs : list call) (t : Tree) :
  run cs (New inl sw) = Ok t ->
  forall i a, Actions t !! i = Some a -> act_id a = Z.of_nat i.
Proof.
  apply (run_invariant actions_numbered); [apply exec_actions_numbered|].
  intros i a Hi. cbn in Hi. by rewrite lookup_nil in Hi.
Qed.

Lemma X8_actions_numbered_witness :
  act_id (mkAction "y" 1 0) = Z.of_nat 1.
Proof.
  apply (X8_actions_numbered false false
           [CAddRule "A"; CAddAction "x"; CAddAction "y"; CAddSequence]
           (match run [CAddRule "A"; CAddAction "x"; CAddAction "y"; CAddSequence]
                      (New false false) with
            | Ok t => t
            | _ => New false false
            end)).
  - vm_compute. reflexivity.
  - vm_compute. reflexivity.
Defined.

(** X9 (Tree.AddClass): in every tree built by calls on a new tree, each
    entry of t.classes is the class the literal parser makes of its key;
    an entry is made once and not changed by later calls. *)
Theorem X9_classes_parsed (inl sw : bool) (cs : list call) (t : Tree) :
  run cs (New inl sw) = Ok t ->
  forall text c, classes t !! text = Some c ->
    parse_class (bytes_of_string text) = Ok c.
Proof.
  apply (run_invariant classes_parsed); [apply exec_classes_parsed|].
  intros text c Hc. cbn in Hc. by rewrite lookup_empty in Hc.
Qed.

Lemma X9_classes_parsed_witness :
  parse_class (bytes_of_string "a-c") =
  Ok (Class.add (Class.add (Class.add Class.new 97) 98) 99).
Proof.
  apply (X9_classes_parsed false false
           [CAddRule "A"; CAddClass "a-c"; CAddClass "a-c"; CAddSequence]
           (match run [CAddRule "A"; CAddClass "a-c"; CAddClass "a-c"; CAddSequence]
                      (New false false) with
            | Ok t => t
            | _ => New false false
            end)).
  - vm_compute. reflexivity.
  - vm_compute. reflexivity.
Defined.

(** X10 (Tree.AddRule, Tree.AddExpression and the stack): in every tree
    built by calls on a new tree the rules of the list have distinct ids,
    all below the next id t.ruleId. *)
Theorem X10_rule_ids_distinct (inl sw : bool) (cs : list call) (t : Tree) :
  run cs (New inl sw) = Ok t -> distinct_ids t.
Proof.
  intros H. apply ids_ok_distinct. eapply run_ids_ok; [|exact H]. apply New_ids_ok.
Qed.

Lemma X10_rule_ids_distinct_witness : distinct_ids undefined_example.
Proof.
  apply (X10_rule_ids_distinct false true
           [CAddRule "A"; CAddName "B"; CAddString "x"; CAddSequence; CAddExpression]).
  vm_compute. reflexivity.
Defined.

(** X11 (Tree.AddAction, the loop over the text): the text keeps its
    length, has no two dollars side by side afterwards, and is unchanged
    when it had none. *)
Theorem X11_rewrite_dollars (s : string) :
  dollars (rewrite_dollars s) = false /\
  String.length (rewrite_dollars s) = String.length s /\
  (dollars s = false -> rewrite_dollars s = s).
Proof. by apply (rewrite_dollars_spec (String.length s)). Qed.

(** ** The analyses *)

(** X12 (checkRecursion): on a grammar in which every name of the map has
    its rule, with an id below the number of names, distinct ids and an
    expression the pass can walk, the left-recursion pass returns: it does
    not panic and does not recurse for ever (fuel twice the number of
    rules, and one, is enough). *)
Theorem X12_recursion_pass_returns (t : Tree) (fuel : nat) :
  wf_grammar t = true ->
  (2 * size (rules t) + 1 <= fuel)%nat ->
  exists out, recursion_pass t fuel = Some (Ok out).
Proof.
  intros Hg Hfuel. unfold recursion_pass.
  destruct (check_rules_emits t Hg (map_to_list (rules t))
              (mkCr (replicate (size (rules t)) false) []) fuel)
    as (st' & -> & _); try done; [|by eexists].
  intros [n p] He. by apply elem_of_map_to_list in He.
Qed.

Lemma X12_recursion_pass_returns_witness :
  exists out, recursion_pass (prepare undefined_example) 5 = Some (Ok out).
Proof.
  apply (X12_recursion_pass_returns (prepare undefined_example) 5).
  - vm_compute. reflexivity.
  - vm_compute. lia.
Defined.

(** X13 (optimizeAlternates): when the rules of the list have distinct
    ids, the pass that rewrites alternations leaves every rule in its slot
    with its name and its id, and gives no expression to a rule that had
    none. *)
Theorem X13_optimizer_keeps_rules (t : Tree) (fuel : nat) (rs : list rule) :
  NoDup (rule_id <$> ruleList t) ->
  optimize_pass t fuel = Some (Ok rs) ->
  length rs = length (ruleList t) /\
  forall i r, ruleList t !! i = Some r ->
    exists r', rs !! i = Some r' /\ rule_name r' = rule_name r /\
      rule_id r' = rule_id r /\
      (rule_expression r = GoNil -> rule_expression r' = GoNil).
Proof.
  intros Hnd Hopt. pose proof (optimize_pass_frame t fuel rs Hnd Hopt) as Hf.
  split; [symmetry; by eapply Forall2_length|].
  intros i r Hr. by destruct (Forall2_lookup_l _ _ _ _ _ Hf Hr) as (r' & ? & ?); exists r'.
Qed.

(** An alternation the optimizer rewrites: C <- 'y' / 'z' / 'w'*, with the
    switch flag set. *)
Definition switch_example : Tree :=
  match run [CAddRule "C"; CAddString "y"; CAddString "z"; CAddAlternate;
             CAddString "w"; CAddStar; CAddAlternate; CAddExpression]
            (New false true) with
  | Ok t => prepare t
  | _ => New false true
  end.

Lemma X13_optimizer_keeps_rules_witness :
  let rs := match optimize_pass switch_example 20 with
            | Some (Ok rs) => rs
            | _ => []
            end in
  length rs = length (ruleList switch_example) /\
  forall i r, ruleList switch_example !! i = Some r ->
    exists r', rs !! i = Some r' /\ rule_name r' = rule_name r /\
      rule_id r' = rule_id r /\
      (rule_expression r = GoNil -> rule_expression r' = GoNil).
Proof.
  apply (X13_optimizer_keeps_rules switch_example 20).
  - vm_compute. apply NoDup_singleton.
  - vm_compute. reflexivity.
Defined.

(** X14 (optimizeAlternates, the rewrite of an alternation): the rewrite
    drops no branch and makes no copy of one.  The branches that meet a
    later branch stay in front in their order; every other branch is put
    once, behind a peek at its class, into the unordered list that comes
    last (or that is the whole node when no branch meets a later one): the
    unordered list holds, in some order, exactly the sequences
    Sequence(PeekFor(Class), branch) made of a branch that meets no later
    one and of the class that properties has at the index of that
    branch. *)
Theorem X14_rewrite_keeps_branches (elements : list Node)
    (properties : list (bool * classRef)) (node : Node) :
  rewrite_alternate elements properties = Ok node ->
  exists unordered gs,
    node = match picked true elements properties with
           | [] => NodeList TypeUnorderedAlternate unordered
           | ordered =>
               NodeList TypeAlternate
                 (ordered ++ [NodeList TypeUnorderedAlternate unordered])
           end /\
    Forall guarded unordered /\
    branch_of <$> unordered ≡ₚ picked false elements properties /\
    guards elements properties = Ok gs /\ unordered ≡ₚ gs.
Proof.
  intros H. unfold rewrite_alternate in H.
  destruct (split_branches _ _ _ _ _) as [[unordered ordered]| |] eqn:Hs; try discriminate.
  destruct (split_branches_guards _ _ _ _ _ _ _ Hs) as (gs & Hgs & Hpg).
  apply split_branches_spec in Hs as (-> & Hg & Hperm); [|constructor].
  cbn [mbind result_bind] in H. exists unordered, gs. cbn [app] in H, Hpg |- *.
  split; [|by repeat split]. destruct (picked true elements properties); by injection H as <-.
Qed.

Lemma X14_rewrite_keeps_branches_witness :
  let a := Token TypeCharacter "a" ClassNil in
  let b := Token TypeCharacter "b" ClassNil in
  let ca := ClassPtr (Class.add Class.new 97) in
  let cb := ClassPtr (Class.add Class.new 98) in
  exists unordered gs,
    NodeList TypeUnorderedAlternate
      [guard_branch ca (Class.add Class.new 97) a;
       guard_branch cb (Class.add Class.new 98) b] =
    match picked true [b; a] [(false, cb); (false, ca)] with
    | [] => NodeList TypeUnorderedAlternate unordered
    | ordered =>
        NodeList TypeAlternate (ordered ++ [NodeList TypeUnorderedAlternate unordered])
    end /\
    Forall guarded unordered /\
    branch_of <$> unordered ≡ₚ picked false [b; a] [(false, cb); (false, ca)] /\
    guards [b; a] [(false, cb); (false, ca)] = Ok gs /\ unordered ≡ₚ gs.
Proof.
  apply (X14_rewrite_keeps_branches
           [Token TypeCharacter "b" ClassNil; Token TypeCharacter "a" ClassNil]
           [(false, ClassPtr (Class.add Class.new 98));
            (false, ClassPtr (Class.add Class.new 97))]).
  vm_compute. reflexivity.
Defined.

(** ** Emission *)

(** X15 (Tree.Compile, rules that are used and not defined): for a tree
    built by calls on a new tree, a name R that AddName entered in the map
    and that no rule of the list defines gets a rule of its own in the
    list that is emitted, with the switch flag set or not; the dry pass
    skips that rule; its entry in the table of the rules is the line nil,
    with the message rule 'R' used but not defined on the error stream;
    and the loop over the rules goes on with the rules after it. *)
Theorem X15_undefined_rule (inl sw : bool) (cs : list call) (t : Tree) (R : string)
    (fuel : nat) (t' : Tree) (counts : list Z) (err : list string)
    (nvar : Z) (w w' : writer) (rs : list rule) :
  run cs (New inl sw) = Ok t ->
  rules t !! R = Some RuleAnon ->
  (forall r, r ∈ ruleList t -> rule_name r <> R) ->
  analyse t fuel = Some (Ok (t', counts, err)) ->
  print_action_table t' nvar counts w = Ok (rs, w') ->
  exists before r after,
    rs = before ++ r :: after /\ rule_name r = R /\
    forall env fuel' s,
      dry_rule env fuel' r s = Some (Ok (tt, s)) /\
      real_rule env fuel' r s =
        Some (Ok (tt, mkCs (lnPrint "nil," (cs_w s))
                           (cs_err s ++ [undefined_message R]))) /\
      for_rules (real_rule env fuel') rs s =
        (_ ← for_rules (real_rule env fuel') before;
         _ ← real_rule env fuel' r;
         for_rules (real_rule env fuel') after) s.
Proof.
  intros Hrun HR Hundef Han Hact.
  assert (Hd : distinct_ids t).
  { apply ids_ok_distinct. eapply run_ids_ok; [|exact Hrun]. apply New_ids_ok. }
  destruct (prepare_spec t Hd) as (_ & _ & Hp).
  destruct (Hp R HR Hundef) as [i Hi].
  pose proof (analyse_frame _ _ _ _ _ Hd Han) as Hf1.
  pose proof (print_action_table_frame _ _ _ _ _ _ Hact) as Hf2.
  destruct (frame_placeholder _ _ i R (frame_trans _ _ _ Hf1 Hf2) Hi)
    as (r & Hr & Hname & He).
  exists (take i rs), r, (drop (S i) rs).
  split; [by rewrite <- (take_drop_middle rs i r Hr) at 1|].
  split; [exact Hname|]. intros env fuel' s. split; [|split].
  - unfold dry_rule, GetExpression. by rewrite He.
  - rewrite <- Hname. by apply real_rule_placeholder.
  - rewrite <- (take_drop_middle rs i r Hr) at 1. apply for_rules_app.
Qed.

Lemma X15_undefined_rule_witness :
  exists before r after,
    ruleList (undefined_analysed.1.1) = before ++ r :: after /\ rule_name r = "B" /\
    forall env fuel' s,
      dry_rule env fuel' r s = Some (Ok (tt, s)) /\
      real_rule env fuel' r s =
        Some (Ok (tt, mkCs (lnPrint "nil," (cs_w s))
                           (cs_err s ++ [undefined_message "B"]))) /\
      for_rules (real_rule env fuel') (ruleList (undefined_analysed.1.1)) s =
        (_ ← for_rules (real_rule env fuel') before;
         _ ← real_rule env fuel' r;
         for_rules (real_rule env fuel') after) s.
Proof.
  apply (X15_undefined_rule false true
           [CAddRule "A"; CAddName "B"; CAddString "x"; CAddSequence; CAddExpression]
           undefined_example "B" 20
           (undefined_analysed.1.1) (undefined_analysed.1.2) (undefined_analysed.2)
           0 newWriter newWriter).
  - vm_compute. reflexivity.
  - vm_compute. reflexivity.
  - intros r Hr. vm_compute in Hr. apply list_elem_of_singleton in Hr. by subst r.
  - vm_compute. reflexivity.
  - vm_compute. reflexivity.
Defined.

(** X16 (the dry pass of Tree.Compile; writer.setDry, lnPrint, cJump, save,
    restore and the other methods of the writer and its labels): the dry
    pass over any list of rules, whatever the rules are, writes nothing to
    the output; when it returns and the writer leaves the dry mode, the
    output, the indentation and the commit mark are what they were before
    the pass and the labels are counted from 0 again; the flags of the
    labels have only grown: an entry that was there is still there, and a
    flag of it that was set is still set. *)
Theorem X16_dry_pass_writes_nothing (env : cenv) (fuel : nat) (rs : list rule)
    (w0 : writer) (err : list string) (s' : cstate) :
  for_rules (dry_rule env fuel) rs (mkCs (setDry true w0) err) = Some (Ok (tt, s')) ->
  sink (setDry false (cs_w s')) = sink w0 /\
  indent (setDry false (cs_w s')) = indent w0 /\
  hasCommit (setDry false (cs_w s')) = hasCommit w0 /\
  dryRun (setDry false (cs_w s')) = false /\
  nLabels (setDry false (cs_w s')) = 0%nat /\
  flags_le (w_saveFlags w0) (w_saveFlags (setDry false (cs_w s'))).
Proof.
  intros H.
  destruct (silent_for_rules (dry_rule env fuel) rs (silent_dry_rule env fuel)
              (mkCs (setDry true w0) err) tt s' eq_refl H)
    as (Hdry & Hsink & Hind & Hcommit & Hflags).
  cbn in Hsink, Hind, Hcommit, Hflags. by repeat split.
Qed.

Lemma X16_dry_pass_writes_nothing_witness :
  let env := mkEnv switch_example ∅ false in
  let s' := match for_rules (dry_rule env 20) (ruleList switch_example)
                    (mkCs (setDry true newWriter) []) with
            | Some (Ok (_, s')) => s'
            | _ => mkCs newWriter []
            end in
  sink (setDry false (cs_w s')) = sink newWriter /\
  indent (setDry false (cs_w s')) = indent newWriter /\
  hasCommit (setDry false (cs_w s')) = hasCommit newWriter /\
  dryRun (setDry false (cs_w s')) = false /\
  nLabels (setDry false (cs_w s')) = 0%nat /\
  flags_le (w_saveFlags newWriter) (w_saveFlags (setDry false (cs_w s'))).
Proof.
  apply (X16_dry_pass_writes_nothing (mkEnv switch_example ∅ false) 20
           (ruleList switch_example) newWriter []).
  vm_compute. reflexivity.
Defined.

(** X17 (New, Tree.Define, Tree.Compile: the directives): when no call
    names one of the four directives of New in a Define, the directives
    are the defaults when Compile starts, and the text before the actions
    has no package clause, declares the parser type yyParser with no user
    state, and declares yyval with elements of type yyStype when a rule
    has variables. *)
Theorem X17_default_directives (inl sw : bool) (cs : list call) (t : Tree)
    (fuel : nat) (t' : Tree) (counts : list Z) (err : list string)
    (nvar : Z) (w : writer) :
  forallb keeps_directives cs = true ->
  run cs (New inl sw) = Ok t ->
  analyse t fuel = Some (Ok (t', counts, err)) ->
  defines (New inl sw) = default_defines /\
  defines t' = default_defines /\
  print_prelude t' nvar w =
    (let w1 := foldl (fun w s => print s w) w (headers t') in
     let w2 := print (nl +:+ "const (" +:+ nl) w1 in
     let w3 := print_rule_consts (ruleList t') w2 in
     let w4 := print (tpl_parser "yyParser" "" (pretty (size (rules t')))) w3 in
     if 0 <? nvar then print (tpl_yyval "yyStype") w4 else w4) /\
  (exists rest, tpl_parser "yyParser" "" (pretty (size (rules t'))) =
     ")" +:+ nl +:+ nl +:+ "type yyParser struct {" +:+ nl +:+ tab +:+
     "Buffer string" +:+ rest) /\
  (exists rest, tpl_yyval "yyStype" =
     nl +:+ tab +:+ "var yyp int" +:+ nl +:+ tab +:+ "var yy yyStype" +:+ nl +:+
     tab +:+ "var yyval = make([]yyStype, 200)" +:+ rest).
Proof.
  intros Hk Hrun Han.
  assert (Hdef : defines t' = default_defines).
  { rewrite (analyse_defines _ _ _ _ _ Han).
    by rewrite (run_keeps_defines cs (New inl sw) t). }
  split; [done|]. split; [exact Hdef|]. split; [|split].
  - unfold print_prelude, define_of. rewrite Hdef. reflexivity.
  - eexists. unfold tpl_parser. cbn. reflexivity.
  - eexists. unfold tpl_yyval. cbn. reflexivity.
Qed.

Lemma X17_default_directives_witness :
  let t' := undefined_analysed.1.1 in
  defines (New false true) = default_defines /\
  defines t' = default_defines /\
  print_prelude t' 0 newWriter =
    (let w1 := foldl (fun w s => print s w) newWriter (headers t') in
     let w2 := print (nl +:+ "const (" +:+ nl) w1 in
     let w3 := print_rule_consts (ruleList t') w2 in
     let w4 := print (tpl_parser "yyParser" "" (pretty (size (rules t')))) w3 in
     if 0 <? 0 then print (tpl_yyval "yyStype") w4 else w4) /\
  (exists rest, tpl_parser "yyParser" "" (pretty (size (rules t'))) =
     ")" +:+ nl +:+ nl +:+ "type yyParser struct {" +:+ nl +:+ tab +:+
     "Buffer string" +:+ rest) /\
  (exists rest, tpl_yyval "yyStype" =
     nl +:+ tab +:+ "var yyp int" +:+ nl +:+ tab +:+ "var yy yyStype" +:+ nl +:+
     tab +:+ "var yyval = make([]yyStype, 200)" +:+ rest).
Proof.
  apply (X17_default_directives false true
           [CAddRule "A"; CAddName "B"; CAddString "x"; CAddSequence; CAddExpression]
           undefined_example 20
           (undefined_analysed.1.1) (undefined_analysed.1.2) (undefined_analysed.2)
           0 newWriter).
  - reflexivity.
  - vm_compute. reflexivity.
  - vm_compute. reflexivity.
Defined.

(** ** More on the passes *)

(** A grammar that defines the name A twice. *)
Definition duplicate_example : Tree :=
  match run [CAddRule "A"; CAddString "x"; CAddExpression;
             CAddRule "A"; CAddString "y"; CAddExpression] (New false false) with
  | Ok t => prepare t
  | _ => New false false
  end.

(** X18 (checkRecursion, ruleReached): ruleReached has len(t.rules) entries
    and is indexed by the id of a rule; when a rule of the map has an id
    that is not below len(t.rules) the left-recursion pass does not return:
    it panics (unless it panicked or ran on before).  A grammar that
    defines a name twice is such a case: the map has fewer names than the
    list has rules. *)
Theorem X18_rule_id_out_of_range (t : Tree) (fuel : nat) (n : string) (p : ruleRef)
    (r : rule) :
  rules t !! n = Some p -> deref t p = Some r ->
  ~ (0 <= rule_id r < Z.of_nat (size (rules t))) ->
  fails (recursion_pass t fuel).
Proof.
  intros Hn Hr Hid. unfold recursion_pass.
  pose proof (check_rules_out_of_range t fuel (map_to_list (rules t))
                (mkCr (replicate (size (rules t)) false) []) n p r) as H.
  destruct (check_rules _ _ _ _) as [[st| |]|]; try done.
  apply H; [by apply elem_of_map_to_list|done|].
  cbn. by rewrite length_replicate.
Qed.

Lemma X18_rule_id_out_of_range_witness : fails (recursion_pass duplicate_example 10).
Proof.
  apply (X18_rule_id_out_of_range duplicate_example 10 "A" (RulePtr 1)
           (mkRule "A" 1 (Token TypeCharacter "y" ClassNil) false [])).
  - vm_compute. reflexivity.
  - vm_compute. reflexivity.
  - vm_compute. intros [_ H]. discriminate H.
Defined.

(** On the grammar with the name defined twice the pass, and with it the
    whole of Compile, ends in a panic on the index. *)
Example duplicate_example_panics :
  recursion_pass duplicate_example 10 = Some (Panic IndexOutOfRange) /\
  Compile (match run [CAddRule "A"; CAddString "x"; CAddExpression;
                      CAddRule "A"; CAddString "y"; CAddExpression]
                     (New false false) with
           | Ok t => t
           | _ => New false false
           end) 10 true = Some (Panic IndexOutOfRange).
Proof. split; vm_compute; reflexivity. Qed.

(** X19 (optimizeAlternates, the compare loop): the test that two classes
    intersect, a byte of the one and the same byte of the other having a
    bit in common, holds exactly when some character is in both classes. *)
Theorem X19_overlap_common_member (a b : Class.t) :
  Class.wf a -> Class.wf b ->
  (overlap a b = true <->
   exists x, 0 <= x < 256 /\ Class.has a x = true /\ Class.has b x = true).
Proof. apply overlap_spec. Qed.

Lemma X19_overlap_common_member_witness :
  overlap (Class.add Class.new 97) (Class.add Class.new 97) = true <->
  exists x, 0 <= x < 256 /\ Class.has (Class.add Class.new 97) x = true /\
            Class.has (Class.add Class.new 97) x = true.
Proof.
  apply (X19_overlap_common_member (Class.add Class.new 97) (Class.add Class.new 97));
    (apply wf_add; [|lia]; split; [reflexivity|]; repeat constructor; lia).
Defined.

(** X20 (compile, TypeUnorderedAlternate: the characters of a case): in
    the real pass the loop over d from 0 to 255 writes, after the word
    case, exactly the members of the class in increasing order, each
    between single quotes after a blank and with the escapes of case_char,
    separated by commas; it writes nothing else and leaves the error
    stream alone. *)
Theorem X20_case_characters (class : Class.t) (s : cstate) :
  dryRun (cs_w s) = false ->
  exists pieces,
    print_case_chars class s =
      Some (Ok (tt, mkCs (set_sink (sink (cs_w s) ++ pieces) (cs_w s)) (cs_err s))) /\
    text_of pieces = String.concat "," (case_item <$> members class).
Proof.
  intros Hdry. unfold print_case_chars, members.
  destruct (case_loop_spec class (seqZ 0 256) (mret false) s s false Hdry eq_refl)
    as [comma' Hres].
  exists (case_pieces class (seqZ 0 256) false). split.
  - unfold mbind, M_bind. by rewrite Hres.
  - rewrite case_pieces_text. by destruct (filter _ _).
Qed.

Lemma X20_case_characters_witness :
  exists pieces,
    print_case_chars (Class.add (Class.add Class.new 97) 10) (mkCs newWriter []) =
      Some (Ok (tt, mkCs (set_sink (sink newWriter ++ pieces) newWriter) [])) /\
    text_of pieces =
      String.concat "," (case_item <$> members (Class.add (Class.add Class.new 97) 10)).
Proof.
  apply (X20_case_characters (Class.add (Class.add Class.new 97) 10) (mkCs newWriter [])).
  reflexivity.
Defined.

(** The text of that case: a newline and a. *)
Example case_characters_example :
  String.concat "," (case_item <$> members (Class.add (Class.add Class.new 97) 10)) =
  " '\n', 'a'".
Proof. vm_compute. reflexivity. Qed.

(** X21. Whatever the builder calls were, after the two registration loops
    of Compile every name that was used (a key of the map) and every name
    of a rule of the list has its rule: the map gives a rule of the list
    with that name, so the passes never find a name without a rule. *)
Theorem X21_names_resolved (inl sw : bool) (cs : list call) (t : Tree) (n : string) :
  run cs (New inl sw) = Ok t ->
  is_Some (rules t !! n) \/ (exists r, r ∈ ruleList t /\ rule_name r = n) ->
  exists r, rule_named (prepare t) n = Some r /\ rule_name r = n /\
            r ∈ ruleList (prepare t).
Proof.
  intros Hrun Hn.
  assert (Hd : distinct_ids t).
  { apply ids_ok_distinct. eapply run_ids_ok; [|exact Hrun]. apply New_ids_ok. }
  assert (Ha : anon_only t).
  { eapply (run_invariant anon_only exec_anon_only); [|exact Hrun].
    intros m p Hm. cbn in Hm. by rewrite lookup_empty in Hm. }
  destruct (prepare_resolved t n Hd Ha Hn) as (id & r & Hmap & Hfind & Hname).
  exists r. split; [|split; [done|]].
  - unfold rule_named. rewrite Hmap. exact Hfind.
  - destruct (find_rule_Some _ _ _ Hfind) as [_ [j Hj]].
    by eapply list_elem_of_lookup_2.
Qed.

Lemma X21_names_resolved_witness :
  exists r, rule_named (prepare undefined_example) "B" = Some r /\ rule_name r = "B" /\
            r ∈ ruleList (prepare undefined_example).
Proof.
  apply (X21_names_resolved false true
           [CAddRule "A"; CAddName "B"; CAddString "x"; CAddSequence; CAddExpression]
           undefined_example "B").
  - vm_compute. reflexivity.
  - left. exists RuleAnon. vm_compute. reflexivity.
Defined.
